(** * Masked categorical action model of microrts_ppo

    A shallow embedding of the action-distribution machinery shared by
    [ppo_diverse_downsize.py], [ppo_diverse_maxcho.py] and
    [ppo_maxcho_v2.py]: the class [CategoricalMasked] and the method
    [Agent.get_action], together with the handful of PyTorch operations
    they call.

    Numbers.  Tensors of floats are modelled as lists of real numbers and
    every operation is the exact one: there is no rounding, no overflow and
    no underflow, and every logit is finite.  A statement proved here is a
    statement about the arithmetic the code asks for, not about the error
    of its float32 evaluation.  Two things are said of float32 itself.
    Around the constant [-1e8] that replaces a masked-out logit, float32
    numbers are 8 apart, and a normaliser added to it is lost; the
    theorems on the values of log-probabilities and entropies are
    therefore about rows of ordinary size ([ordinary]), where exact and
    float32 arithmetic differ by rounding only.  And the finiteness of
    the float32 normalisation is proved of an evaluation with rounded
    operations ([Float32]).  Integers of fixed width wrap around.

    Shapes.  Every tensor that the action head touches is a matrix
    [batch x width]; it is a list of rows.  Where PyTorch refuses
    operands whose shapes do not fit ([torch.where], [torch.split],
    [torch.cat], [reshape]) the model cuts to the common part instead: it
    describes the calls whose shapes fit.  A theorem that depends on the
    shapes says so in its hypotheses.

    Effects.  [get_action] draws random numbers and calls the game
    client.  Both are threaded through a small state-and-exception monad
    whose state also keeps the chronological list of those events.

    The second half of the development follows the rest of the three
    files: the helpers [MicrortsUtils], the shapes that flow through the
    networks of [Agent], the arithmetic of the training loop (advantages
    and returns, learning-rate schedule, minibatches, losses, early
    stopping) and the environment wrappers ([VecMonitor], [VecPyTorch],
    [BoundaryWrapper], [AttackPowerOneHotWrapper]).  Python integers are
    [Z], Python exceptions are the left summand of a sum type, and the
    state that a wrapper keeps is passed in and returned. *)

From Stdlib Require Import String.
From Stdlib Require Import Reals Lra Lia ZArith Bool Arith List.
Import ListNotations.

Set Implicit Arguments.

(** ** The PyTorch operations used by the action head *)

Module Torch.

(** A matrix [batch x width]. *)
Definition tensor (A : Type) : Type := list (list A).

(** Conversion of an element to [torch.bool] ([.bool()],
    [.type(torch.BoolTensor)], [np.asarray(_, dtype=np.bool_)]): a boolean
    is kept, a number is true when it is not zero. *)
Class ToBool (A : Type) : Type := to_bool : A -> bool.

#[export] Instance ToBool_bool : ToBool bool := fun b => b.
#[export] Instance ToBool_Z : ToBool Z := fun z => negb (Z.eqb z 0).

Definition as_bool {A : Type} `{ToBool A} (t : tensor A) : tensor bool :=
  map (map to_bool) t.

(** [torch.where(cond, x, c)] with a scalar [c], on one row and on a matrix. *)
Definition where_row (cond : list bool) (x : list R) (c : R) : list R :=
  map (fun bx : bool * R => if fst bx then snd bx else c) (combine cond x).

Definition where_ (cond : tensor bool) (x : tensor R) (c : R) : tensor R :=
  map (fun mx : list bool * list R => where_row (fst mx) (snd mx) c) (combine cond x).

(** [torch.split(t, sizes, dim=1)]: consecutive column blocks. *)
Fixpoint split {A : Type} (t : tensor A) (sizes : list nat) : list (tensor A) :=
  match sizes with
  | [] => []
  | n :: ns => map (firstn n) t :: split (map (skipn n) t) ns
  end.

(** [torch.cat((a, b), 1)]: rows joined side by side. *)
Definition cat {A : Type} (a b : tensor A) : tensor A :=
  map (fun ab : list A * list A => fst ab ++ snd ab) (combine a b).

(** [t.sum(-1)] on one row. *)
Definition sum_list (r : list R) : R := fold_right Rplus 0%R r.

Definition add_rows (a b : list R) : list R :=
  map (fun ab : R * R => (fst ab + snd ab)%R) (combine a b).

(** [t.sum(0)] of a stack of equally long rows: their component-wise sum. *)
Definition sum0 (xs : list (list R)) : list R :=
  match xs with
  | [] => []
  | x :: rest => fold_left add_rows rest x
  end.

(** [t.sum().item()] of a boolean matrix: the number of true entries. *)
Definition count_true (t : tensor bool) : nat :=
  length (filter (fun b : bool => b) (concat t)).

(** [np.reshape(B, -1)]: the entries in row-major order, cut into [B] rows. *)
Fixpoint chunks {A : Type} (w n : nat) (l : list A) : list (list A) :=
  match n with
  | O => []
  | S n' => firstn w l :: chunks w n' (skipn w l)
  end.

Definition reshape {A : Type} (B : nat) (t : tensor A) : tensor A :=
  let flat := concat t in chunks (length flat / B) B flat.

(** *** [torch.distributions.Categorical] built from logits *)

Definition logsumexp (r : list R) : R := ln (sum_list (map exp r)).

Definition softmax (r : list R) : list R :=
  map (fun x => (exp x / sum_list (map exp r))%R) r.

(** The constructor normalises the logits row by row:
    [logits - logits.logsumexp(dim=-1, keepdim=True)]. *)
Definition normalize (r : list R) : list R :=
  map (fun x => (x - logsumexp r)%R) r.

Record Categorical : Type := mkCategorical { logits : tensor R }.

Definition Categorical_init (lg : tensor R) : Categorical :=
  {| logits := map normalize lg |}.

(** The lazy property [probs] is the softmax of the stored logits. *)
Definition probs (d : Categorical) : tensor R := map softmax (logits d).

(** [log_prob(value)] gathers, in each row, the stored logit at the index
    given for that row; an index outside the row is an error. *)
Fixpoint gather (rows : tensor R) (value : list nat) : option (list R) :=
  match rows, value with
  | [], [] => Some []
  | r :: rs, v :: vs =>
      match nth_error r v, gather rs vs with
      | Some x, Some xs => Some (x :: xs)
      | _, _ => None
      end
  | _, _ => None
  end.

Definition log_prob (d : Categorical) (value : list nat) : option (list R) :=
  gather (logits d) value.

Definition mul_rows (a b : list R) : list R :=
  map (fun ab : R * R => (fst ab * snd ab)%R) (combine a b).

(** [entropy()]: [-(logits * probs).sum(-1)].  The clamp that PyTorch
    applies to the logits first only changes infinite logits, and there are
    none here. *)
Definition entropy (d : Categorical) : list R :=
  map (fun lp : list R * list R => (- sum_list (mul_rows (fst lp) (snd lp)))%R)
      (combine (logits d) (probs d)).

(** [torch.multinomial(p, 1)] on one row, driven by a number [u] drawn
    uniformly from [0, 1): the first index whose cumulative probability
    exceeds [u], the last index when there is none. *)
Fixpoint multinomial (p : list R) (u : R) : nat :=
  match p with
  | [] => O
  | x :: rest =>
      match rest with
      | [] => O
      | _ :: _ => if Rlt_dec u x then O else S (multinomial rest (u - x))
      end
  end.

End Torch.

Import Torch.

(** The constant that replaces a masked-out logit, [-1e8]. *)
Definition sentinel : R := (-100000000)%R.

(** ** [CategoricalMasked], as each file defines it *)

Module Downsize.

(** [self.masks] and the inherited [Categorical]. *)
Record CategoricalMasked : Type := mkCategoricalMasked {
  masks : tensor bool;
  base : Categorical
}.

(** [__init__(self, probs=None, logits=None, validate_args=None, masks=[])] *)
Definition CategoricalMasked_init {A : Type} `{ToBool A}
    (lg : tensor R) (mk : tensor A) : CategoricalMasked :=
  if Nat.eqb (length mk) 0 then
    {| masks := []; base := Categorical_init lg |}
  else
    let bm := as_bool mk in
    {| masks := bm; base := Categorical_init (where_ bm lg sentinel) |}.

Definition entropy (d : CategoricalMasked) : list R :=
  if Nat.eqb (length (masks d)) 0 then
    Torch.entropy (base d)
  else
    let p_log_p :=
      map (fun lp : list R * list R => mul_rows (fst lp) (snd lp))
          (combine (logits (base d)) (probs (base d))) in
    map (fun r => (- sum_list r)%R) (where_ (masks d) p_log_p 0%R).

End Downsize.

Module Maxcho.

(** [__init__(self, *, logits, masks)] *)
Definition CategoricalMasked_init (lg : tensor R) (mk : tensor bool) : Categorical :=
  Categorical_init (where_ mk lg sentinel).

(** [entropy] only calls the inherited method. *)
Definition entropy (d : Categorical) : list R := Torch.entropy d.

End Maxcho.

Module MaxchoV2.

Definition CategoricalMasked_init (lg : tensor R) (mk : tensor bool) : Categorical :=
  Categorical_init (where_ mk lg sentinel).

Definition entropy (d : Categorical) : list R := Torch.entropy d.

End MaxchoV2.

(** ** Effects: random draws, calls to the game client, exceptions *)

(** What happens during a call of [get_action], in the order it happens. *)
Inductive event : Type :=
| GetUnitLocationMasks
| GetUnitActionMasks (units : list nat)
| Construct
| Sample (drawn : list nat).

Inductive exn : Type :=
| RuntimeError (msg : string)
| IndexError
| TypeError
| AttributeError.

(** The two messages of [get_action], and two of PyTorch: [gather_msg]
    stands for the complaint of [log_prob] about an index outside its row,
    [stack_msg] is that of [torch.stack] about an empty list. *)
Definition source_msg : string := "source_mask all False! Invalid action mask!".
Definition param_msg : string := "param_mask all False! Invalid action mask!".
Definition gather_msg : string := "index out of range in self".
Definition stack_msg : string := "stack expects a non-empty TensorList".

(** The random generator is a stream of uniform numbers and a cursor. *)
Record world : Type := mkWorld {
  draws : nat -> R;
  cursor : nat;
  trace : list event
}.

Inductive outcome (A : Type) : Type :=
| Ok (a : A) (w : world)
| Raise (e : exn) (w : world).

Arguments Raise {A} e w.

Definition M (A : Type) : Type := world -> outcome A.

Definition ret {A : Type} (a : A) : M A := fun w => Ok a w.

Definition bind {A B : Type} (m : M A) (k : A -> M B) : M B :=
  fun w => match m w with
           | Ok a w' => k a w'
           | Raise e w' => Raise e w'
           end.

Definition raise {A : Type} (e : exn) : M A := fun w => Raise e w.

Notation "x <- m ;; k" := (bind m (fun x => k))
  (at level 61, m at next level, right associativity).

Definition tell (e : event) : M unit :=
  fun w => Ok tt {| draws := draws w; cursor := cursor w; trace := trace w ++ [e] |}.

Definition lift_option {A : Type} (e : exn) (o : option A) : M A :=
  match o with
  | Some a => ret a
  | None => raise e
  end.

(** [torch.stack] refuses an empty list of tensors. *)
Definition stack (xs : list (list R)) : M (list (list R)) :=
  match xs with
  | [] => raise (RuntimeError stack_msg)
  | _ :: _ => ret xs
  end.

Fixpoint mapM {A B : Type} (f : A -> M B) (l : list A) : M (list B) :=
  match l with
  | [] => ret []
  | a :: t => b <- f a ;; bs <- mapM f t ;; ret (b :: bs)
  end.

(** The world reached by an outcome. *)
Definition final {A : Type} (o : outcome A) : world :=
  match o with
  | Ok _ w => w
  | Raise _ w => w
  end.

(** Building a distribution object is recorded as an event. *)
Definition construct {A : Type} (d : A) : M A := _ <- tell Construct ;; ret d.

(** [sample()] draws one index per row, each from the next uniform number. *)
Fixpoint sample_rows (ps : tensor R) (g : nat -> R) (c : nat) : list nat :=
  match ps with
  | [] => []
  | p :: rest => multinomial p (g c) :: sample_rows rest g (S c)
  end.

Definition sample (d : Categorical) : M (list nat) :=
  fun w =>
    let s := sample_rows (probs d) (draws w) (cursor w) in
    Ok s {| draws := draws w;
            cursor := cursor w + length (probs d);
            trace := trace w ++ [Sample s] |}.

(** The game client [envs.vec_client]: the two mask queries answer with one
    row of integers (0 or 1) per environment. *)
Record VecClient : Type := mkVecClient {
  getUnitLocationMasks : tensor Z;
  getUnitActionMasks : list nat -> tensor Z
}.

(** [envs.action_space.nvec] and [envs.vec_client]. *)
Record Envs : Type := mkEnvs {
  nvec : list nat;
  vec_client : VecClient
}.

Definition call_getUnitLocationMasks (c : VecClient) : M (tensor Z) :=
  _ <- tell GetUnitLocationMasks ;; ret (getUnitLocationMasks c).

Definition call_getUnitActionMasks (c : VecClient) (units : list nat) : M (tensor Z) :=
  _ <- tell (GetUnitActionMasks units) ;; ret (getUnitActionMasks c units).

(** ** [Agent.get_action], as each file defines it *)

Module DownsizeAgent.

(** [self.args.num_envs] and the composition [self.actor(self.forward(x))];
    an observation batch is a list of observations of some type [X]. *)
Record Agent (X : Type) : Type := mkAgent {
  num_envs : nat;
  network : list X -> tensor R
}.

Definition get_action {X : Type} (self : Agent X) (x : list X)
    (action : option (tensor nat)) (invalid_action_masks : option (tensor Z))
    (envs : Envs)
  : M (tensor nat * list R * list R * tensor Z) :=
  let logits := network self x in
  let split_logits := split logits (nvec envs) in
  r <- match action with
       | None =>
           m <- call_getUnitLocationMasks (vec_client envs) ;;
           let source_unit_mask := reshape (num_envs self) m in
           l0 <- lift_option IndexError (nth_error split_logits 0) ;;
           c0 <- construct (Downsize.CategoricalMasked_init l0 source_unit_mask) ;;
           a0 <- sample (Downsize.base c0) ;;
           am <- call_getUnitActionMasks (vec_client envs) a0 ;;
           let source_unit_action_mask := reshape (num_envs self) am in
           let split_suam := split source_unit_action_mask (tl (nvec envs)) in
           cs <- mapM (fun li : tensor R * tensor Z =>
                         construct (Downsize.CategoricalMasked_init (fst li) (snd li)))
                      (combine (tl split_logits) split_suam) ;;
           let multi_categoricals := c0 :: cs in
           let iam := cat source_unit_mask source_unit_action_mask in
           rest <- mapM (fun c => sample (Downsize.base c)) (tl multi_categoricals) ;;
           ret (a0 :: rest, multi_categoricals, iam)
       | Some act =>
           iam <- lift_option TypeError invalid_action_masks ;;
           let split_invalid_action_masks := split iam (nvec envs) in
           cs <- mapM (fun li : tensor R * tensor Z =>
                         construct (Downsize.CategoricalMasked_init (fst li) (snd li)))
                      (combine split_logits split_invalid_action_masks) ;;
           ret (act, cs, iam)
       end ;;
  let '(act, multi_categoricals, iam) := r in
  lps <- mapM (fun ac : list nat * Downsize.CategoricalMasked =>
                 lift_option (RuntimeError gather_msg)
                             (log_prob (Downsize.base (snd ac)) (fst ac)))
              (combine act multi_categoricals) ;;
  logprob <- stack lps ;;
  entropy <- stack (map Downsize.entropy multi_categoricals) ;;
  ret (act, sum0 logprob, sum0 entropy, iam).

End DownsizeAgent.

Module MaxchoAgent.

(** [self.envs] and the composition [self.actor(self.forward(obs))]. *)
Record Agent (X : Type) : Type := mkAgent {
  envs : Envs;
  network : list X -> tensor R
}.

Definition _get_source_mask {X : Type} (self : Agent X) (batch : nat) : M (tensor bool) :=
  m <- call_getUnitLocationMasks (vec_client (envs self)) ;;
  ret (reshape batch (as_bool m)).

Definition _get_action_mask {X : Type} (self : Agent X) (chosen_units : list nat)
  : M (tensor bool) :=
  m <- call_getUnitActionMasks (vec_client (envs self)) chosen_units ;;
  ret (reshape (length chosen_units) (as_bool m)).

Definition get_action {X : Type} (self : Agent X) (obs : list X)
    (action : option (tensor nat)) (invalid_action_masks : option (tensor bool))
  : M (tensor nat * list R * list R * tensor bool) :=
  let B := length obs in
  let logits := network self obs in
  let splits := nvec (envs self) in
  let split_logits := split logits splits in
  r <- match action with
       | None =>
           source_mask <- _get_source_mask self B ;;
           if Nat.eqb (count_true source_mask) 0 then
             raise (RuntimeError "source_mask all False! Invalid action mask!")
           else
             l0 <- lift_option IndexError (nth_error split_logits 0) ;;
             src_cat <- construct (Maxcho.CategoricalMasked_init l0 source_mask) ;;
             src_act <- sample src_cat ;;
             param_mask <- _get_action_mask self src_act ;;
             if Nat.eqb (count_true param_mask) 0 then
               raise (RuntimeError "param_mask all False! Invalid action mask!")
             else
               let split_param_masks := split param_mask (tl splits) in
               rest <- mapM (fun lm : tensor R * tensor bool =>
                               c <- construct (Maxcho.CategoricalMasked_init (fst lm) (snd lm)) ;;
                               sample c)
                            (combine (tl split_logits) split_param_masks) ;;
               ret (src_act :: rest, cat source_mask param_mask)
       | Some act =>
           iam <- lift_option AttributeError invalid_action_masks ;;
           ret (act, iam)
       end ;;
  let '(act, iam) := r in
  cats <- mapM (fun lm : tensor R * tensor bool =>
                  construct (Maxcho.CategoricalMasked_init (fst lm) (as_bool (snd lm))))
               (combine split_logits (split iam splits)) ;;
  lps <- mapM (fun ca : Categorical * list nat =>
                 lift_option (RuntimeError gather_msg) (log_prob (fst ca) (snd ca)))
              (combine cats act) ;;
  logprob <- stack lps ;;
  entropy <- stack (map Maxcho.entropy cats) ;;
  ret (act, sum0 logprob, sum0 entropy, iam).

End MaxchoAgent.

Module MaxchoV2Agent.

Record Agent (X : Type) : Type := mkAgent {
  envs : Envs;
  network : list X -> tensor R
}.

Definition _get_source_mask {X : Type} (self : Agent X) (batch : nat) : M (tensor bool) :=
  m <- call_getUnitLocationMasks (vec_client (envs self)) ;;
  ret (reshape batch (as_bool m)).

Definition _get_action_mask {X : Type} (self : Agent X) (chosen_units : list nat)
  : M (tensor bool) :=
  m <- call_getUnitActionMasks (vec_client (envs self)) chosen_units ;;
  ret (reshape (length chosen_units) (as_bool m)).

Definition get_action {X : Type} (self : Agent X) (obs : list X)
    (action : option (tensor nat)) (invalid_action_masks : option (tensor bool))
  : M (tensor nat * list R * list R * tensor bool) :=
  let B := length obs in
  let logits := network self obs in
  let splits := nvec (envs self) in
  let split_logits := split logits splits in
  r <- match action with
       | None =>
           source_mask <- _get_source_mask self B ;;
           if Nat.eqb (count_true source_mask) 0 then
             raise (RuntimeError "source_mask all False! Invalid action mask!")
           else
             l0 <- lift_option IndexError (nth_error split_logits 0) ;;
             src_cat <- construct (MaxchoV2.CategoricalMasked_init l0 source_mask) ;;
             src_act <- sample src_cat ;;
             param_mask <- _get_action_mask self src_act ;;
             if Nat.eqb (count_true param_mask) 0 then
               raise (RuntimeError "param_mask all False! Invalid action mask!")
             else
               let split_param_masks := split param_mask (tl splits) in
               rest <- mapM (fun lm : tensor R * tensor bool =>
                               c <- construct (MaxchoV2.CategoricalMasked_init (fst lm) (snd lm)) ;;
                               sample c)
                            (combine (tl split_logits) split_param_masks) ;;
               ret (src_act :: rest, cat source_mask param_mask)
       | Some act =>
           iam <- lift_option AttributeError invalid_action_masks ;;
           ret (act, iam)
       end ;;
  let '(act, iam) := r in
  cats <- mapM (fun lm : tensor R * tensor bool =>
                  construct (MaxchoV2.CategoricalMasked_init (fst lm) (as_bool (snd lm))))
               (combine split_logits (split iam splits)) ;;
  lps <- mapM (fun ca : Categorical * list nat =>
                 lift_option (RuntimeError gather_msg) (log_prob (fst ca) (snd ca)))
              (combine cats act) ;;
  logprob <- stack lps ;;
  entropy <- stack (map MaxchoV2.entropy cats) ;;
  ret (act, sum0 logprob, sum0 entropy, iam).

End MaxchoV2Agent.

(** ** Vocabulary of the statements *)

(** The entry of a matrix in row [b], column [i]. *)
Definition at2 {A : Type} (t : tensor A) (b i : nat) : option A :=
  match nth_error t b with
  | Some r => nth_error r i
  | None => None
  end.

(** The Shannon entropy summed only over the masked-in indices of a row of
    probabilities, in the words of the specification (section 4.1). *)
Definition masked_shannon_entropy (m : list bool) (p : list R) : R :=
  (- sum_list (where_row m (map (fun x => x * ln x) p) 0))%R.



(** The events that are calls to the game client. *)
Definition is_query (e : event) : bool :=
  match e with
  | GetUnitLocationMasks | GetUnitActionMasks _ => true
  | Construct | Sample _ => false
  end.

(** A list of events without a call to the game client. *)
Definition no_query (evs : list event) : Prop :=
  forallb (fun e => negb (is_query e)) evs = true.

(** A computation that never calls the game client. *)
Definition quiet {A : Type} (m : M A) : Prop :=
  forall w, exists evs, trace (final (m w)) = trace w ++ evs /\ no_query evs.

(** All rows have width [n]. *)
Definition width {A : Type} (n : nat) (t : tensor A) : Prop :=
  Forall (fun r => length r = n) t.

(** The indices [s], one per row, each inside its row of [d]. *)
Definition valid_choice (d : Categorical) (s : list nat) : Prop :=
  Forall2 (fun r i => i < length r) (logits d) s.

(** The log-probabilities of a list of choices, each under its own
    distribution; there is none when some index is outside its row. *)
Fixpoint log_probs (cas : list (Categorical * list nat)) : option (list (list R)) :=
  match cas with
  | [] => Some []
  | ca :: t =>
      match log_prob (fst ca) (snd ca), log_probs t with
      | Some x, Some xs => Some (x :: xs)
      | _, _ => None
      end
  end.

(** The choices drawn from a list of distributions one after the other,
    the first one starting at position [c] of the stream [g]. *)
Fixpoint sample_all (ds : list Categorical) (g : nat -> R) (c : nat)
  : list (list nat) :=
  match ds with
  | [] => []
  | d :: t => sample_rows (probs d) g c :: sample_all t g (c + length (probs d))
  end.

(** The number of uniform numbers these draws consume. *)
Definition rows_total (ds : list Categorical) : nat :=
  fold_right (fun d n => length (probs d) + n) 0 ds.

(** The world after [n] more draws and the events [evs]. *)
Definition advance (w : world) (n : nat) (evs : list event) : world :=
  {| draws := draws w; cursor := cursor w + n; trace := trace w ++ evs |}.

(** A game with two environments and [nvec = [2; 2]].  In the first
    environment no source location is legal. *)
Definition example_client : VecClient :=
  {| getUnitLocationMasks := [[0; 0]; [1; 0]]%Z;
     getUnitActionMasks := fun _ => [[1; 1]; [0; 1]]%Z |}.

Definition example_envs : Envs :=
  {| nvec := [2; 2]; vec_client := example_client |}.

Definition example_network (obs : list unit) : tensor R :=
  map (fun _ => [0; 0; 0; 0]%R) obs.

Definition example_downsize : DownsizeAgent.Agent unit :=
  {| DownsizeAgent.num_envs := 2; DownsizeAgent.network := example_network |}.

Definition example_maxcho : MaxchoAgent.Agent unit :=
  {| MaxchoAgent.envs := example_envs; MaxchoAgent.network := example_network |}.

Definition example_world : world :=
  {| draws := fun _ => (1 / 2)%R; cursor := 0; trace := [] |}.

(** The agent of [ppo_maxcho_v2.py] seen as one of [ppo_diverse_maxcho.py]. *)
Definition as_maxcho {X : Type} (a : MaxchoV2Agent.Agent X) : MaxchoAgent.Agent X :=
  {| MaxchoAgent.envs := MaxchoV2Agent.envs a;
     MaxchoAgent.network := MaxchoV2Agent.network a |}.

(** ** Single precision

    The tensors of the action head are float32.  The finite numbers of
    that format are the [m * 2^e] with a mantissa of 24 bits and an
    exponent from -149 to 104; the largest is [(2 - 2^-23) * 2^127]. *)
Definition float32 (x : R) : Prop :=
  exists m e : Z,
    (Z.abs m < 2 ^ 24)%Z /\ (-149 <= e <= 104)%Z /\ x = (IZR m * powerRZ 2 e)%R.

Definition float32_max : R := ((2 - / 2 ^ 23) * 2 ^ 127)%R.

(** A row of logits of ordinary size under a mask of its length: some
    index is masked in, and every masked-in logit is at most 16 in
    magnitude, far away from the constant [-1e8].  On such rows the
    float32 evaluation of the normalisation differs from the exact one by
    rounding only; near the constant it does not, because the spacing of
    float32 around [1e8] is 8. *)
Definition ordinary (m : list bool) (l : list R) : Prop :=
  length m = length l /\
  In true m /\
  forall i x, nth_error m i = Some true -> nth_error l i = Some x ->
              (Rabs x <= 16)%R.

(** The normalisation of a row as PyTorch evaluates it in float32:
    [logsumexp] subtracts the largest entry before it exponentiates,
    [(x - amax).exp().sum().log() + amax]. *)
Module Float32.

(** A float32 implementation [g] of the real function [f]: two float32
    numbers that enclose the exact result enclose the computed one.  A
    correctly rounded operation has this property in every rounding mode,
    and so has a faithful library function. *)
Definition encloses1 (f g : R -> R) : Prop :=
  forall a b x, float32 a -> float32 b ->
                (a <= f x <= b)%R -> (a <= g x <= b)%R.

Definition encloses2 (f g : R -> R -> R) : Prop :=
  forall a b x y, float32 a -> float32 b ->
                  (a <= f x y <= b)%R -> (a <= g x y <= b)%R.

(** The four float32 operations of the normalisation. *)
Record ops : Type := mkOps {
  add : R -> R -> R;
  sub : R -> R -> R;
  exp_ : R -> R;
  log : R -> R
}.

Definition faithful (o : ops) : Prop :=
  encloses2 Rplus (add o) /\ encloses2 Rminus (sub o) /\
  encloses1 exp (exp_ o) /\ encloses1 ln (log o).

(** Exact arithmetic is one such implementation. *)
Definition exact : ops := {| add := Rplus; sub := Rminus; exp_ := exp; log := ln |}.

(** [t.amax(-1)]: the largest entry of a row. *)
Fixpoint amax (r : list R) : R :=
  match r with
  | [] => 0%R
  | x :: rest =>
      match rest with
      | [] => x
      | _ :: _ => Rmax x (amax rest)
      end
  end.

(** [t.sum(-1)] in float32: the entries are added in their order, but the
    grouping of the additions is left to the kernel. *)
Inductive summed (o : ops) : list R -> R -> Prop :=
| summed_one (x : R) : summed o [x] x
| summed_app (l1 l2 : list R) (s1 s2 : R) :
    summed o l1 s1 -> summed o l2 s2 -> summed o (l1 ++ l2) (add o s1 s2).

(** [(x - amax).exp()] *)
Definition shifted_exp (o : ops) (r : list R) : list R :=
  map (fun x => exp_ o (sub o x (amax r))) r.

(** [logsumexp], given the sum [s] of the shifted exponentials. *)
Definition logsumexp (o : ops) (r : list R) (s : R) : R :=
  add o (log o s) (amax r).

(** [logits - logits.logsumexp(dim=-1, keepdim=True)] *)
Definition normalize (o : ops) (r : list R) (s : R) : list R :=
  map (fun x => sub o x (logsumexp o r s)) r.

End Float32.

(** ** The helpers [MicrortsUtils] of [ppo_diverse_maxcho.py] and
    [ppo_maxcho_v2.py]

    Python integers are unbounded: they are [Z], and [%] and [//] are the
    flooring [Z.modulo] and [Z.div]. *)

Module MicrortsUtils.

Inductive error : Type :=
| ZeroDivisionError
| KeyError (key : Z).

(** [index_to_coord(idx, map_size=16)]; an absent argument takes its
    default. *)
Definition index_to_coord (idx : Z) (map_size : option Z) : error + (Z * Z) :=
  let map_size := match map_size with Some s => s | None => 16%Z end in
  if Z.eqb map_size 0 then inl ZeroDivisionError
  else inr ((idx mod map_size)%Z, (idx / map_size)%Z).

(** The dictionary [directions]. *)
Definition directions : list (Z * (Z * Z)) :=
  [(0, (0, -1)); (1, (1, 0)); (2, (0, 1)); (3, (-1, 0))]%Z.

(** [d[k]] in a dictionary written as the list of its items. *)
Fixpoint lookup {V : Type} (d : list (Z * V)) (k : Z) : option V :=
  match d with
  | [] => None
  | (k', v) :: rest => if Z.eqb k k' then Some v else lookup rest k
  end.

(** [predict_destination(pos, action, move_actions=[0, 1, 2, 3])] *)
Definition predict_destination (pos : Z * Z) (action : Z)
    (move_actions : option (list Z)) : error + (Z * Z) :=
  let move_actions :=
    match move_actions with Some l => l | None => [0; 1; 2; 3]%Z end in
  if existsb (Z.eqb action) move_actions then
    match lookup directions action with
    | Some (dx, dy) => inr ((fst pos + dx)%Z, (snd pos + dy)%Z)
    | None => inl (KeyError action)
    end
  else inr pos.

End MicrortsUtils.

(** ** The shapes that flow through the networks

    Only the sizes of the tensors are followed, not their values; the batch
    dimension is left out.  The sizes of the layers are those of the
    PyTorch documentation. *)

Module Net.

(** The shape of one sample: an image [channels x height x width], or a
    vector of features. *)
Inductive shape : Type :=
| Img (c h w : Z)
| Vec (n : Z).

Inductive error : Type :=
| ShapeError
| AssertionError.

(** The size of an axis after a window of size [k], stride [s] and padding
    [p] (dilation 1, floor mode). *)
Definition out_size (h k s p : Z) : Z := ((h + 2 * p - k) / s + 1)%Z.

(** [nn.Conv2d(in_c, out_c, kernel_size=k, padding=p)], stride 1. *)
Definition conv2d (in_c out_c k p : Z) (x : shape) : error + shape :=
  match x with
  | Img c h w =>
      if (Z.eqb c in_c && Z.leb k (h + 2 * p) && Z.leb k (w + 2 * p))%bool
      then inr (Img out_c (out_size h k 1 p) (out_size w k 1 p))
      else inl ShapeError
  | Vec _ => inl ShapeError
  end.

(** [max_pool2d(x, kernel_size=k, stride=s, padding=p)]; the output must
    not be empty. *)
Definition max_pool2d (k s p : Z) (x : shape) : error + shape :=
  match x with
  | Img c h w =>
      if (Z.leb 1 (out_size h k s p) && Z.leb 1 (out_size w k s p))%bool
      then inr (Img c (out_size h k s p) (out_size w k s p))
      else inl ShapeError
  | Vec _ => inl ShapeError
  end.

(** [nn.Flatten()] *)
Definition flatten (x : shape) : error + shape :=
  match x with
  | Img c h w => inr (Vec (c * h * w))
  | Vec n => inr (Vec n)
  end.

(** [nn.Linear(in_f, out_f)] acts on the last axis. *)
Definition linear (in_f out_f : Z) (x : shape) : error + shape :=
  match x with
  | Vec n => if Z.eqb n in_f then inr (Vec out_f) else inl ShapeError
  | Img c h w => if Z.eqb w in_f then inr (Img c h out_f) else inl ShapeError
  end.

Definition and_then {A B : Type} (r : error + A) (k : A -> error + B) : error + B :=
  match r with
  | inl e => inl e
  | inr a => k a
  end.

(** [ResidualBlock(channels).forward]: two convolutions that keep the
    shape, and the sum with the input. *)
Definition ResidualBlock_forward (channels : Z) (x : shape) : error + shape :=
  and_then (conv2d channels channels 3 1 x) (fun y =>
  and_then (conv2d channels channels 3 1 y) (fun z =>
  match x, z with
  | Img c h w, Img c' h' w' =>
      if (Z.eqb c c' && Z.eqb h h' && Z.eqb w w')%bool then inr z else inl ShapeError
  | _, _ => inl ShapeError
  end)).

(** [ConvSequence] of [ppo_diverse_maxcho.py] and [ppo_maxcho_v2.py]. *)
Record ConvSequence : Type := mkConvSequence {
  _input_shape : Z * Z * Z;
  _out_channels : Z
}.

Definition get_output_shape (self : ConvSequence) : Z * Z * Z :=
  let '(_c, h, w) := _input_shape self in
  (_out_channels self, ((h + 1) / 2)%Z, ((w + 1) / 2)%Z).

Definition ConvSequence_forward (self : ConvSequence) (x : shape) : error + shape :=
  and_then (conv2d (fst (fst (_input_shape self))) (_out_channels self) 3 1 x) (fun x =>
  and_then (max_pool2d 3 2 1 x) (fun x =>
  and_then (ResidualBlock_forward (_out_channels self) x) (fun x =>
  and_then (ResidualBlock_forward (_out_channels self) x) (fun x =>
  match x, get_output_shape self with
  | Img c h w, (c', h', w') =>
      if (Z.eqb c c' && Z.eqb h h' && Z.eqb w w')%bool then inr x
      else inl AssertionError
  | Vec _, _ => inl AssertionError
  end)))).

(** [Agent.__init__] of [ppo_diverse_maxcho.py] and [ppo_maxcho_v2.py]:
    the three [ConvSequence]s and the input size of the [nn.Linear] that
    follows [nn.Flatten].  [observation_space.shape] is
    [(height, width, channels)]. *)
Record MaxchoNetwork : Type := mkMaxchoNetwork {
  convs : list ConvSequence;
  in_features : Z
}.

Fixpoint build_convs (shape : Z * Z * Z) (ocs : list Z)
  : list ConvSequence * (Z * Z * Z) :=
  match ocs with
  | [] => ([], shape)
  | oc :: rest =>
      let seq := mkConvSequence shape oc in
      let '(seqs, final_shape) := build_convs (get_output_shape seq) rest in
      (seq :: seqs, final_shape)
  end.

Definition MaxchoNetwork_init (observation_shape : Z * Z * Z) : MaxchoNetwork :=
  let '(s0, s1, s2) := observation_shape in
  (* c, h, w = envs.observation_space.shape[::-1] *)
  let '(c, h, w) := (s2, s1, s0) in
  let '(seqs, shape) := build_convs (c, h, w) [16; 32; 32]%Z in
  {| convs := seqs;
     in_features := (fst (fst shape) * snd (fst shape) * snd shape)%Z |}.

Fixpoint run_convs (seqs : list ConvSequence) (x : shape) : error + shape :=
  match seqs with
  | [] => inr x
  | seq :: rest => and_then (ConvSequence_forward seq x) (run_convs rest)
  end.

(** [Agent.forward]: the observation [height x width x channels] is
    permuted to [channels x height x width] and goes through the network. *)
Definition MaxchoNetwork_forward (self : MaxchoNetwork) (observation_shape : Z * Z * Z)
  : error + shape :=
  let '(hh, ww, cc) := observation_shape in
  and_then (run_convs (convs self) (Img cc hh ww)) (fun x =>
  and_then (flatten x) (fun x =>
  linear (in_features self) 256 x)).

(** [Agent.forward] of [ppo_diverse_downsize.py], whose network is built
    from [h, w, c = envs.observation_space.shape]. *)
Definition DownsizeNetwork_forward (observation_shape : Z * Z * Z) : error + shape :=
  let '(h, w, c) := observation_shape in
  and_then (conv2d c 16 3 1 (Img c h w)) (fun x =>
  and_then (max_pool2d 2 2 0 x) (fun x =>
  and_then (conv2d 16 32 3 1 x) (fun x =>
  and_then (max_pool2d 2 2 0 x) (fun x =>
  and_then (flatten x) (fun x =>
  linear (32 * ((h / 4) * (w / 4))) 128 x))))).

End Net.

(** ** The arithmetic of the training loop

    The blocks of [train] ([ppo_diverse_downsize.py]) and of [main]
    ([ppo_diverse_maxcho.py], [ppo_maxcho_v2.py]) that compute with the
    collected rollout.  The storage tensors [rewards], [values] and
    [dones] have one row per step and one column per environment. *)

Module Train.

Inductive error : Type :=
| ValueError
| ZeroDivisionError.

(** *** Rows, with a number broadcast over a row *)

(** [s * r] *)
Definition scale (s : R) (r : list R) : list R := map (Rmult s) r.

(** [s - r] *)
Definition number_minus (s : R) (r : list R) : list R :=
  map (fun x => (s - x)%R) r.

Definition sub_rows (a b : list R) : list R :=
  map (fun ab : R * R => (fst ab - snd ab)%R) (combine a b).

(** [lastgaelam] is the number 0 before the loop and a row afterwards. *)
Inductive number_or_row : Type :=
| Number (x : R)
| Row (r : list R).

(** [a * b] for a row [a]. *)
Definition mul_any (a : list R) (b : number_or_row) : list R :=
  match b with
  | Number x => map (fun y => (y * x)%R) a
  | Row r => mul_rows a r
  end.

(** [t[i]] and [t[i] = r]; the loops below only use indices of the
    storage, outside of which the model reads an empty row and writes
    nothing. *)
Definition getitem (t : tensor R) (i : nat) : list R := nth i t [].

Definition setitem (t : tensor R) (i : nat) (r : list R) : tensor R :=
  firstn i t ++ match skipn i t with
                | [] => []
                | _ :: rest => r :: rest
                end.

Definition zeros_like (t : tensor R) : tensor R :=
  map (map (fun _ : R => 0%R)) t.

(** [a + b] and [a - b] on the storage tensors. *)
Definition add_tensors (a b : tensor R) : tensor R :=
  map (fun ab : list R * list R => add_rows (fst ab) (snd ab)) (combine a b).

Definition sub_tensors (a b : tensor R) : tensor R :=
  map (fun ab : list R * list R => sub_rows (fst ab) (snd ab)) (combine a b).

(** [reversed(range(n))] *)
Definition reversed_range (n : nat) : list nat := rev (seq 0 n).

(** *** Advantages and returns *)

Section Advantages.

Variables (gamma gae_lambda : R) (num_steps : nat).
Variables (rewards values dones : tensor R) (next_done last_value : list R).

Definition nextnonterminal (t : nat) : list R :=
  if Nat.eqb t (num_steps - 1) then number_minus 1 next_done
  else number_minus 1 (getitem dones (t + 1)).

(** [delta = rewards[t] + args.gamma * nextvalues * nextnonterminal - values[t]] *)
Definition delta (t : nat) : list R :=
  let nextvalues :=
    if Nat.eqb t (num_steps - 1) then last_value else getitem values (t + 1) in
  sub_rows (add_rows (getitem rewards t)
                     (mul_rows (scale gamma nextvalues) (nextnonterminal t)))
           (getitem values t).

(** [delta + args.gamma * args.gae_lambda * nextnonterminal * lastgaelam] *)
Definition new_lastgaelam (t : nat) (lastgaelam : number_or_row) : list R :=
  add_rows (delta t)
           (mul_any (scale (gamma * gae_lambda) (nextnonterminal t)) lastgaelam).

(** The body of the loop of the branch [if args.gae:]. *)
Definition gae_body (st : tensor R * number_or_row) (t : nat)
  : tensor R * number_or_row :=
  let '(advantages, lastgaelam) := st in
  let lastgaelam := new_lastgaelam t lastgaelam in
  (setitem advantages t lastgaelam, Row lastgaelam).

Definition gae_advantages : tensor R :=
  fst (fold_left gae_body (reversed_range num_steps) (zeros_like rewards, Number 0)).

Definition gae_returns : tensor R := add_tensors gae_advantages values.

(** [rewards[t] + args.gamma * nextnonterminal * next_return] *)
Definition new_return (t : nat) (returns : tensor R) : list R :=
  let next_return :=
    if Nat.eqb t (num_steps - 1) then last_value else getitem returns (t + 1) in
  add_rows (getitem rewards t)
           (mul_rows (scale gamma (nextnonterminal t)) next_return).

(** The body of the loop of the branch [else:]. *)
Definition returns_body (returns : tensor R) (t : nat) : tensor R :=
  setitem returns t (new_return t returns).

Definition plain_returns : tensor R :=
  fold_left returns_body (reversed_range num_steps) (zeros_like rewards).

Definition plain_advantages : tensor R := sub_tensors plain_returns values.

End Advantages.

(** *** The learning-rate schedule *)

(** [range(start, stop)] *)
Definition range (start stop : Z) : list Z :=
  map (fun k : nat => (start + Z.of_nat k)%Z) (seq 0 (Z.to_nat (stop - start))).

(** [num_updates = args.total_timesteps // args.batch_size] *)
Definition num_updates (total_timesteps batch_size : Z) : error + Z :=
  if Z.eqb batch_size 0 then inl ZeroDivisionError
  else inr (total_timesteps / batch_size)%Z.

(** [frac = 1.0 - (update - 1.0) / num_updates; lrnow = lr(frac)] with
    [lr = lambda f: f * args.learning_rate]. *)
Definition lrnow (learning_rate : R) (num_updates update : Z) : error + R :=
  if Z.eqb num_updates 0 then inl ZeroDivisionError
  else inr ((1 - (IZR update - 1) / IZR num_updates) * learning_rate)%R.

(** The learning rates of the updates
    [for update in range(starting_update, num_updates + 1)], in order. *)
Definition learning_rates (learning_rate : R) (starting_update num_updates : Z)
  : list (error + R) :=
  map (lrnow learning_rate num_updates) (range starting_update (num_updates + 1)).

(** *** Minibatches *)

(** [range(start, stop, step)] *)
Definition range_step (start stop step : Z) : error + list Z :=
  if Z.eqb step 0 then inl ValueError
  else
    let n := if Z.ltb 0 step then ((stop - start + step - 1) / step)%Z
             else ((start - stop - step - 1) / (- step))%Z in
    inr (map (fun k : nat => (start + Z.of_nat k * step)%Z) (seq 0 (Z.to_nat n))).

(** A bound of a slice, as Python normalises it: a negative bound counts
    from the end, and every bound is cut to the length. *)
Definition slice_bound (len i : Z) : Z :=
  if Z.ltb i 0 then Z.max 0 (i + len) else Z.min i len.

(** [l[start:stop]] *)
Definition slice {A : Type} (l : list A) (start stop : Z) : list A :=
  let len := Z.of_nat (length l) in
  let lo := slice_bound len start in
  let hi := slice_bound len stop in
  firstn (Z.to_nat (hi - lo)) (skipn (Z.to_nat lo) l).

(** [args.batch_size] and [args.minibatch_size] of [parse_args]. *)
Definition batch_size (num_envs num_steps : Z) : Z := (num_envs * num_steps)%Z.

Definition minibatch_size (batch_size n_minibatch : Z) : error + Z :=
  if Z.eqb n_minibatch 0 then inl ZeroDivisionError
  else inr (batch_size / n_minibatch)%Z.

(** The index sets [minibatch_ind] of one epoch:
    [for start in range(0, batch_size, minibatch_size):
       end = start + minibatch_size; minibatch_ind = inds[start:end]]. *)
Definition minibatches {A : Type} (inds : list A) (batch_size minibatch_size : Z)
  : error + list (list A) :=
  match range_step 0 batch_size minibatch_size with
  | inl e => inl e
  | inr starts =>
      inr (map (fun start => slice inds start (start + minibatch_size)%Z) starts)
  end.

(** *** The losses of one minibatch *)

(** [t.mean()]; of an empty tensor PyTorch gives nan, which the model does
    not have: the theorems are about non-empty minibatches. *)
Definition mean (r : list R) : R := (sum_list r / INR (length r))%R.

(** [t.std()], with Bessel's correction; it is nan below two elements. *)
Definition std (r : list R) : R :=
  sqrt (sum_list (map (fun x => ((x - mean r) * (x - mean r))%R) r)
        / (INR (length r) - 1)).

(** [torch.clamp(x, lo, hi)] *)
Definition clamp (x lo hi : R) : R := Rmin (Rmax x lo) hi.

(** [torch.max(a, b)] *)
Definition max_rows (a b : list R) : list R :=
  map (fun ab : R * R => Rmax (fst ab) (snd ab)) (combine a b).

Definition epsilon : R := (1 / 100000000)%R.

(** [(mb_advantages - mb_advantages.mean()) / (mb_advantages.std() + 1e-8)] *)
Definition normalize_advantages (mb_advantages : list R) : list R :=
  map (fun x => ((x - mean mb_advantages) / (std mb_advantages + epsilon))%R)
      mb_advantages.

(** [ratio = (newlogproba - b_logprobs[minibatch_ind]).exp()] *)
Definition ratio (newlogproba old_logprobs : list R) : list R :=
  map exp (sub_rows newlogproba old_logprobs).

(** [approx_kl = (b_logprobs[minibatch_ind] - newlogproba).mean()] *)
Definition approx_kl (newlogproba old_logprobs : list R) : R :=
  mean (sub_rows old_logprobs newlogproba).

Definition pg_loss1 (mb_advantages newlogproba old_logprobs : list R) : list R :=
  mul_rows (map Ropp mb_advantages) (ratio newlogproba old_logprobs).

Definition pg_loss2 (clip_coef : R) (mb_advantages newlogproba old_logprobs : list R)
  : list R :=
  mul_rows (map Ropp mb_advantages)
           (map (fun r => clamp r (1 - clip_coef) (1 + clip_coef))
                (ratio newlogproba old_logprobs)).

(** [pg_loss = torch.max(pg_loss1, pg_loss2).mean()] *)
Definition pg_loss (clip_coef : R) (mb_advantages newlogproba old_logprobs : list R) : R :=
  mean (max_rows (pg_loss1 mb_advantages newlogproba old_logprobs)
                 (pg_loss2 clip_coef mb_advantages newlogproba old_logprobs)).

(** The value loss of the branch [if args.clip_vloss:]. *)
Definition v_loss_unclipped (new_values returns : list R) : list R :=
  map (fun d => (d * d)%R) (sub_rows new_values returns).

Definition v_clipped (clip_coef : R) (new_values old_values : list R) : list R :=
  add_rows old_values
           (map (fun d => clamp d (- clip_coef) clip_coef)
                (sub_rows new_values old_values)).

Definition v_loss (clip_coef : R) (new_values old_values returns : list R) : R :=
  (0.5 * mean (max_rows (v_loss_unclipped new_values returns)
                        (map (fun d => (d * d)%R)
                             (sub_rows (v_clipped clip_coef new_values old_values)
                                       returns))))%R.

(** *** Early stopping ([ppo_diverse_maxcho.py], [ppo_maxcho_v2.py]) *)

Definition early_stop_K : nat := 10.
Definition early_stop_max_var : R := 0.05%R.

(** [np.mean] and [np.std] (without Bessel's correction). *)
Definition np_mean (l : list R) : R := (sum_list l / INR (length l))%R.

Definition np_std (l : list R) : R :=
  sqrt (np_mean (map (fun x => ((x - np_mean l) * (x - np_mean l))%R) l)).

(** [recent_rewards.append(avg_reward)], then [recent_rewards.pop(0)] when
    the list has become longer than [early_stop_K]. *)
Definition window_update (recent_rewards : list R) (avg_reward : R) : list R :=
  let r := recent_rewards ++ [avg_reward] in
  if Nat.ltb early_stop_K (length r) then tl r else r.

(** The test that breaks out of the training loop.  A division of floats
    by zero gives an infinity or nan, which are not below the threshold. *)
Definition early_stop (recent_rewards : list R) : bool :=
  if Nat.eqb (length recent_rewards) early_stop_K then
    let mean_r := np_mean recent_rewards in
    let std_r := np_std recent_rewards in
    if Req_dec_T (mean_r + epsilon) 0 then false
    else if Rlt_dec (std_r / (mean_r + epsilon)) early_stop_max_var then true
    else false
  else false.

(** The number of updates that the loop runs when the averages of the
    successive updates are [avgs]: it stops at the first update whose
    test succeeds, or at the end. *)
Fixpoint updates_run (avgs : list R) (recent_rewards : list R) : nat :=
  match avgs with
  | [] => O
  | avg :: rest =>
      let recent_rewards := window_update recent_rewards avg in
      if early_stop recent_rewards then 1%nat
      else S (updates_run rest recent_rewards)
  end.

End Train.

(** ** The environment wrappers

    A wrapper receives the tuple that the wrapped environment returns
    from [step_wait] and returns a tuple of its own.  Python does not look
    at the components it only passes on: they are type parameters here. *)

Module Wrappers.

Inductive error : Type :=
| TypeError
| IndexError.

(** [l[i] = v] for an index of the list. *)
Fixpoint list_set {A : Type} (l : list A) (i : nat) (v : A) : list A :=
  match l, i with
  | [], _ => []
  | _ :: rest, O => v :: rest
  | x :: rest, S i' => x :: list_set rest i' v
  end.

Definition and_then {A B : Type} (r : error + A) (k : A -> error + B) : error + B :=
  match r with
  | inl e => inl e
  | inr a => k a
  end.

Fixpoint mapE {A B : Type} (f : A -> error + B) (l : list A) : error + list B :=
  match l with
  | [] => inr []
  | x :: rest =>
      and_then (f x) (fun y => and_then (mapE f rest) (fun ys => inr (y :: ys)))
  end.

(** *** [VecMonitor] *)

Section Monitor.

(** The values that the environment itself puts into an info dictionary. *)
Variable X : Type.

(** A value of an info dictionary: one of the environment, or the
    dictionary [{"r": ret, "l": eplen, "t": ...}]. *)
Inductive value : Type :=
| Env (x : X)
| Episode (r : R) (l : Z) (t : R).

(** A dictionary with string keys, as the list of its items. *)
Definition info : Type := list (string * value).

(** [d[k] = v] *)
Fixpoint dict_set (d : info) (k : string) (v : value) : info :=
  match d with
  | [] => [(k, v)]
  | (k', v') :: rest =>
      if String.eqb k k' then (k', v) :: rest else (k', v') :: dict_set rest k v
  end.

(** [d[k]] *)
Fixpoint dict_get (d : info) (k : string) : option value :=
  match d with
  | [] => None
  | (k', v') :: rest => if String.eqb k k' then Some v' else dict_get rest k
  end.

(** [eplens] is an array of 32-bit signed integers ([np.zeros(n, "i")]):
    its additions wrap around. *)
Definition int32 (z : Z) : Z := ((z + 2 ^ 31) mod 2 ^ 32 - 2 ^ 31)%Z.

(** [eprets] and [eplens] are [None] until [reset] is called; [eprets] is
    an array of float32, here of reals. *)
Record VecMonitor : Type := mkVecMonitor {
  eprets : option (list R);
  eplens : option (list Z);
  epcount : Z
}.

Definition VecMonitor_init : VecMonitor :=
  {| eprets := None; eplens := None; epcount := 0 |}.

Definition VecMonitor_reset (self : VecMonitor) (num_envs : nat) : VecMonitor :=
  {| eprets := Some (repeat 0%R num_envs);
     eplens := Some (repeat 0%Z num_envs);
     epcount := epcount self |}.

(** One iteration of [for i in range(len(dones)):]; [elapsed i] is
    [round(time.time() - self.tstart, 6)] at that moment. *)
Definition monitor_body (dones : list bool) (infos : list info) (elapsed : nat -> R)
    (st : list R * list Z * Z * list info) (i : nat)
  : error + (list R * list Z * Z * list info) :=
  let '(eprets, eplens, epcount, newinfos) := st in
  match nth_error dones i with
  | None => inl IndexError
  | Some false => inr st
  | Some true =>
      match nth_error infos i, nth_error eprets i, nth_error eplens i with
      | Some info0, Some ret, Some eplen =>
          if Nat.ltb i (length newinfos) then
            let info := dict_set info0 "episode" (Episode ret eplen (elapsed i)) in
            inr (list_set eprets i 0%R, list_set eplens i 0%Z, (epcount + 1)%Z,
                 list_set newinfos i info)
          else inl IndexError
      | _, _, _ => inl IndexError
      end
  end.

Fixpoint foldE {S : Type} (f : S -> nat -> error + S) (l : list nat) (st : S)
  : error + S :=
  match l with
  | [] => inr st
  | i :: rest => and_then (f st i) (foldE f rest)
  end.

(** The body of [step_wait] up to its [return]: the new state and
    [newinfos]. *)
Definition monitor_step (self : VecMonitor) (rews : list R) (dones : list bool)
    (infos : list info) (elapsed : nat -> R) : error + (VecMonitor * list info) :=
  match eprets self, eplens self with
  | Some eprets, Some eplens =>
      let eprets := add_rows eprets rews in
      let eplens := map (fun l => int32 (l + 1)) eplens in
      and_then (foldE (monitor_body dones infos elapsed) (seq 0 (length dones))
                      (eprets, eplens, epcount self, infos))
        (fun st =>
           let '(eprets, eplens, epcount, newinfos) := st in
           inr ({| eprets := Some eprets; eplens := Some eplens; epcount := epcount |},
                newinfos))
  | _, _ => inl TypeError
  end.

(** [VecMonitor.step_wait] of [ppo_diverse_downsize.py] and
    [ppo_diverse_maxcho.py]: [return obs, rews, dones, newinfos]. *)
Definition VecMonitor_step_wait {O : Type} (self : VecMonitor)
    (venv : O * list R * list bool * list info) (elapsed : nat -> R)
  : error + (VecMonitor * (O * list R * list bool * list info)) :=
  let '(obs, rews, dones, infos) := venv in
  and_then (monitor_step self rews dones infos elapsed)
    (fun r => inr (fst r, (obs, rews, dones, snd r))).

(** [VecMonitor.step_wait] of [ppo_maxcho_v2.py]:
    [return obs, rews, newinfos, dones]. *)
Definition VecMonitor_step_wait_v2 {O : Type} (self : VecMonitor)
    (venv : O * list R * list bool * list info) (elapsed : nat -> R)
  : error + (VecMonitor * (O * list R * list info * list bool)) :=
  let '(obs, rews, dones, infos) := venv in
  and_then (monitor_step self rews dones infos elapsed)
    (fun r => inr (fst r, (obs, rews, snd r, dones))).

(** Successive calls of [step_wait], on the successive results of the
    wrapped environment; the outputs are collected in order. *)
Fixpoint VecMonitor_run {O : Type} (self : VecMonitor)
    (venvs : list (O * list R * list bool * list info)) (elapsed : nat -> R)
  : error + (VecMonitor * list (O * list R * list bool * list info)) :=
  match venvs with
  | [] => inr (self, [])
  | venv :: rest =>
      and_then (VecMonitor_step_wait self venv elapsed) (fun r =>
      and_then (VecMonitor_run (fst r) rest elapsed) (fun rs =>
      inr (fst rs, snd r :: snd rs)))
  end.

End Monitor.

(** *** [VecPyTorch.step_wait]

    [obs] and [reward] become tensors of floats, [reward] with a second
    axis of size 1. *)
Definition VecPyTorch_step_wait {O D I : Type} (venv : O * list R * D * I)
  : O * list (list R) * D * I :=
  let '(obs, reward, done, info) := venv in
  (obs, map (fun x => [x]) reward, done, info).

(** *** Arrays of observations

    A numpy array of observations [batch x h x w x channels]: its shape,
    which it keeps when it is empty, and its items. *)
Record ndarray : Type := mkndarray {
  shape : nat * nat * nat * nat;
  items : list (list (list (list R)))
}.

(** [np.concatenate([obs, planes], axis=-1)] for planes of the batch,
    height and width of [obs]. *)
Definition concatenate (obs : ndarray) (extra : nat)
    (planes : list (list (list (list R)))) : ndarray :=
  let '(b, h, w, c) := shape obs in
  {| shape := (b, h, w, c + extra);
     items :=
       map (fun ip : list (list (list R)) * list (list (list R)) =>
              map (fun rp : list (list R) * list (list R) =>
                     map (fun cp : list R * list R => fst cp ++ snd cp)
                         (combine (fst rp) (snd rp)))
                  (combine (fst ip) (snd ip)))
           (combine (items obs) planes) |}.

(** *** [BoundaryWrapper] *)

(** [bm[i, :] = v] and [bm[:, j] = v] *)
Definition set_row (bm : list (list R)) (i : nat) (v : R) : list (list R) :=
  list_set bm i (map (fun _ => v) (nth i bm [])).

Definition set_col (bm : list (list R)) (j : nat) (v : R) : list (list R) :=
  map (fun row => list_set row j v) bm.

(** The map that [_add_boundary] builds for the shape [(h, w)]; the index
    0 is out of bounds on an axis of size 0. *)
Definition new_boundary_map (h w : nat) : error + list (list R) :=
  let bm := repeat (repeat 0%R w) h in
  if Nat.eqb h 0 then inl IndexError
  else
    let bm := set_row bm 0 1 in
    let bm := set_row bm (h - 1) 1 in
    if Nat.eqb w 0 then inl IndexError
    else
      let bm := set_col bm 0 1 in
      let bm := set_col bm (w - 1) 1 in
      inr bm.

(** The shape of a two-dimensional array given by its rows. *)
Definition shape2 (bm : list (list R)) : nat * nat :=
  (length bm, length (hd [] bm)).

(** [_add_boundary(obs)]: the new value of [self.boundary_map] and the
    result. *)
Definition _add_boundary (boundary_map : option (list (list R))) (obs : ndarray)
  : error + (option (list (list R)) * ndarray) :=
  let '(batch_size, h, w, _) := shape obs in
  let fresh :=
    match boundary_map with
    | None => true
    | Some bm =>
        negb (Nat.eqb (fst (shape2 bm)) h && Nat.eqb (snd (shape2 bm)) w)
    end in
  and_then (if fresh then new_boundary_map h w
            else match boundary_map with
                 | Some bm => inr bm
                 | None => inl TypeError
                 end)
    (fun bm =>
       let b_map := repeat (map (map (fun x => [x])) bm) batch_size in
       inr (Some bm, concatenate obs 1 b_map)).

Definition BoundaryWrapper_step_wait {D I : Type}
    (boundary_map : option (list (list R))) (venv : ndarray * list R * D * I)
  : error + (option (list (list R)) * (ndarray * list R * D * I)) :=
  let '(obs, rews, dones, infos) := venv in
  and_then (_add_boundary boundary_map obs)
    (fun r => inr (fst r, (snd r, rews, dones, infos))).

(** *** [AttackPowerOneHotWrapper] *)

Record AttackPowerOneHotWrapper : Type := mkAttackPowerOneHotWrapper {
  id_to_damage : list (Z * Z);
  damage_bins : list Z
}.

Definition num_bins (self : AttackPowerOneHotWrapper) : nat :=
  length (damage_bins self).

(** [self.id_to_damage.get(utype, 0)] *)
Fixpoint get (d : list (Z * Z)) (k : Z) (default : Z) : Z :=
  match d with
  | [] => default
  | (k', v) :: rest => if Z.eqb k k' then v else get rest k default
  end.

(** [bin_idx = 0], then the first [k] with [damage <= thresh]. *)
Fixpoint first_bin (damage : Z) (k : nat) (bins : list Z) : option nat :=
  match bins with
  | [] => None
  | thresh :: rest =>
      if Z.leb damage thresh then Some k else first_bin damage (S k) rest
  end.

Definition bin_idx (damage : Z) (bins : list Z) : nat :=
  match first_bin damage 0 bins with
  | Some k => k
  | None => O
  end.

(** The entries [onehot_map[b, i, j, :]] for a cell of unit type
    [utype]. *)
Definition onehot_cell (self : AttackPowerOneHotWrapper) (utype : Z) : error + list R :=
  let zeros := repeat 0%R (num_bins self) in
  if Z.ltb utype 0 then inr zeros
  else
    let damage := get (id_to_damage self) utype 0 in
    let k := bin_idx damage (damage_bins self) in
    if Nat.ltb k (num_bins self) then inr (list_set zeros k 1%R)
    else inl IndexError.

(** [unit_type_map[b, i, j]] *)
Definition at3 {A : Type} (t : list (list (list A))) (b i j : nat) : option A :=
  match nth_error t b with
  | Some img =>
      match nth_error img i with
      | Some row => nth_error row j
      | None => None
      end
  | None => None
  end.

(** [_add_attack_onehot(obs)], where [unit_type_map] is what
    [self.venv.vec_client.getUnitType()] returns. *)
Definition _add_attack_onehot (self : AttackPowerOneHotWrapper)
    (unit_type_map : list (list (list Z))) (obs : ndarray) : error + ndarray :=
  let '(batch_size, h, w, _) := shape obs in
  and_then
    (mapE (fun b =>
       mapE (fun i =>
         mapE (fun j =>
           match at3 unit_type_map b i j with
           | Some utype => onehot_cell self utype
           | None => inl IndexError
           end) (seq 0 w)) (seq 0 h)) (seq 0 batch_size))
    (fun onehot_map => inr (concatenate obs (num_bins self) onehot_map)).

Definition AttackPowerOneHotWrapper_step_wait {D I : Type}
    (self : AttackPowerOneHotWrapper) (unit_type_map : list (list (list Z)))
    (venv : ndarray * list R * D * I) : error + (ndarray * list R * D * I) :=
  let '(obs, rews, dones, infos) := venv in
  and_then (_add_attack_onehot self unit_type_map obs)
    (fun obs' => inr (obs', rews, dones, infos)).

(** *** The chain of wrappers of [ppo_maxcho_v2.py]

    [VecPyTorch(AttackPowerOneHotWrapper(BoundaryWrapper(VecMonitor(envs))))]:
    what its [step_wait] returns for the result [venv] of the game. *)
Definition v2_step_wait (X : Type) (monitor : VecMonitor)
    (boundary_map : option (list (list R))) (attack : AttackPowerOneHotWrapper)
    (unit_type_map : list (list (list Z)))
    (venv : ndarray * list R * list bool * list (info X)) (elapsed : nat -> R)
  : error + (VecMonitor * option (list (list R))
             * (ndarray * list (list R) * list (info X) * list bool)) :=
  and_then (VecMonitor_step_wait_v2 monitor venv elapsed) (fun r1 =>
  and_then (BoundaryWrapper_step_wait boundary_map (snd r1)) (fun r2 =>
  and_then (AttackPowerOneHotWrapper_step_wait attack unit_type_map (snd r2)) (fun r3 =>
  inr (fst r1, fst r2, VecPyTorch_step_wait r3)))).

(** The planes that [_add_attack_onehot] appends at a cell, [[]] for a
    cell that the unit types do not cover. *)
Definition onehot_or_nil (self : AttackPowerOneHotWrapper)
    (unit_type_map : list (list (list Z))) (b i j : nat) : list R :=
  match at3 unit_type_map b i j with
  | Some utype =>
      if Z.ltb utype 0 then repeat 0%R (num_bins self)
      else list_set (repeat 0%R (num_bins self))
             (bin_idx (get (id_to_damage self) utype 0) (damage_bins self)) 1%R
  | None => []
  end.

(** The components of the tuple [(obs, rews, dones, infos)]. *)
Definition obs_of {O A B C : Type} (v : O * A * B * C) : O := fst (fst (fst v)).
Definition rews_of {O A B C : Type} (v : O * A * B * C) : A := snd (fst (fst v)).
Definition dones_of {O A B C : Type} (v : O * A * B * C) : B := snd (fst v).
Definition infos_of {O A B C : Type} (v : O * A * B * C) : C := snd v.

(** An array whose items have the shape that it declares. *)
Definition well_shaped (a : ndarray) : Prop :=
  let '(b, h, w, c) := shape a in
  length (items a) = b /\
  Forall (fun img =>
            length img = h /\
            Forall (fun row =>
                      length row = w /\
                      Forall (fun cell : list R => length cell = c) row) img)
         (items a).

End Wrappers.

(** ** Exponentials, sums and the normalisation of logits *)

Section Normalisation.

Local Open Scope R_scope.

Lemma sum_exp_nonneg (r : list R) : 0 <= sum_list (map exp r).
Proof.
  induction r as [|x r IH]; simpl.
  - lra.
  - pose proof (exp_pos x). lra.
Qed.

Lemma sum_exp_pos (r : list R) : r <> [] -> 0 < sum_list (map exp r).
Proof.
  destruct r as [|x r]; [congruence|]. intros _. simpl.
  pose proof (exp_pos x). pose proof (sum_exp_nonneg r). lra.
Qed.

Lemma sum_exp_ge (r : list R) (i : nat) (x : R) :
  nth_error r i = Some x -> exp x <= sum_list (map exp r).
Proof.
  revert i. induction r as [|y r IH]; intros [|i] H; simpl in *; try discriminate.
  - injection H as ->. pose proof (sum_exp_nonneg r). lra.
  - pose proof (IH _ H). pose proof (exp_pos y). lra.
Qed.

Lemma exp_minus_logsumexp (r : list R) (x : R) :
  r <> [] -> exp (x - logsumexp r) = exp x / sum_list (map exp r).
Proof.
  intros Hr. unfold logsumexp, Rminus.
  rewrite exp_plus, exp_Ropp, exp_ln by (apply sum_exp_pos; exact Hr).
  reflexivity.
Qed.

Lemma sum_list_scale (r : list R) (c : R) :
  sum_list (map (fun x => x / c) r) = sum_list r / c.
Proof.
  induction r as [|x r IH]; simpl.
  - unfold Rdiv. lra.
  - rewrite IH. unfold Rdiv. lra.
Qed.

Lemma map_exp_normalize (r : list R) :
  r <> [] -> map exp (normalize r) = softmax r.
Proof.
  intros Hr. unfold normalize, softmax. rewrite map_map.
  apply map_ext. intros x. apply exp_minus_logsumexp. exact Hr.
Qed.

Lemma sum_softmax (r : list R) : r <> [] -> sum_list (softmax r) = 1.
Proof.
  intros Hr. unfold softmax.
  rewrite <- (map_map exp (fun y => y / sum_list (map exp r))).
  rewrite sum_list_scale. pose proof (sum_exp_pos Hr). field. lra.
Qed.

Lemma sum_exp_normalize (r : list R) :
  r <> [] -> sum_list (map exp (normalize r)) = 1.
Proof.
  intros Hr. rewrite map_exp_normalize by exact Hr. apply sum_softmax. exact Hr.
Qed.

(** The probabilities of a distribution are the softmax of the logits it
    was built from. *)
Lemma softmax_normalize (r : list R) : softmax (normalize r) = softmax r.
Proof.
  destruct r as [|x r]; [reflexivity|].
  assert (Hr : x :: r <> []) by congruence.
  unfold softmax at 1. rewrite sum_exp_normalize by exact Hr.
  rewrite <- map_exp_normalize by exact Hr.
  rewrite <- (map_map exp (fun y => y / 1)).
  rewrite <- (map_id (map exp (normalize (x :: r)))) at 2.
  apply map_ext. intros y. field.
Qed.

Lemma length_normalize (r : list R) : length (normalize r) = length r.
Proof. unfold normalize. apply length_map. Qed.

Lemma length_softmax (r : list R) : length (softmax r) = length r.
Proof. unfold softmax. apply length_map. Qed.

Lemma nth_error_softmax (r : list R) (i : nat) :
  nth_error (softmax r) i =
  option_map (fun x => exp x / sum_list (map exp r)) (nth_error r i).
Proof. unfold softmax. apply nth_error_map. Qed.

(** A probability is at most the ratio of its weight to any other weight. *)
Lemma softmax_le_ratio (r : list R) (i j : nat) (a b p : R) :
  nth_error r i = Some a -> nth_error r j = Some b ->
  nth_error (softmax r) i = Some p ->
  0 < p <= exp (a - b).
Proof.
  intros Hi Hj Hp. rewrite nth_error_softmax, Hi in Hp. simpl in Hp.
  injection Hp as <-.
  assert (Hr : r <> []) by (intros ->; destruct i; discriminate).
  pose proof (sum_exp_pos Hr) as HS. pose proof (sum_exp_ge _ _ Hj) as Hb.
  pose proof (exp_pos a) as Ha. pose proof (exp_pos b) as Hb0.
  split.
  - apply Rdiv_lt_0_compat; assumption.
  - unfold Rminus. rewrite exp_plus, exp_Ropp.
    unfold Rdiv. apply Rmult_le_compat_l; [lra|].
    apply Rinv_le_contravar; assumption.
Qed.

End Normalisation.

(** ** Rows of the tensors built by the constructors *)

Section Rows.

Lemma nth_error_combine {A B : Type} (l : list A) (l' : list B) (n : nat) :
  nth_error (combine l l') n =
  match nth_error l n, nth_error l' n with
  | Some a, Some b => Some (a, b)
  | _, _ => None
  end.
Proof.
  revert l' n. induction l as [|a l IH]; intros [|b l'] [|n]; simpl; try reflexivity.
  - destruct (nth_error l n); reflexivity.
  - apply IH.
Qed.

Lemma nth_error_where_row (m : list bool) (x : list R) (c : R) (i : nat) :
  nth_error (where_row m x c) i =
  match nth_error m i, nth_error x i with
  | Some b, Some v => Some (if b then v else c)
  | _, _ => None
  end.
Proof.
  unfold where_row. rewrite nth_error_map, nth_error_combine.
  destruct (nth_error m i), (nth_error x i); reflexivity.
Qed.

Lemma length_where_row (m : list bool) (x : list R) (c : R) :
  length (where_row m x c) = Nat.min (length m) (length x).
Proof. unfold where_row. rewrite length_map. apply length_combine. Qed.

Lemma nth_error_where (mk : tensor bool) (lg : tensor R) (c : R) (b : nat) :
  nth_error (where_ mk lg c) b =
  match nth_error mk b, nth_error lg b with
  | Some m, Some l => Some (where_row m l c)
  | _, _ => None
  end.
Proof.
  unfold where_. rewrite nth_error_map, nth_error_combine.
  destruct (nth_error mk b), (nth_error lg b); reflexivity.
Qed.

Lemma length_where (mk : tensor bool) (lg : tensor R) (c : R) :
  length (where_ mk lg c) = Nat.min (length mk) (length lg).
Proof. unfold where_. rewrite length_map. apply length_combine. Qed.

(** On a boolean tensor the conversion to [torch.bool] changes nothing. *)
Lemma as_bool_bool (t : tensor bool) : as_bool t = t.
Proof.
  unfold as_bool. rewrite <- (map_id t) at 2. apply map_ext. intros r.
  rewrite <- (map_id r) at 2. apply map_ext. intros x. reflexivity.
Qed.

Lemma nth_error_logits_init (lg : tensor R) (b : nat) :
  nth_error (logits (Categorical_init lg)) b = option_map normalize (nth_error lg b).
Proof. unfold Categorical_init. simpl. apply nth_error_map. Qed.

(** With a mask of the shape of [x] whose entries are all true,
    [torch.where] returns [x]. *)
Lemma where_row_all_true (m : list bool) (x : list R) (c : R) :
  length m = length x -> Forall (fun b => b = true) m -> where_row m x c = x.
Proof.
  revert x. induction m as [|b m IH]; intros [|v x] Hl Hm; simpl in *; try discriminate.
  - reflexivity.
  - inversion Hm; subst. unfold where_row in *. simpl. f_equal. apply IH; [lia|assumption].
Qed.

Lemma where_all_true (mk : tensor bool) (x : tensor R) (c : R) :
  Forall2 (fun m r => length m = length r /\ Forall (fun b => b = true) m) mk x ->
  where_ mk x c = x.
Proof.
  induction 1 as [|m r mk x [Hl Hm] _ IH]; [reflexivity|].
  unfold where_ in *. simpl. rewrite where_row_all_true by assumption.
  f_equal. exact IH.
Qed.

End Rows.

(** ** The float32 evaluation of the normalisation stays finite *)

Section SinglePrecision.

Local Open Scope R_scope.

Lemma Rabs_le_between (x b : R) : Rabs x <= b -> - b <= x <= b.
Proof. unfold Rabs. destruct (Rcase_abs x); lra. Qed.

Lemma float32_pow2 (e : nat) : (e <= 104)%nat -> float32 (2 ^ e).
Proof.
  intros He. exists 1%Z, (Z.of_nat e). split; [reflexivity|]. split; [lia|].
  rewrite <- pow_powerRZ. lra.
Qed.

Lemma float32_opp (x : R) : float32 x -> float32 (- x).
Proof.
  intros (m & e & Hm & He & ->). exists (- m)%Z, e.
  split; [rewrite Z.abs_opp; exact Hm|]. split; [exact He|].
  rewrite opp_IZR. lra.
Qed.

Lemma float32_0 : float32 0.
Proof.
  exists 0%Z, 0%Z. split; [reflexivity|]. split; [lia|]. simpl. lra.
Qed.

Lemma float32_1 : float32 1.
Proof.
  exists 1%Z, 0%Z. split; [reflexivity|]. split; [lia|]. simpl. lra.
Qed.

Lemma float32_INR (k : nat) : (Z.of_nat k < 2 ^ 24)%Z -> float32 (INR k).
Proof.
  intros Hk. exists (Z.of_nat k), 0%Z. split; [lia|]. split; [lia|].
  rewrite INR_IZR_INZ. simpl. lra.
Qed.

(** [-1e8] is a float32 number: [-390625 * 2^8]. *)
Lemma float32_sentinel : float32 sentinel.
Proof.
  exists (-390625)%Z, 8%Z. split; [reflexivity|]. split; [lia|].
  unfold sentinel. simpl. lra.
Qed.

Lemma float32_max_is_float32 : float32 float32_max.
Proof.
  exists (2 ^ 24 - 1)%Z, 104%Z. split; [reflexivity|]. split; [lia|].
  unfold float32_max.
  change (powerRZ 2 104) with (2 ^ 104).
  replace (2 ^ 127) with (2 ^ 23 * 2 ^ 104) by (rewrite <- pow_add; reflexivity).
  assert (H : 0 < 2 ^ 23) by (apply pow_lt; lra).
  replace (IZR (2 ^ 24 - 1)) with (2 * 2 ^ 23 - 1).
  - field; lra.
  - change (2 ^ 24 - 1)%Z with 16777215%Z. lra.
Qed.

Lemma pow2_102_le_max : 2 ^ 102 <= float32_max.
Proof.
  unfold float32_max.
  assert (/ 2 ^ 23 <= 1).
  { rewrite <- Rinv_1. apply Rinv_le_contravar; [lra|].
    apply pow_R1_Rle. lra. }
  assert (0 < 2 ^ 127) by (apply pow_lt; lra).
  assert (2 ^ 102 <= 2 ^ 127) by (apply Rle_pow; [lra|lia]).
  nra.
Qed.

Lemma where_row_float32 (m : list bool) (l : list R) :
  Forall float32 l -> Forall float32 (where_row m l sentinel).
Proof.
  revert l. induction m as [|b m IH]; intros [|x l] H; unfold where_row in *;
    simpl; try constructor.
  - inversion H; subst. destruct b; [assumption|apply float32_sentinel].
  - apply IH. inversion H; assumption.
Qed.

Lemma where_row_bounded (m : list bool) (l : list R) (B : R) :
  100000000 <= B ->
  Forall (fun x => Rabs x <= B) l ->
  Forall (fun x => Rabs x <= B) (where_row m l sentinel).
Proof.
  intros HB. revert l. induction m as [|b m IH]; intros [|x l] H;
    unfold where_row in *; simpl; try constructor.
  - inversion H; subst. destruct b; simpl; [assumption|].
    unfold sentinel. rewrite Rabs_left by lra. lra.
  - apply IH. inversion H; assumption.
Qed.

Lemma amax_ge (r : list R) (x : R) : In x r -> x <= Float32.amax r.
Proof.
  induction r as [|y r IH]; [intros []|].
  intros [->|Hin]; cbn [Float32.amax]; destruct r as [|z r].
  - lra.
  - apply Rmax_l.
  - destruct Hin.
  - eapply Rle_trans; [apply IH; exact Hin|apply Rmax_r].
Qed.

Lemma amax_in (r : list R) : r <> [] -> In (Float32.amax r) r.
Proof.
  induction r as [|y r IH]; [congruence|]. intros _.
  cbn [Float32.amax]. destruct r as [|z r]; [left; reflexivity|].
  unfold Rmax. destruct (Rle_dec y (Float32.amax (z :: r))).
  - right. apply IH. discriminate.
  - left. reflexivity.
Qed.

Section Ops.

Variable o : Float32.ops.
Hypothesis Ho : Float32.faithful o.

(** A float32 sum of numbers between 0 and 1, fewer than [2^24] of them,
    lies between 0 and their number, and is at least 1 when one of them
    is 1. *)
Lemma summed_bounds (l : list R) (s : R) :
  Float32.summed o l s ->
  (Z.of_nat (length l) < 2 ^ 24)%Z ->
  Forall (fun x => 0 <= x <= 1) l ->
  0 <= s <= INR (length l) /\ (In 1 l -> 1 <= s).
Proof.
  destruct Ho as (Hadd & _).
  induction 1 as [x|l1 l2 s1 s2 H1 IH1 H2 IH2]; intros Hlen Hall.
  - inversion Hall as [|? ? Hx _]; subst. cbn [length INR]. split; [lra|].
    intros [<-|[]]. lra.
  - rewrite length_app in Hlen. apply Forall_app in Hall. destruct Hall as [A1 A2].
    destruct (IH1 ltac:(lia) A1) as [B1 C1].
    destruct (IH2 ltac:(lia) A2) as [B2 C2].
    rewrite length_app, plus_INR.
    assert (F : float32 (INR (length l1) + INR (length l2))).
    { rewrite <- plus_INR. apply float32_INR. lia. }
    split.
    + apply (Hadd 0 _ s1 s2 float32_0 F). lra.
    + intros Hin. apply in_app_or in Hin.
      apply (Hadd 1 _ s1 s2 float32_1 F).
      destruct Hin as [Hin|Hin]; [specialize (C1 Hin)|specialize (C2 Hin)]; lra.
Qed.

Lemma summed_exists (l : list R) : l <> [] -> exists s, Float32.summed o l s.
Proof.
  induction l as [|x l IH]; [congruence|]. intros _.
  destruct l as [|y l].
  - exists x. constructor.
  - destruct IH as [s Hs]; [discriminate|].
    exists (Float32.add o x s). apply (Float32.summed_app (Float32.summed_one o x) Hs).
Qed.

(** The shifted exponentials lie between 0 and 1, and that of the largest
    entry is 1. *)
Lemma shifted_exp_bounds (r : list R) :
  r <> [] -> Forall (fun x => Rabs x <= 2 ^ 100) r ->
  Forall (fun x => 0 <= x <= 1) (Float32.shifted_exp o r) /\
  In 1 (Float32.shifted_exp o r).
Proof.
  destruct Ho as (_ & Hsub & Hexp & _). intros Hr Hb.
  assert (HM : In (Float32.amax r) r) by (apply amax_in; exact Hr).
  assert (Hsh : forall x, In x r ->
            - 2 ^ 101 <= Float32.sub o x (Float32.amax r) <= 0).
  { intros x Hx. rewrite Forall_forall in Hb.
    pose proof (Hb _ Hx) as Bx. pose proof (Hb _ HM) as BM.
    pose proof (amax_ge _ _ Hx) as Hle.
    apply Rabs_le_between in Bx. apply Rabs_le_between in BM.
    apply (Hsub (- 2 ^ 101) 0 x (Float32.amax r)).
    - apply float32_opp. apply float32_pow2. lia.
    - apply float32_0.
    - lra. }
  split.
  - unfold Float32.shifted_exp. apply Forall_map. apply Forall_forall.
    intros x Hx. apply (Hexp 0 1 _ float32_0 float32_1).
    pose proof (exp_pos (Float32.sub o x (Float32.amax r))).
    split; [lra|]. rewrite <- exp_0. destruct (proj2 (Hsh x Hx)) as [Hlt|Heq].
    + left. apply exp_increasing. exact Hlt.
    + rewrite Heq. lra.
  - unfold Float32.shifted_exp. apply in_map_iff. exists (Float32.amax r).
    split; [|exact HM].
    assert (E : Float32.sub o (Float32.amax r) (Float32.amax r) = 0).
    { pose proof (Hsub 0 0 (Float32.amax r) (Float32.amax r) float32_0 float32_0
                    ltac:(lra)). lra. }
    rewrite E.
    pose proof (Hexp 1 1 0 float32_1 float32_1 ltac:(rewrite exp_0; lra)). lra.
Qed.

(** Every number that the float32 normalisation of a row computes is
    finite, and the logarithm is taken of a number that is at least 1. *)
Lemma normalize_finite (r : list R) (s : R) :
  r <> [] -> (Z.of_nat (length r) < 2 ^ 24)%Z ->
  Forall (fun x => Rabs x <= 2 ^ 100) r ->
  Float32.summed o (Float32.shifted_exp o r) s ->
  1 <= s <= INR (length r) /\
  0 <= Float32.log o s <= 2 ^ 24 /\
  Rabs (Float32.logsumexp o r s) <= 2 ^ 101 /\
  Forall (fun y => Rabs y <= 2 ^ 102) (Float32.normalize o r s).
Proof.
  intros Hr Hlen Hb Hs.
  destruct (shifted_exp_bounds Hr Hb) as [Hall Hone].
  assert (Hl : length (Float32.shifted_exp o r) = length r)
    by (unfold Float32.shifted_exp; apply length_map).
  destruct (summed_bounds Hs ltac:(rewrite Hl; exact Hlen) Hall) as [[_ Hup] Hlow].
  specialize (Hlow Hone). rewrite Hl in Hup.
  destruct Ho as (Hadd & Hsub & _ & Hln).
  assert (Hn : INR (length r) <= 2 ^ 24).
  { rewrite INR_IZR_INZ. replace (2 ^ 24) with (IZR (2 ^ 24)).
    - apply IZR_le. lia.
    - change (2 ^ 24)%Z with 16777216%Z. lra. }
  assert (Hlog : 0 <= Float32.log o s <= 2 ^ 24).
  { apply (Hln 0 (2 ^ 24) s float32_0 (@float32_pow2 24 ltac:(lia))).
    split.
    - rewrite <- ln_1. destruct Hlow as [Hlt|<-]; [|lra].
      left. apply ln_increasing; lra.
    - pose proof (exp_ineq1_le (ln s)) as H. rewrite exp_ln in H by lra. lra. }
  assert (HM : Rabs (Float32.amax r) <= 2 ^ 100).
  { rewrite Forall_forall in Hb. apply Hb. apply amax_in. exact Hr. }
  apply Rabs_le_between in HM.
  assert (Hlse : - 2 ^ 101 <= Float32.logsumexp o r s <= 2 ^ 101).
  { unfold Float32.logsumexp.
    apply (Hadd (- 2 ^ 101) (2 ^ 101) _ _
             (float32_opp (@float32_pow2 101 ltac:(lia)))
             (@float32_pow2 101 ltac:(lia))).
    lra. }
  split; [lra|]. split; [exact Hlog|]. split; [apply Rabs_le; exact Hlse|].
  unfold Float32.normalize. apply Forall_map. apply Forall_forall. intros x Hx.
  rewrite Forall_forall in Hb. pose proof (Hb _ Hx) as Bx.
  apply Rabs_le_between in Bx. apply Rabs_le.
  apply (Hsub (- 2 ^ 102) (2 ^ 102) _ _
           (float32_opp (@float32_pow2 102 ltac:(lia)))
           (@float32_pow2 102 ltac:(lia))).
  lra.
Qed.

End Ops.

Lemma exact_faithful : Float32.faithful Float32.exact.
Proof.
  unfold Float32.faithful, Float32.encloses1, Float32.encloses2. cbn.
  repeat split; intros; lra.
Qed.

Lemma sum_list_app (a b : list R) :
  sum_list (a ++ b) = sum_list a + sum_list b.
Proof.
  unfold sum_list. induction a as [|x a IH]; simpl; [lra|]. rewrite IH. lra.
Qed.

Lemma summed_exact (l : list R) (s : R) :
  Float32.summed Float32.exact l s -> s = sum_list l.
Proof.
  induction 1 as [x|l1 l2 s1 s2 _ IH1 _ IH2].
  - simpl. lra.
  - rewrite sum_list_app, <- IH1, <- IH2. reflexivity.
Qed.

Lemma sum_exp_shift (r : list R) (c : R) :
  sum_list (map (fun x => exp (x - c)) r) = sum_list (map exp r) * exp (- c).
Proof.
  unfold sum_list. induction r as [|x r IH]; simpl; [lra|].
  rewrite IH. unfold Rminus. rewrite exp_plus. lra.
Qed.

(** In exact arithmetic the shifted evaluation is the normalisation
    [logits - ln (sum (exp logits))]. *)
Lemma normalize_exact (r : list R) (s : R) :
  r <> [] ->
  Float32.summed Float32.exact (Float32.shifted_exp Float32.exact r) s ->
  Float32.normalize Float32.exact r s = normalize r.
Proof.
  intros Hr Hs. apply summed_exact in Hs.
  unfold Float32.shifted_exp in Hs. cbn [Float32.exp_ Float32.sub Float32.exact] in Hs.
  rewrite sum_exp_shift in Hs.
  unfold Float32.normalize, normalize, Float32.logsumexp, logsumexp.
  cbn [Float32.add Float32.log Float32.sub Float32.exact].
  apply map_ext. intros x. f_equal. rewrite Hs.
  rewrite ln_mult by (try apply exp_pos; apply sum_exp_pos; exact Hr).
  rewrite ln_exp. lra.
Qed.

End SinglePrecision.

(** ** The masked constructor *)

Section Construction.

Local Open Scope R_scope.

(** Whatever the file, a mask with at least one row makes the constructor
    pass [torch.where(masks, logits, -1e8)] to [Categorical]. *)
Lemma downsize_init_nonempty (lg : tensor R) (mk : tensor bool) :
  mk <> [] ->
  Downsize.CategoricalMasked_init lg mk =
  Downsize.mkCategoricalMasked mk (Categorical_init (where_ mk lg sentinel)).
Proof.
  intros Hmk. unfold Downsize.CategoricalMasked_init.
  destruct mk as [|m mk]; [congruence|]. simpl length. simpl Nat.eqb. cbv iota.
  rewrite as_bool_bool. reflexivity.
Qed.

Lemma substituted_logits (lg : tensor R) (mk : tensor bool) (b : nat)
    (m : list bool) (l : list R) :
  nth_error mk b = Some m -> nth_error lg b = Some l -> length m = length l ->
  exists eff : list R,
    nth_error (logits (Categorical_init (where_ mk lg sentinel))) b
      = Some (normalize eff) /\
    length eff = length l /\
    (forall i mi x, nth_error m i = Some mi -> nth_error l i = Some x ->
                    nth_error eff i = Some (if mi then x else sentinel)) /\
    (l <> [] -> 0 < sum_list (map exp eff) /\ sum_list (softmax eff) = 1).
Proof.
  intros Hm Hl Hlen. exists (where_row m l sentinel).
  rewrite nth_error_logits_init, nth_error_where, Hm, Hl. simpl.
  split; [reflexivity|]. split; [rewrite length_where_row; lia|]. split.
  - intros i mi x Hi Hx. rewrite nth_error_where_row, Hi, Hx. reflexivity.
  - intros Hne.
    assert (Hw : where_row m l sentinel <> []).
    { intros E. apply (f_equal (@length R)) in E.
      rewrite length_where_row in E. destruct l; [congruence|].
      simpl in *. rewrite Hlen in E. simpl in E. lia. }
    split; [apply sum_exp_pos|apply sum_softmax]; exact Hw.
Qed.

(** The float32 evaluation of the normalisation of the effective logits
    of a row. *)
Lemma effective_logits_finite (m : list bool) (l : list R) :
  length m = length l ->
  let eff := where_row m l sentinel in
  (Forall float32 l -> Forall float32 eff) /\
  (l <> [] -> (Z.of_nat (length l) < 2 ^ 24)%Z ->
   Forall (fun x => Rabs x <= 2 ^ 100) l ->
   forall o : Float32.ops, Float32.faithful o ->
     Forall (fun y => 0 <= y <= 1) (Float32.shifted_exp o eff) /\
     (exists s, Float32.summed o (Float32.shifted_exp o eff) s) /\
     forall s, Float32.summed o (Float32.shifted_exp o eff) s ->
       1 <= s <= INR (length l) /\
       0 <= Float32.log o s <= 2 ^ 24 /\
       Rabs (Float32.logsumexp o eff s) <= 2 ^ 101 /\
       Forall (fun y => Rabs y <= float32_max) (Float32.normalize o eff s)) /\
  (l <> [] ->
   forall s, Float32.summed Float32.exact (Float32.shifted_exp Float32.exact eff) s ->
     Float32.normalize Float32.exact eff s = normalize eff).
Proof.
  intros Hlen eff.
  assert (Hlen' : length eff = length l).
  { unfold eff. rewrite length_where_row. lia. }
  assert (Hne : l <> [] -> eff <> []).
  { intros Hl E. rewrite E in Hlen'. destruct l; [congruence|discriminate]. }
  split; [apply where_row_float32|]. split.
  - intros Hl Hn Hb o Ho.
    assert (Hb' : Forall (fun x => Rabs x <= 2 ^ 100) eff).
    { apply where_row_bounded; [|exact Hb].
      apply Rle_trans with (2 ^ 27); [lra|]. apply Rle_pow; [lra|lia]. }
    specialize (Hne Hl).
    split; [exact (proj1 (shifted_exp_bounds Ho Hne Hb'))|]. split.
    + apply summed_exists. intros E. apply Hne.
      unfold Float32.shifted_exp in E. apply map_eq_nil in E. exact E.
    + intros s Hs.
      destruct (normalize_finite Ho Hne ltac:(rewrite Hlen'; exact Hn) Hb' Hs)
        as (H1 & H2 & H3 & H4).
      rewrite Hlen' in H1.
      split; [exact H1|]. split; [exact H2|]. split; [exact H3|].
      eapply Forall_impl; [|exact H4]. intros y Hy. cbv beta in Hy.
      pose proof pow2_102_le_max. lra.
  - intros Hl s Hs. apply normalize_exact; [apply Hne; exact Hl|exact Hs].
Qed.

(** C4.  In each of the three files the constructor of [CategoricalMasked]
    substitutes logits before normalising: in every row, the distribution
    stores the normalised form of a row [eff] that holds the raw logit
    where the mask is true and the constant [-1e8] where it is false.

    The constant is a float32 number, so [eff] is a row of float32
    numbers when the logits are.  When the logits of a non-empty row of
    fewer than [2^24] entries are at most [2^100] in magnitude, the
    float32 evaluation of the normalisation overflows nowhere and takes
    no logarithm of zero, whatever the mask: the shifted exponentials lie
    between 0 and 1, their sum between 1 and the length of the row, its
    logarithm between 0 and [2^24], [logsumexp] is at most [2^101] in
    magnitude, and every normalised logit is below the largest float32
    number in magnitude.  This holds for every implementation of the four
    operations that returns a result between the float32 numbers that
    enclose the exact one, and for every grouping of the additions of the
    sum; in exact arithmetic the evaluation gives [normalize eff]. *)
Theorem masked_logits_by_substitution (lg : tensor R) (mk : tensor bool) (b : nat)
    (m : list bool) (l : list R) :
  nth_error mk b = Some m -> nth_error lg b = Some l -> length m = length l ->
  sentinel = -100000000 /\
  float32 sentinel /\
  forall d : Categorical,
    d = Downsize.base (Downsize.CategoricalMasked_init lg mk) \/
    d = Maxcho.CategoricalMasked_init lg mk \/
    d = MaxchoV2.CategoricalMasked_init lg mk ->
    exists eff : list R,
      nth_error (logits d) b = Some (normalize eff) /\
      length eff = length l /\
      (forall i mi x, nth_error m i = Some mi -> nth_error l i = Some x ->
                      nth_error eff i = Some (if mi then x else sentinel)) /\
      (l <> [] -> 0 < sum_list (map exp eff) /\ sum_list (softmax eff) = 1) /\
      (Forall float32 l -> Forall float32 eff) /\
      (l <> [] -> (Z.of_nat (length l) < 2 ^ 24)%Z ->
       Forall (fun x => Rabs x <= 2 ^ 100) l ->
       forall o : Float32.ops, Float32.faithful o ->
         Forall (fun y => 0 <= y <= 1) (Float32.shifted_exp o eff) /\
         (exists s, Float32.summed o (Float32.shifted_exp o eff) s) /\
         forall s, Float32.summed o (Float32.shifted_exp o eff) s ->
           1 <= s <= INR (length l) /\
           0 <= Float32.log o s <= 2 ^ 24 /\
           Rabs (Float32.logsumexp o eff s) <= 2 ^ 101 /\
           Forall (fun y => Rabs y <= float32_max) (Float32.normalize o eff s)) /\
      (l <> [] ->
       forall s,
         Float32.summed Float32.exact (Float32.shifted_exp Float32.exact eff) s ->
         Float32.normalize Float32.exact eff s = normalize eff).
Proof.
  intros Hm Hl Hlen. split; [reflexivity|]. split; [apply float32_sentinel|].
  intros d Hd.
  assert (Hmk : mk <> []) by (intros ->; destruct b; discriminate).
  assert (E : d = Categorical_init (where_ mk lg sentinel)).
  { destruct Hd as [->|[->| ->]]; [|reflexivity|reflexivity].
    rewrite downsize_init_nonempty by exact Hmk. reflexivity. }
  rewrite E. exists (where_row m l sentinel).
  rewrite nth_error_logits_init, nth_error_where, Hm, Hl. cbn [option_map].
  assert (Hw : l <> [] -> where_row m l sentinel <> []).
  { intros Hne Ew. apply (f_equal (@length R)) in Ew.
    rewrite length_where_row in Ew. destruct l; [congruence|].
    simpl in *. rewrite Hlen in Ew. simpl in Ew. lia. }
  split; [reflexivity|]. split; [rewrite length_where_row; lia|]. split.
  { intros i mi x Hi Hx. rewrite nth_error_where_row, Hi, Hx. reflexivity. }
  split.
  { intros Hne. split; [apply sum_exp_pos|apply sum_softmax]; apply Hw; exact Hne. }
  exact (effective_logits_finite m l Hlen).
Qed.

(** A run of the theorem on the row [0, 0, 0, 0] with the mask
    [T, F, T, F], the float32 operations being the exact ones. *)
Lemma masked_logits_by_substitution_witness :
  let d := Maxcho.CategoricalMasked_init [[0; 0; 0; 0]] [[true; false; true; false]] in
  float32 sentinel /\
  exists eff s,
    nth_error (logits d) 0 = Some (normalize eff) /\
    nth_error eff 0 = Some 0 /\ nth_error eff 1 = Some sentinel /\
    Forall float32 eff /\
    Float32.summed Float32.exact (Float32.shifted_exp Float32.exact eff) s /\
    1 <= s <= INR 4 /\
    Forall (fun y => Rabs y <= float32_max) (Float32.normalize Float32.exact eff s) /\
    Float32.normalize Float32.exact eff s = normalize eff.
Proof.
  intros d.
  destruct (@masked_logits_by_substitution
              [[0; 0; 0; 0]] [[true; false; true; false]] 0%nat
              [true; false; true; false] [0; 0; 0; 0] eq_refl eq_refl eq_refl)
    as (_ & Hs & H).
  destruct (H d (or_intror (or_introl eq_refl)))
    as (eff & H1 & _ & H3 & _ & H5 & H6 & H7).
  assert (Hne : [0; 0; 0; 0] <> []) by discriminate.
  assert (Hn : (Z.of_nat (length [0; 0; 0; 0]) < 2 ^ 24)%Z) by (simpl; lia).
  assert (Hb : Forall (fun x => Rabs x <= 2 ^ 100) [0; 0; 0; 0]).
  { repeat constructor; rewrite Rabs_R0; apply pow_lt; lra. }
  assert (Hf : Forall float32 [0; 0; 0; 0]) by (repeat constructor; apply float32_0).
  destruct (H6 Hne Hn Hb Float32.exact exact_faithful) as (_ & [s Hsum] & Hall).
  destruct (Hall s Hsum) as (B1 & _ & _ & B4).
  split; [exact Hs|]. exists eff, s.
  split; [exact H1|].
  split; [exact (H3 0%nat true 0 eq_refl eq_refl)|].
  split; [exact (H3 1%nat false 0 eq_refl eq_refl)|].
  split; [exact (H5 Hf)|]. split; [exact Hsum|]. split; [exact B1|].
  split; [exact B4|exact (H7 Hne s Hsum)].
Defined.

End Construction.

(** ** Agreement between the variants, and with the unmasked distribution *)

Section Agreement.

Local Open Scope R_scope.

(** C10.  Given the same logits and the same boolean mask (with at least
    one row, which is what makes the constructor of
    [ppo_diverse_downsize.py] mask at all), the three constructors build
    the same distribution: the same effective logits, raw where the mask is
    true and [-1e8] where it is false, hence the same probabilities, the
    same [log_prob] and the same [sample]. *)
Theorem variants_build_the_same_distribution (lg : tensor R) (mk : tensor bool) :
  mk <> [] ->
  let d1 := Downsize.base (Downsize.CategoricalMasked_init lg mk) in
  let d2 := Maxcho.CategoricalMasked_init lg mk in
  let d3 := MaxchoV2.CategoricalMasked_init lg mk in
  (d1 = d2 /\ d2 = d3) /\
  (forall b m l, nth_error mk b = Some m -> nth_error lg b = Some l ->
     length m = length l ->
     exists eff : list R,
       nth_error (logits d1) b = Some (normalize eff) /\
       nth_error (logits d2) b = Some (normalize eff) /\
       nth_error (logits d3) b = Some (normalize eff) /\
       forall i mi x, nth_error m i = Some mi -> nth_error l i = Some x ->
                      nth_error eff i = Some (if mi then x else -100000000)) /\
  (probs d1 = probs d2 /\ probs d2 = probs d3) /\
  (forall v, log_prob d1 v = log_prob d2 v /\ log_prob d2 v = log_prob d3 v) /\
  (forall w, sample d1 w = sample d2 w /\ sample d2 w = sample d3 w).
Proof.
  intros Hmk d1 d2 d3.
  assert (E12 : d1 = d2).
  { unfold d1, d2. rewrite downsize_init_nonempty by exact Hmk. reflexivity. }
  assert (E23 : d2 = d3) by reflexivity.
  split; [split; assumption|]. split.
  - intros b m l Hm Hl Hlen.
    destruct (substituted_logits lg mk b Hm Hl Hlen) as (eff & H1 & _ & H2 & _).
    exists eff. rewrite E12, <- E23. unfold d2, Maxcho.CategoricalMasked_init.
    repeat split; try exact H1. exact H2.
  - rewrite E12, <- E23. repeat split; reflexivity.
Qed.

(** The three constructors on the row [0, 0, 0, 0] with the mask
    [T, F, T, F]. *)
Lemma variants_build_the_same_distribution_witness :
  let lg := [[0; 0; 0; 0]] in
  let mk := [[true; false; true; false]] in
  Downsize.base (Downsize.CategoricalMasked_init lg mk) = Maxcho.CategoricalMasked_init lg mk /\
  Maxcho.CategoricalMasked_init lg mk = MaxchoV2.CategoricalMasked_init lg mk.
Proof.
  intros lg mk.
  exact (proj1 (@variants_build_the_same_distribution lg mk
                  ltac:(unfold mk; discriminate))).
Defined.

Lemma map_rows_of_init {B : Type} (g : list R -> list R -> B) (lg : tensor R) :
  map (fun lp : list R * list R => g (fst lp) (snd lp))
      (combine (logits (Categorical_init lg)) (probs (Categorical_init lg)))
  = map (fun l => g (normalize l) (softmax l)) lg.
Proof.
  unfold probs, Categorical_init. simpl.
  induction lg as [|l lg IH]; simpl; [reflexivity|].
  rewrite softmax_normalize. f_equal. exact IH.
Qed.

Lemma length_mul_rows (a b : list R) :
  length (mul_rows a b) = Nat.min (length a) (length b).
Proof. unfold mul_rows. rewrite length_map. apply length_combine. Qed.

(** The entropy of [ppo_diverse_downsize.py] under an all-true mask is the
    inherited one. *)
Lemma downsize_entropy_all_true (lg : tensor R) (mk : tensor bool) :
  Forall2 (fun m r => length m = length r /\ Forall (fun b => b = true) m) mk lg ->
  Downsize.entropy (Downsize.CategoricalMasked_init lg mk)
  = Torch.entropy (Categorical_init lg).
Proof.
  intros H. destruct mk as [|m mk].
  - inversion H; subst. reflexivity.
  - rewrite downsize_init_nonempty by discriminate.
    rewrite where_all_true by exact H.
    unfold Downsize.entropy. cbn [Downsize.masks Downsize.base].
    cbn [length Nat.eqb].
    rewrite (map_rows_of_init mul_rows).
    rewrite where_all_true.
    + unfold Torch.entropy.
      rewrite (map_rows_of_init (fun a b => - sum_list (mul_rows a b))).
      rewrite map_map. reflexivity.
    + clear -H. induction H as [|m' r mk' lg' [Hl Ht] _ IH]; simpl; constructor.
      * split; [|exact Ht].
        rewrite length_mul_rows, length_normalize, length_softmax. lia.
      * exact IH.
Qed.

(** C9.  A mask of the shape of the logits whose entries are all true
    changes nothing: in each of the three files the masked distribution is
    the unmasked [Categorical] of the same logits, so [sample] and
    [log_prob] are the same, and [entropy] returns the same value. *)
Theorem all_true_mask_is_unmasked (lg : tensor R) (mk : tensor bool) :
  Forall2 (fun m r => length m = length r /\ Forall (fun b => b = true) m) mk lg ->
  (Downsize.base (Downsize.CategoricalMasked_init lg mk) = Categorical_init lg /\
   Maxcho.CategoricalMasked_init lg mk = Categorical_init lg /\
   MaxchoV2.CategoricalMasked_init lg mk = Categorical_init lg) /\
  (forall w, sample (Downsize.base (Downsize.CategoricalMasked_init lg mk)) w
             = sample (Categorical_init lg) w /\
             sample (Maxcho.CategoricalMasked_init lg mk) w
             = sample (Categorical_init lg) w /\
             sample (MaxchoV2.CategoricalMasked_init lg mk) w
             = sample (Categorical_init lg) w) /\
  (forall v, log_prob (Downsize.base (Downsize.CategoricalMasked_init lg mk)) v
             = log_prob (Categorical_init lg) v /\
             log_prob (Maxcho.CategoricalMasked_init lg mk) v
             = log_prob (Categorical_init lg) v /\
             log_prob (MaxchoV2.CategoricalMasked_init lg mk) v
             = log_prob (Categorical_init lg) v) /\
  (Downsize.entropy (Downsize.CategoricalMasked_init lg mk)
   = Torch.entropy (Categorical_init lg) /\
   Maxcho.entropy (Maxcho.CategoricalMasked_init lg mk)
   = Torch.entropy (Categorical_init lg) /\
   MaxchoV2.entropy (MaxchoV2.CategoricalMasked_init lg mk)
   = Torch.entropy (Categorical_init lg)).
Proof.
  intros H.
  assert (E2 : Maxcho.CategoricalMasked_init lg mk = Categorical_init lg).
  { unfold Maxcho.CategoricalMasked_init. rewrite where_all_true by exact H. reflexivity. }
  assert (E3 : MaxchoV2.CategoricalMasked_init lg mk = Categorical_init lg) by exact E2.
  assert (E1 : Downsize.base (Downsize.CategoricalMasked_init lg mk) = Categorical_init lg).
  { destruct mk as [|m mk].
    - reflexivity.
    - rewrite downsize_init_nonempty by discriminate. exact E2. }
  split; [repeat split; assumption|].
  rewrite E1, E2, E3. split; [repeat split; reflexivity|].
  split; [repeat split; reflexivity|].
  split; [apply downsize_entropy_all_true; exact H|].
  split; reflexivity.
Qed.

(** A batch of two rows under an all-true mask. *)
Lemma all_true_mask_is_unmasked_witness :
  Maxcho.CategoricalMasked_init [[0; 1; 2]; [3; 4; 5]]
                                [[true; true; true]; [true; true; true]]
  = Categorical_init [[0; 1; 2]; [3; 4; 5]].
Proof.
  refine (proj1 (proj2 (proj1 (@all_true_mask_is_unmasked
            [[0; 1; 2]; [3; 4; 5]] [[true; true; true]; [true; true; true]] _)))).
  repeat constructor.
Defined.

End Agreement.

(** ** How much probability the masked-out indices keep *)

Section Masking.

Local Open Scope R_scope.

(** The distribution built from one row of logits and one row of mask. *)
Lemma single_row_init (l : list R) (m : list bool) (d : Categorical) :
  d = Downsize.base (Downsize.CategoricalMasked_init [l] [m]) \/
  d = Maxcho.CategoricalMasked_init [l] [m] \/
  d = MaxchoV2.CategoricalMasked_init [l] [m] ->
  logits d = [normalize (where_row m l sentinel)] /\
  probs d = [softmax (where_row m l sentinel)].
Proof.
  intros Hd.
  assert (E : d = Categorical_init [where_row m l sentinel]).
  { destruct Hd as [->|[->| ->]]; [|reflexivity|reflexivity].
    rewrite downsize_init_nonempty by discriminate. reflexivity. }
  rewrite E. unfold probs, Categorical_init. cbn [logits map].
  rewrite softmax_normalize. split; reflexivity.
Qed.

Lemma two_way_share (x y : R) :
  0 < x -> x <= y -> x / (x + (y + 0)) <= 1 / 2 /\ 1 / 2 <= y / (x + (y + 0)).
Proof.
  intros Hx Hxy.
  assert (HS : 0 < x + (y + 0)) by lra.
  split.
  - replace (1 / 2) with ((x + (y + 0)) / 2 / (x + (y + 0))) by (field; lra).
    unfold Rdiv at 1 3. apply Rmult_le_compat_r.
    + left. apply Rinv_0_lt_compat. exact HS.
    + lra.
  - replace (1 / 2) with ((x + (y + 0)) / 2 / (x + (y + 0))) by (field; lra).
    unfold Rdiv at 2 3. apply Rmult_le_compat_r.
    + left. apply Rinv_0_lt_compat. exact HS.
    + lra.
Qed.

(** The probabilities of the logits [-2e8, 0] under the mask [T, F]. *)
Lemma probs_of_low_logit :
  probs (Maxcho.CategoricalMasked_init [[-200000000; 0]] [[true; false]])
  = [[exp (-200000000) / (exp (-200000000) + (exp (-100000000) + 0));
      exp (-100000000) / (exp (-200000000) + (exp (-100000000) + 0))]].
Proof.
  destruct (@single_row_init [-200000000; 0] [true; false] _
              (or_intror (or_introl eq_refl))) as [_ ->].
  reflexivity.
Qed.

Lemma low_logit_shares :
  exp (-200000000) / (exp (-200000000) + (exp (-100000000) + 0)) <= 1 / 2 /\
  1 / 2 <= exp (-100000000) / (exp (-200000000) + (exp (-100000000) + 0)).
Proof.
  apply two_way_share; [apply exp_pos|].
  left. apply exp_increasing. lra.
Qed.

(** C1, as stated, fails.  With the logits [-2e8, 0] and the mask [T, F]
    the masked-out index 1 has probability at least one half, and the draw
    [u = 1/2] makes [sample()] return it. *)
Lemma sample_returns_masked_out_index :
  let mk := [[true; false]] in
  let d := Maxcho.CategoricalMasked_init [[-200000000; 0]] mk in
  sample d (mkWorld (fun _ => 1 / 2) 0 [])
    = Ok [1%nat] (mkWorld (fun _ => 1 / 2) 1 [Sample [1%nat]]) /\
  at2 mk 0 1 = Some false /\
  exists p, at2 (probs d) 0 1 = Some p /\ 1 / 2 <= p.
Proof.
  intros mk d. pose proof low_logit_shares as [H0 H1]. split; [|split].
  - unfold sample, d, mk. rewrite probs_of_low_logit.
    cbn [sample_rows draws cursor trace length Nat.add app multinomial].
    destruct (Rlt_dec _ _) as [H|H]; [lra|reflexivity].
  - reflexivity.
  - unfold d, mk. rewrite probs_of_low_logit. eexists. split; [reflexivity|exact H1].
Qed.

(** C1, amended.  In each of the three files, for a row of logits and a
    mask of the same length, the distribution that [sample()] draws from
    gives a masked-out index a probability of at most [exp (-1e8 - l_j)],
    whatever masked-in index [j] with logit [l_j] is taken. *)
Theorem masked_out_probability_is_small (l : list R) (m : list bool)
    (i j : nat) (lj : R) (d : Categorical) :
  length m = length l ->
  nth_error m i = Some false ->
  nth_error m j = Some true -> nth_error l j = Some lj ->
  d = Downsize.base (Downsize.CategoricalMasked_init [l] [m]) \/
  d = Maxcho.CategoricalMasked_init [l] [m] \/
  d = MaxchoV2.CategoricalMasked_init [l] [m] ->
  exists p, at2 (probs d) 0 i = Some p /\ 0 <= p <= exp (-100000000 - lj).
Proof.
  intros Hlen Hi Hj Hlj Hd.
  destruct (single_row_init Hd) as [_ Hp].
  assert (Hli : exists li, nth_error l i = Some li).
  { destruct (nth_error l i) eqn:E; [eauto|].
    apply nth_error_None in E. assert (Hs : nth_error m i <> None) by congruence.
    apply nth_error_Some in Hs. lia. }
  destruct Hli as [li Hli].
  pose proof (nth_error_where_row m l sentinel i) as Ei.
  pose proof (nth_error_where_row m l sentinel j) as Ej.
  rewrite Hi, Hli in Ei. rewrite Hj, Hlj in Ej.
  unfold at2. rewrite Hp. cbn [nth_error].
  destruct (nth_error (softmax (where_row m l sentinel)) i) as [p|] eqn:Ep.
  - exists p. split; [reflexivity|].
    pose proof (@softmax_le_ratio _ _ _ _ _ _ Ei Ej Ep) as [H0 H1].
    unfold sentinel in H1. lra.
  - rewrite nth_error_softmax, Ei in Ep. discriminate.
Qed.

(** The masked-out index 1 of the row [0, 0, 0, 0] under the mask
    [T, F, T, F], against the masked-in index 0. *)
Lemma masked_out_probability_is_small_witness :
  exists p,
    at2 (probs (Maxcho.CategoricalMasked_init [[0; 0; 0; 0]]
                                              [[true; false; true; false]])) 0 1
      = Some p /\
    0 <= p <= exp (-100000000 - 0).
Proof.
  apply (@masked_out_probability_is_small
           [0; 0; 0; 0] [true; false; true; false] 1 0 0);
    [reflexivity | reflexivity | reflexivity | reflexivity |].
  right. left. reflexivity.
Defined.

End Masking.

(** ** Rows of ordinary size *)

Section Ordinary.

Local Open Scope R_scope.




Lemma nth_error_some_lt {A : Type} (l : list A) (i : nat) (a : A) :
  nth_error l i = Some a -> (i < length l)%nat.
Proof. intros H. apply nth_error_Some. congruence. Qed.

Lemma nth_error_lt_some {A : Type} (l : list A) (i : nat) :
  (i < length l)%nat -> exists a, nth_error l i = Some a.
Proof.
  intros H. destruct (nth_error l i) as [a|] eqn:E; [eauto|].
  apply nth_error_None in E. lia.
Qed.

(** What [ordinary] says of the effective logits of the row. *)
Lemma ordinary_effective (m : list bool) (l : list R) :
  ordinary m l ->
  let eff := where_row m l sentinel in
  length eff = length l /\ eff <> [] /\
  Forall (fun y => y <= 16) eff /\
  (forall i, nth_error m i = Some true ->
     exists x, nth_error l i = Some x /\ nth_error eff i = Some x /\ - 16 <= x <= 16) /\
  (forall i, nth_error m i = Some false -> nth_error eff i = Some sentinel) /\
  exists j, nth_error m j = Some true.
Proof.
  intros (Hlen & Hin & Hb) eff.
  assert (Hlen' : length eff = length l).
  { unfold eff. rewrite length_where_row. lia. }
  assert (Hj : exists j, nth_error m j = Some true) by (apply In_nth_error; exact Hin).
  assert (Hmin : forall i, nth_error m i = Some true ->
            exists x, nth_error l i = Some x /\ nth_error eff i = Some x
                      /\ - 16 <= x <= 16).
  { intros i Hi. pose proof (nth_error_some_lt _ _ Hi) as Hlt.
    destruct (@nth_error_lt_some _ l i ltac:(lia)) as [x Hx].
    exists x. split; [exact Hx|]. split.
    - unfold eff. rewrite nth_error_where_row, Hi, Hx. reflexivity.
    - apply Rabs_le_between. apply (Hb i x Hi Hx). }
  split; [exact Hlen'|]. split.
  { destruct Hj as [j Hj]. destruct (Hmin j Hj) as (x & _ & Hx & _).
    intros E. rewrite E in Hx. destruct j; discriminate. }
  split.
  { apply Forall_forall. intros y Hy. destruct (In_nth_error _ _ Hy) as [i Hi].
    unfold eff in Hi. rewrite nth_error_where_row in Hi.
    destruct (nth_error m i) as [[|]|] eqn:Em; try discriminate.
    - destruct (Hmin i Em) as (x & Hx & _ & Hbx). rewrite Hx in Hi.
      injection Hi as <-. lra.
    - destruct (nth_error l i); [|discriminate]. injection Hi as <-.
      unfold sentinel. lra. }
  split; [exact Hmin|]. split; [|exact Hj].
  intros i Hi. pose proof (nth_error_some_lt _ _ Hi) as Hlt.
  destruct (@nth_error_lt_some _ l i ltac:(lia)) as [x Hx].
  unfold eff. rewrite nth_error_where_row, Hi, Hx. reflexivity.
Qed.




End Ordinary.

(** ** The probability mass of the masked-in indices *)

Section Mass.

Local Open Scope R_scope.

Lemma sum_where_split (m : list bool) (p : list R) :
  length m = length p ->
  sum_list (where_row m p 0) + sum_list (where_row (map negb m) p 0) = sum_list p.
Proof.
  revert p. induction m as [|b m IH]; intros [|x p] Hl; simpl in Hl; try discriminate.
  - unfold where_row. simpl. lra.
  - injection Hl as Hl. specialize (IH _ Hl). unfold where_row in *. simpl.
    destruct b; simpl; lra.
Qed.




(** The logarithm of a softmax probability is the normalised logit. *)
Lemma ln_softmax (r : list R) (x : R) :
  r <> [] -> ln (exp x / sum_list (map exp r)) = x - logsumexp r.
Proof.
  intros Hr. rewrite <- exp_minus_logsumexp by exact Hr. apply ln_exp.
Qed.



(** A sufficient condition for [ordinary] that can be checked entry by
    entry. *)
Lemma ordinary_intro (m : list bool) (l : list R) :
  length m = length l -> existsb (fun b => b) m = true ->
  Forall (fun x => Rabs x <= 16) l -> ordinary m l.
Proof.
  intros Hlen He Hb. split; [exact Hlen|]. split.
  - apply existsb_exists in He. destruct He as (b & Hin & Hb'). subst b. exact Hin.
  - intros i x _ Hx. rewrite Forall_forall in Hb. apply Hb.
    eapply nth_error_In. exact Hx.
Qed.


End Mass.

(** ** Entropy *)

Section Entropy.

Local Open Scope R_scope.

Lemma mul_rows_map (f g : R -> R) (r : list R) :
  mul_rows (map f r) (map g r) = map (fun x => f x * g x) r.
Proof.
  unfold mul_rows. induction r as [|x r IH]; simpl; [reflexivity|].
  f_equal. exact IH.
Qed.

(** Logit times probability is probability times its logarithm. *)
Lemma p_log_p_row (r : list R) :
  mul_rows (normalize r) (softmax r) = map (fun p => p * ln p) (softmax r).
Proof.
  unfold normalize, softmax at 1 2. rewrite mul_rows_map, map_map.
  apply map_ext_in. intros x Hx.
  assert (Hr : r <> []) by (intros ->; destruct Hx).
  rewrite ln_softmax by exact Hr. ring.
Qed.

(** The override of [ppo_diverse_downsize.py] returns the Shannon entropy
    summed over the masked-in indices only. *)
Lemma downsize_entropy_is_masked (l : list R) (m : list bool) :
  Downsize.entropy (Downsize.CategoricalMasked_init [l] [m])
  = [masked_shannon_entropy m (softmax (where_row m l sentinel))].
Proof.
  rewrite downsize_init_nonempty by discriminate.
  unfold Downsize.entropy. cbn [Downsize.masks Downsize.base length Nat.eqb].
  rewrite (map_rows_of_init mul_rows).
  unfold where_ at 2. cbn [map combine fst snd].
  rewrite p_log_p_row. reflexivity.
Qed.

(** The inherited entropy sums over every index. *)
Lemma inherited_entropy_row (l : list R) (m : list bool) :
  Torch.entropy (Categorical_init (where_ [m] [l] sentinel))
  = [- sum_list (map (fun p => p * ln p) (softmax (where_row m l sentinel)))].
Proof.
  unfold Torch.entropy.
  rewrite (map_rows_of_init (fun a b => - sum_list (mul_rows a b))).
  unfold where_. cbn [map combine fst snd].
  rewrite p_log_p_row. reflexivity.
Qed.

(** C3 fails in [ppo_diverse_maxcho.py] and [ppo_maxcho_v2.py].  With the
    logits [-99999992, 0] and the mask [T, F], [entropy()] of these two
    files is larger than the Shannon entropy summed over the masked-in
    indices, which is what [ppo_diverse_downsize.py] returns: the
    masked-out index contributes a positive term. *)
Theorem inherited_entropy_counts_masked_out :
  let lg := [[-99999992; 0]] in
  let m := [true; false] in
  exists (p : list R) (h : R),
    probs (Maxcho.CategoricalMasked_init lg [m]) = [p] /\
    Maxcho.entropy (Maxcho.CategoricalMasked_init lg [m]) = [h] /\
    MaxchoV2.entropy (MaxchoV2.CategoricalMasked_init lg [m]) = [h] /\
    Downsize.entropy (Downsize.CategoricalMasked_init lg [m])
      = [masked_shannon_entropy m p] /\
    masked_shannon_entropy m p < h.
Proof.
  intros lg m.
  destruct (@single_row_init [-99999992; 0] m _ (or_intror (or_introl eq_refl)))
    as [_ Hp].
  set (eff := where_row m [-99999992; 0] sentinel) in *.
  exists (softmax eff),
         (- sum_list (map (fun p => p * ln p) (softmax eff))).
  split; [exact Hp|].
  split; [apply inherited_entropy_row|].
  split; [apply inherited_entropy_row|].
  split; [apply downsize_entropy_is_masked|].
  assert (Heff : eff = [-99999992; -100000000]) by reflexivity.
  unfold masked_shannon_entropy. rewrite Heff.
  unfold softmax, where_row, m. cbn [map combine fst snd sum_list fold_right].
  set (S := exp (-99999992) + (exp (-100000000) + 0)).
  pose proof (exp_pos (-99999992)) as Ha. pose proof (exp_pos (-100000000)) as Hs.
  assert (HS : 0 < S) by (unfold S; lra).
  assert (Hp1 : 0 < exp (-100000000) / S) by (apply Rdiv_lt_0_compat; assumption).
  assert (Hlt : exp (-100000000) / S < 1).
  { apply (Rmult_lt_reg_r S); [exact HS|].
    unfold Rdiv. rewrite Rmult_assoc, Rinv_l by lra. unfold S. lra. }
  assert (Hln : ln (exp (-100000000) / S) < 0).
  { rewrite <- ln_1. apply ln_increasing; assumption. }
  nra.
Qed.

End Entropy.

(** ** The loops of [get_action], in closed form *)

Section Loops.

Lemma advance_zero (w : world) : advance w 0 [] = w.
Proof.
  destruct w as [g c t]. unfold advance. simpl.
  rewrite Nat.add_0_r, app_nil_r. reflexivity.
Qed.

Lemma advance_advance (w : world) (n1 n2 : nat) (e1 e2 : list event) :
  advance (advance w n1 e1) n2 e2 = advance w (n1 + n2) (e1 ++ e2).
Proof.
  unfold advance. simpl. rewrite Nat.add_assoc, app_assoc. reflexivity.
Qed.

Lemma tell_advance (e : event) (w : world) : tell e w = Ok tt (advance w 0 [e]).
Proof. unfold tell, advance. rewrite Nat.add_0_r. reflexivity. Qed.

Lemma construct_advance {A : Type} (d : A) (w : world) :
  construct d w = Ok d (advance w 0 [Construct]).
Proof. unfold construct, bind. rewrite tell_advance. reflexivity. Qed.

Lemma sample_advance (d : Categorical) (w : world) :
  sample d w
  = Ok (sample_rows (probs d) (draws w) (cursor w))
       (advance w (length (probs d)) [Sample (sample_rows (probs d) (draws w) (cursor w))]).
Proof. reflexivity. Qed.

(** A list comprehension that builds one object per element. *)
Lemma mapM_construct {A B : Type} (f : A -> B) (l : list A) (w : world) :
  mapM (fun a => construct (f a)) l w
  = Ok (map f l) (advance w 0 (repeat Construct (length l))).
Proof.
  revert w. induction l as [|a l IH]; intros w; simpl.
  - unfold ret. rewrite advance_zero. reflexivity.
  - unfold bind at 1. rewrite construct_advance.
    unfold bind at 1. rewrite IH. unfold ret.
    rewrite advance_advance. reflexivity.
Qed.

(** The comprehension over [log_prob] changes nothing in the world. *)
Lemma mapM_log_prob (cas : list (Categorical * list nat)) (w : world) :
  mapM (fun ca : Categorical * list nat =>
          lift_option (RuntimeError gather_msg) (log_prob (fst ca) (snd ca))) cas w
  = match log_probs cas with
    | Some xs => Ok xs w
    | None => Raise (RuntimeError gather_msg) w
    end.
Proof.
  induction cas as [|ca cas IH]; simpl; [reflexivity|].
  unfold bind at 1. destruct (log_prob (fst ca) (snd ca)) as [x|]; simpl.
  - unfold bind at 1. rewrite IH. destruct (log_probs cas); reflexivity.
  - reflexivity.
Qed.

(** The loop of the two [maxcho] files: build a distribution, draw from it. *)
Lemma mapM_construct_sample {A : Type} (f : A -> Categorical) (l : list A) (w : world) :
  mapM (fun a => c <- construct (f a) ;; sample c) l w
  = Ok (sample_all (map f l) (draws w) (cursor w))
       (advance w (rows_total (map f l))
          (flat_map (fun s => [Construct; Sample s])
                    (sample_all (map f l) (draws w) (cursor w)))).
Proof.
  revert w. induction l as [|a l IH]; intros w; simpl.
  - unfold ret. rewrite advance_zero. reflexivity.
  - unfold bind at 1. unfold bind at 1. rewrite construct_advance.
    rewrite sample_advance. unfold bind at 1. rewrite IH. unfold ret.
    rewrite !advance_advance. simpl. rewrite Nat.add_0_r. reflexivity.
Qed.

(** The comprehension of [ppo_diverse_downsize.py] that draws from
    distributions built before. *)
Lemma mapM_sample {A : Type} (f : A -> Categorical) (l : list A) (w : world) :
  mapM (fun a => sample (f a)) l w
  = Ok (sample_all (map f l) (draws w) (cursor w))
       (advance w (rows_total (map f l))
          (map Sample (sample_all (map f l) (draws w) (cursor w)))).
Proof.
  revert w. induction l as [|a l IH]; intros w; simpl.
  - unfold ret. rewrite advance_zero. reflexivity.
  - unfold bind at 1. rewrite sample_advance. unfold bind at 1. rewrite IH.
    unfold ret. rewrite !advance_advance. reflexivity.
Qed.

End Loops.

(** ** [get_action] in closed form *)

Section ClosedForms.

Context {X : Type}.

(** Evaluation mode of [ppo_diverse_maxcho.py]: the distributions are built
    from the blocks of the given mask, and the given action and mask come
    back. *)
Lemma maxcho_eval_closed (self : MaxchoAgent.Agent X) (obs : list X)
    (act : tensor nat) (iam : tensor bool) (w : world) :
  MaxchoAgent.get_action self obs (Some act) (Some iam) w =
  let splits := nvec (MaxchoAgent.envs self) in
  let pairs := combine (split (MaxchoAgent.network self obs) splits) (split iam splits) in
  let cats := map (fun lm : tensor R * tensor bool =>
                     Maxcho.CategoricalMasked_init (fst lm) (as_bool (snd lm))) pairs in
  let w' := advance w 0 (repeat Construct (length pairs)) in
  match log_probs (combine cats act) with
  | None => Raise (RuntimeError gather_msg) w'
  | Some [] => Raise (RuntimeError stack_msg) w'
  | Some lps => Ok (act, sum0 lps, sum0 (map Maxcho.entropy cats), iam) w'
  end.
Proof.
  unfold MaxchoAgent.get_action. cbn [lift_option].
  unfold bind at 1. unfold bind at 1. unfold ret at 1. unfold ret at 1.
  unfold bind at 1. rewrite mapM_construct.
  unfold bind at 1. rewrite mapM_log_prob.
  cbv zeta. set (pairs := combine (split _ _) (split iam _)).
  destruct (log_probs _) as [[|lp lps]|] eqn:E; [reflexivity| |reflexivity].
  destruct pairs as [|p ps]; [discriminate|]. reflexivity.
Qed.

(** Sampling mode of [ppo_diverse_maxcho.py]: the two checks, the two
    queries and the draws, followed by what evaluation mode does with the
    action and the mask just obtained. *)
Lemma maxcho_sample_closed (self : MaxchoAgent.Agent X) (obs : list X)
    (iam0 : option (tensor bool)) (w : world) :
  MaxchoAgent.get_action self obs None iam0 w =
  let splits := nvec (MaxchoAgent.envs self) in
  let client := vec_client (MaxchoAgent.envs self) in
  let split_logits := split (MaxchoAgent.network self obs) splits in
  let src := reshape (length obs) (as_bool (getUnitLocationMasks client)) in
  let w1 := advance w 0 [GetUnitLocationMasks] in
  if Nat.eqb (count_true src) 0 then Raise (RuntimeError source_msg) w1 else
  match nth_error split_logits 0 with
  | None => Raise IndexError w1
  | Some l0 =>
      let d0 := Maxcho.CategoricalMasked_init l0 src in
      let a0 := sample_rows (probs d0) (draws w) (cursor w) in
      let pm := reshape (length a0) (as_bool (getUnitActionMasks client a0)) in
      let w2 := advance w (length (probs d0))
                  [GetUnitLocationMasks; Construct; Sample a0; GetUnitActionMasks a0] in
      if Nat.eqb (count_true pm) 0 then Raise (RuntimeError param_msg) w2 else
      let ds := map (fun lm : tensor R * tensor bool =>
                       Maxcho.CategoricalMasked_init (fst lm) (snd lm))
                    (combine (tl split_logits) (split pm (tl splits))) in
      let rest := sample_all ds (draws w) (cursor w + length (probs d0)) in
      let w3 := advance w2 (rows_total ds)
                  (flat_map (fun s => [Construct; Sample s]) rest) in
      MaxchoAgent.get_action self obs (Some (a0 :: rest)) (Some (cat src pm)) w3
  end.
Proof.
  cbv zeta. unfold MaxchoAgent.get_action at 1.
  unfold MaxchoAgent._get_source_mask, MaxchoAgent._get_action_mask,
    call_getUnitLocationMasks, call_getUnitActionMasks.
  unfold bind at 1. unfold bind at 1. unfold bind at 1. unfold bind at 1.
  rewrite tell_advance. unfold ret at 1. unfold ret at 1.
  destruct (Nat.eqb (count_true _) 0) eqn:E0; [reflexivity|].
  unfold bind at 1.
  destruct (nth_error _ 0) as [l0|] eqn:El0; cbn [lift_option]; [|reflexivity].
  unfold ret at 1.
  unfold bind at 1. rewrite construct_advance.
  unfold bind at 1. rewrite sample_advance.
  unfold bind at 1. unfold bind at 1. unfold bind at 1.
  rewrite tell_advance. unfold ret at 1. unfold ret at 1.
  rewrite !advance_advance.
  cbn [draws cursor advance Nat.add app]. rewrite !Nat.add_0_r.
  match goal with
  | |- context [Nat.eqb (count_true (reshape (length (sample_rows ?a ?b ?c)) ?d)) 0] =>
      destruct (Nat.eqb (count_true (reshape (length (sample_rows a b c)) d)) 0) eqn:E1
  end; [reflexivity|].
  unfold bind at 1. rewrite mapM_construct_sample. unfold ret at 1.
  unfold MaxchoAgent.get_action. cbn [lift_option].
  rewrite !advance_advance.
  reflexivity.
Qed.

(** [ppo_maxcho_v2.py] has the [get_action] of [ppo_diverse_maxcho.py]. *)
Lemma maxcho_v2_is_maxcho (self : MaxchoV2Agent.Agent X) (obs : list X)
    (action : option (tensor nat)) (iam : option (tensor bool)) :
  MaxchoV2Agent.get_action self obs action iam
  = MaxchoAgent.get_action (as_maxcho self) obs action iam.
Proof. reflexivity. Qed.

Lemma combine_swap_base (act : tensor nat) (cs : list Downsize.CategoricalMasked) :
  map (fun ac : list nat * Downsize.CategoricalMasked =>
         (Downsize.base (snd ac), fst ac)) (combine act cs)
  = combine (map Downsize.base cs) act.
Proof.
  revert cs. induction act as [|a act IH]; intros [|c cs]; simpl; try reflexivity.
  f_equal. apply IH.
Qed.

Lemma mapM_log_prob_downsize (acs : list (list nat * Downsize.CategoricalMasked))
    (w : world) :
  mapM (fun ac : list nat * Downsize.CategoricalMasked =>
          lift_option (RuntimeError gather_msg)
                      (log_prob (Downsize.base (snd ac)) (fst ac))) acs w
  = match log_probs (map (fun ac : list nat * Downsize.CategoricalMasked =>
                            (Downsize.base (snd ac), fst ac)) acs) with
    | Some xs => Ok xs w
    | None => Raise (RuntimeError gather_msg) w
    end.
Proof.
  induction acs as [|ac acs IH]; simpl; [reflexivity|].
  unfold bind at 1. destruct (log_prob (Downsize.base (snd ac)) (fst ac)) as [x|]; simpl.
  - unfold bind at 1. rewrite IH. destruct (log_probs _); reflexivity.
  - reflexivity.
Qed.

(** Evaluation mode of [ppo_diverse_downsize.py]. *)
Lemma downsize_eval_closed (self : DownsizeAgent.Agent X) (x : list X)
    (act : tensor nat) (iam : tensor Z) (envs : Envs) (w : world) :
  DownsizeAgent.get_action self x (Some act) (Some iam) envs w =
  let pairs := combine (split (DownsizeAgent.network self x) (nvec envs))
                       (split iam (nvec envs)) in
  let cats := map (fun li : tensor R * tensor Z =>
                     Downsize.CategoricalMasked_init (fst li) (snd li)) pairs in
  let w' := advance w 0 (repeat Construct (length pairs)) in
  match log_probs (combine (map Downsize.base cats) act) with
  | None => Raise (RuntimeError gather_msg) w'
  | Some [] => Raise (RuntimeError stack_msg) w'
  | Some lps => Ok (act, sum0 lps, sum0 (map Downsize.entropy cats), iam) w'
  end.
Proof.
  unfold DownsizeAgent.get_action. cbn [lift_option].
  unfold bind at 1. unfold bind at 1. unfold bind at 1. unfold ret at 1.
  rewrite mapM_construct. unfold ret at 1.
  unfold bind at 1. rewrite mapM_log_prob_downsize, combine_swap_base.
  cbv zeta. set (pairs := combine (split _ _) (split iam _)).
  destruct (log_probs _) as [[|lp lps]|] eqn:E; [reflexivity| |reflexivity].
  destruct pairs as [|p ps]; [discriminate|]. reflexivity.
Qed.

(** Sampling mode of [ppo_diverse_downsize.py]. *)
Lemma downsize_sample_closed (self : DownsizeAgent.Agent X) (x : list X)
    (iam0 : option (tensor Z)) (envs : Envs) (w : world) :
  DownsizeAgent.get_action self x None iam0 envs w =
  let client := vec_client envs in
  let split_logits := split (DownsizeAgent.network self x) (nvec envs) in
  let src := reshape (DownsizeAgent.num_envs self) (getUnitLocationMasks client) in
  match nth_error split_logits 0 with
  | None => Raise IndexError (advance w 0 [GetUnitLocationMasks])
  | Some l0 =>
      let c0 := Downsize.CategoricalMasked_init l0 src in
      let a0 := sample_rows (probs (Downsize.base c0)) (draws w) (cursor w) in
      let pm := reshape (DownsizeAgent.num_envs self) (getUnitActionMasks client a0) in
      let cs := map (fun li : tensor R * tensor Z =>
                       Downsize.CategoricalMasked_init (fst li) (snd li))
                    (combine (tl split_logits) (split pm (tl (nvec envs)))) in
      let rest := sample_all (map Downsize.base cs) (draws w)
                    (cursor w + length (probs (Downsize.base c0))) in
      let w' := advance w
                  (length (probs (Downsize.base c0)) + rows_total (map Downsize.base cs))
                  ([GetUnitLocationMasks; Construct; Sample a0; GetUnitActionMasks a0]
                   ++ repeat Construct (length cs) ++ map Sample rest) in
      match log_probs (combine (map Downsize.base (c0 :: cs)) (a0 :: rest)) with
      | None => Raise (RuntimeError gather_msg) w'
      | Some [] => Raise (RuntimeError stack_msg) w'
      | Some lps =>
          Ok (a0 :: rest, sum0 lps, sum0 (map Downsize.entropy (c0 :: cs)), cat src pm) w'
      end
  end.
Proof.
  cbv zeta. unfold DownsizeAgent.get_action.
  unfold call_getUnitLocationMasks, call_getUnitActionMasks.
  unfold bind at 1. unfold bind at 1. unfold bind at 1.
  rewrite tell_advance. unfold ret at 1.
  unfold bind at 1.
  destruct (nth_error _ 0) as [l0|] eqn:El0; cbn [lift_option]; [|reflexivity].
  unfold ret at 1.
  unfold bind at 1. rewrite construct_advance.
  unfold bind at 1. rewrite sample_advance.
  unfold bind at 1. unfold bind at 1.
  rewrite tell_advance. unfold ret at 1.
  unfold bind at 1. rewrite mapM_construct.
  unfold bind at 1. cbn [tl]. rewrite mapM_sample. unfold ret at 1.
  unfold bind at 1. rewrite mapM_log_prob_downsize, combine_swap_base.
  rewrite !advance_advance.
  cbn [draws cursor advance Nat.add]. rewrite !Nat.add_0_r.
  rewrite length_map.
  destruct (log_probs _) as [[|lp lps]|]; reflexivity.
Qed.

End ClosedForms.

(** ** Shapes: blocks, concatenation, and indices inside their rows *)

Section Shapes.

Lemma length_chunks {A : Type} (w n : nat) (l : list A) :
  length (chunks w n l) = n.
Proof.
  revert l. induction n as [|n IH]; intros l; simpl; [reflexivity|].
  rewrite IH. reflexivity.
Qed.

Lemma length_reshape {A : Type} (B : nat) (t : tensor A) : length (reshape B t) = B.
Proof. unfold reshape. apply length_chunks. Qed.

Lemma length_sample_rows (ps : tensor R) (g : nat -> R) (c : nat) :
  length (sample_rows ps g c) = length ps.
Proof.
  revert c. induction ps as [|p ps IH]; intros c; simpl; [reflexivity|].
  rewrite IH. reflexivity.
Qed.

Lemma length_probs_init (lg : tensor R) : length (probs (Categorical_init lg)) = length lg.
Proof. unfold probs, Categorical_init. simpl. rewrite !length_map. reflexivity. Qed.

(** The blocks of a matrix of width [sum sizes] have the widths [sizes]. *)
Lemma width_split {A : Type} (sizes : list nat) (t : tensor A) :
  width (list_sum sizes) t ->
  Forall2 (fun seg n => width n seg) (split t sizes) sizes.
Proof.
  revert t. induction sizes as [|n ns IH]; intros t H; simpl; constructor.
  - unfold width in *. apply Forall_map. eapply Forall_impl; [|exact H].
    intros r Hr. simpl in Hr. rewrite length_firstn. lia.
  - apply IH. unfold width in *. apply Forall_map. eapply Forall_impl; [|exact H].
    intros r Hr. simpl in Hr. rewrite length_skipn. lia.
Qed.

Lemma firstn_cat {A : Type} (n0 : nat) (a b : tensor A) :
  width n0 a -> length a = length b -> map (firstn n0) (cat a b) = a.
Proof.
  intros Ha. revert b. induction a as [|ra a IH]; intros [|rb b] Hl; simpl in *;
    try discriminate; [reflexivity|].
  inversion Ha as [|? ? Hra Ha']; subst. unfold cat in *. simpl.
  rewrite firstn_app, Nat.sub_diag, firstn_all. simpl. rewrite app_nil_r.
  f_equal. apply IH; [exact Ha'|lia].
Qed.

Lemma skipn_cat {A : Type} (n0 : nat) (a b : tensor A) :
  width n0 a -> length a = length b -> map (skipn n0) (cat a b) = b.
Proof.
  intros Ha. revert b. induction a as [|ra a IH]; intros [|rb b] Hl; simpl in *;
    try discriminate; [reflexivity|].
  inversion Ha as [|? ? Hra Ha']; subst. unfold cat in *. simpl.
  rewrite skipn_app, Nat.sub_diag, skipn_all. simpl.
  f_equal. apply IH; [exact Ha'|lia].
Qed.

(** Splitting a concatenation gives the left part back, then the blocks of
    the right part. *)
Lemma split_cat {A : Type} (n0 : nat) (ns : list nat) (a b : tensor A) :
  width n0 a -> length a = length b ->
  split (cat a b) (n0 :: ns) = a :: split b ns.
Proof.
  intros Ha Hl. simpl. rewrite firstn_cat, skipn_cat by assumption. reflexivity.
Qed.

Lemma multinomial_lt (p : list R) (u : R) : p <> [] -> multinomial p u < length p.
Proof.
  revert u. induction p as [|x p IH]; intros u Hp; [congruence|].
  simpl. destruct p as [|y p]; [lia|].
  destruct (Rlt_dec u x); [simpl; lia|].
  apply -> Nat.succ_lt_mono. apply IH. discriminate.
Qed.

(** A draw from a distribution without empty rows is an index of its row. *)
Lemma sample_rows_valid (d : Categorical) (g : nat -> R) (c : nat) :
  Forall (fun r => r <> []) (logits d) ->
  valid_choice d (sample_rows (probs d) g c).
Proof.
  unfold valid_choice, probs. revert c.
  induction (logits d) as [|r rows IH]; intros c H; simpl; constructor.
  - inversion H; subst. rewrite <- (length_softmax r). apply multinomial_lt.
    intros E. apply (f_equal (@length R)) in E. rewrite length_softmax in E.
    destruct r; [congruence|discriminate].
  - apply IH. inversion H; assumption.
Qed.

Lemma sample_all_valid (ds : list Categorical) (g : nat -> R) (c : nat) :
  Forall (fun d => Forall (fun r => r <> []) (logits d)) ds ->
  Forall2 valid_choice ds (sample_all ds g c).
Proof.
  revert c. induction ds as [|d ds IH]; intros c H; simpl; constructor.
  - apply sample_rows_valid. inversion H; assumption.
  - apply IH. inversion H; assumption.
Qed.

Lemma gather_valid (rows : tensor R) (s : list nat) :
  Forall2 (fun r i => i < length r) rows s -> exists xs, gather rows s = Some xs.
Proof.
  induction 1 as [|r i rows s Hi _ [xs IH]]; simpl.
  - exists []. reflexivity.
  - destruct (nth_error r i) as [x|] eqn:E.
    + rewrite IH. exists (x :: xs). reflexivity.
    + apply nth_error_None in E. lia.
Qed.

Lemma log_probs_valid (ds : list Categorical) (ss : list (list nat)) :
  Forall2 valid_choice ds ss -> exists lps, log_probs (combine ds ss) = Some lps.
Proof.
  induction 1 as [|d s ds ss Hd _ [lps IH]]; simpl.
  - exists []. reflexivity.
  - destruct (gather_valid Hd) as [xs Hx]. unfold log_prob. rewrite Hx, IH.
    exists (xs :: lps). reflexivity.
Qed.

Lemma log_probs_cons_inv (ca : Categorical * list nat)
    (cas : list (Categorical * list nat)) (lps : list (list R)) :
  log_probs (ca :: cas) = Some lps -> exists lp rest, lps = lp :: rest.
Proof.
  simpl. destruct (log_prob (fst ca) (snd ca)), (log_probs cas); intros H;
    inversion H; eauto.
Qed.

(** Rows of positive width on both sides leave no empty row in the masked
    distribution. *)
Lemma init_rows_nonempty (n : nat) (lg : tensor R) (mk : tensor bool) :
  0 < n -> width n lg -> width n mk ->
  Forall (fun r => r <> []) (logits (Categorical_init (where_ mk lg sentinel))).
Proof.
  intros Hn Hlg Hmk. unfold Categorical_init. simpl. apply Forall_map.
  unfold where_. apply Forall_map. apply Forall_forall. intros [m l] Hin. simpl.
  assert (Hm : length m = n).
  { apply in_combine_l in Hin. unfold width in Hmk.
    rewrite Forall_forall in Hmk. apply Hmk. exact Hin. }
  assert (Hl : length l = n).
  { apply in_combine_r in Hin. unfold width in Hlg.
    rewrite Forall_forall in Hlg. apply Hlg. exact Hin. }
  intros E. apply (f_equal (@length R)) in E.
  rewrite length_normalize, length_where_row in E. simpl in E. lia.
Qed.

Lemma width_as_bool {A : Type} `{ToBool A} (n : nat) (t : tensor A) :
  width n t -> width n (as_bool t).
Proof.
  unfold width, as_bool. intros Ht. apply Forall_map.
  eapply Forall_impl; [|exact Ht]. intros r Hr. simpl in Hr.
  rewrite length_map. exact Hr.
Qed.

Lemma downsize_rows_nonempty {A : Type} `{ToBool A} (n : nat) (lg : tensor R)
    (mk : tensor A) :
  0 < n -> width n lg -> width n mk ->
  Forall (fun r => r <> [])
         (logits (Downsize.base (Downsize.CategoricalMasked_init lg mk))).
Proof.
  intros Hn Hlg Hmk. unfold Downsize.CategoricalMasked_init.
  destruct (Nat.eqb (length mk) 0).
  - cbn [Downsize.base]. unfold Categorical_init. cbn [logits].
    apply Forall_map. unfold width in Hlg. eapply Forall_impl; [|exact Hlg].
    intros r Hr E. simpl in Hr. apply (f_equal (@length R)) in E.
    rewrite length_normalize in E. simpl in E. lia.
  - cbn [Downsize.base]. apply init_rows_nonempty with (n := n);
      [exact Hn|exact Hlg|apply width_as_bool; exact Hmk].
Qed.

Lemma blocks_rows_nonempty {P : Type} (F : tensor R * tensor P -> Categorical)
    (ls : list (tensor R)) (ms : list (tensor P)) (ns : list nat) :
  (forall lm n, 0 < n -> width n (fst lm) -> width n (snd lm) ->
                Forall (fun r => r <> []) (logits (F lm))) ->
  Forall (fun n => 0 < n) ns ->
  Forall2 (fun seg n => width n seg) ls ns ->
  Forall2 (fun seg n => width n seg) ms ns ->
  Forall (fun d => Forall (fun r => r <> []) (logits d)) (map F (combine ls ms)).
Proof.
  intros HF Hns Hls. revert ms. induction Hls as [|l n ls ns Hl _ IH]; intros ms Hms.
  - constructor.
  - inversion Hms as [|m ? ms' ? Hm Hms']; subst. inversion Hns; subst. simpl.
    constructor.
    + apply HF with (n := n); assumption.
    + apply IH; assumption.
Qed.

End Shapes.

(** ** Sampling mode returns *)

Section Returns.

Context {X : Type}.

(** On inputs of the right shape, and unless a whole mask is false,
    sampling mode of [ppo_diverse_maxcho.py] returns. *)
Lemma maxcho_sample_returns (self : MaxchoAgent.Agent X) (obs : list X)
    (iam0 : option (tensor bool)) (w : world) (n0 : nat) (ns : list nat) :
  let client := vec_client (MaxchoAgent.envs self) in
  let src := reshape (length obs) (as_bool (getUnitLocationMasks client)) in
  nvec (MaxchoAgent.envs self) = n0 :: ns ->
  Forall (fun n => 0 < n) (n0 :: ns) ->
  length (MaxchoAgent.network self obs) = length obs ->
  width (list_sum (n0 :: ns)) (MaxchoAgent.network self obs) ->
  width n0 src -> count_true src <> 0 ->
  (forall units, length units = length obs ->
     width (list_sum ns) (reshape (length units) (as_bool (getUnitActionMasks client units)))
     /\ count_true (reshape (length units) (as_bool (getUnitActionMasks client units))) <> 0) ->
  exists r w', MaxchoAgent.get_action self obs None iam0 w = Ok r w'.
Proof.
  intros client src Hnvec Hpos Hlen Hw Hsrc Hcount Hact.
  rewrite maxcho_sample_closed. cbv zeta. fold client. fold src.
  rewrite Hnvec. apply Nat.eqb_neq in Hcount. rewrite Hcount.
  pose proof (width_split (n0 :: ns) Hw) as Hsplit.
  cbn [split] in Hsplit |- *. cbn [nth_error tl].
  inversion Hsplit as [|? ? ? ? Hl0 Hls]; subst.
  set (l0 := map (firstn n0) (MaxchoAgent.network self obs)) in *.
  set (ls := split (map (skipn n0) (MaxchoAgent.network self obs)) ns) in *.
  set (d0 := Maxcho.CategoricalMasked_init l0 src).
  set (a0 := sample_rows (probs d0) (draws w) (cursor w)).
  assert (Ha0 : length a0 = length obs).
  { unfold a0, d0, Maxcho.CategoricalMasked_init.
    rewrite length_sample_rows, length_probs_init, length_where.
    unfold src, l0. rewrite length_reshape, length_map, Hlen. lia. }
  destruct (Hact a0 Ha0) as [Hpm Hpmc].
  set (pm := reshape (length a0) (as_bool (getUnitActionMasks client a0))) in *.
  apply Nat.eqb_neq in Hpmc. rewrite Hpmc.
  rewrite maxcho_eval_closed. cbv zeta. rewrite Hnvec.
  rewrite split_cat by
    (try exact Hsrc; unfold src, pm; rewrite !length_reshape; symmetry; exact Ha0).
  cbn [split]. fold l0. fold ls. cbn [combine map fst snd].
  rewrite as_bool_bool. fold d0.
  rewrite (map_ext (fun lm : tensor R * tensor bool =>
                      Maxcho.CategoricalMasked_init (fst lm) (as_bool (snd lm)))
                   (fun lm : tensor R * tensor bool =>
                      Maxcho.CategoricalMasked_init (fst lm) (snd lm)))
    by (intros lm; rewrite as_bool_bool; reflexivity).
  set (ds := map _ (combine ls (split pm ns))).
  inversion Hpos as [|? ? Hn0 Hns]; subst.
  assert (Hvalid : Forall2 valid_choice (d0 :: ds)
                     (a0 :: sample_all ds (draws w) (cursor w + length (probs d0)))).
  { constructor.
    - apply sample_rows_valid. unfold d0, Maxcho.CategoricalMasked_init.
      apply init_rows_nonempty with (n := n0); assumption.
    - apply sample_all_valid. unfold ds.
      apply blocks_rows_nonempty with (ns := ns);
        [|exact Hns|exact Hls|apply width_split; exact Hpm].
      intros lm n Hn H1 H2. unfold Maxcho.CategoricalMasked_init.
      apply init_rows_nonempty with (n := n); assumption. }
  destruct (log_probs_valid Hvalid) as [lps Hlps].
  cbn [combine] in Hlps |- *. rewrite Hlps.
  destruct (@log_probs_cons_inv _ _ _ Hlps) as (lp & more & ->). eauto.
Qed.

(** On inputs of the right shape, sampling mode of
    [ppo_diverse_downsize.py] returns. *)
Lemma downsize_sample_returns (self : DownsizeAgent.Agent X) (x : list X)
    (iam0 : option (tensor Z)) (envs : Envs) (w : world) (n0 : nat) (ns : list nat) :
  let client := vec_client envs in
  nvec envs = n0 :: ns ->
  Forall (fun n => 0 < n) (n0 :: ns) ->
  width (list_sum (n0 :: ns)) (DownsizeAgent.network self x) ->
  width n0 (reshape (DownsizeAgent.num_envs self) (getUnitLocationMasks client)) ->
  (forall units,
     width (list_sum ns)
           (reshape (DownsizeAgent.num_envs self) (getUnitActionMasks client units))) ->
  exists r w', DownsizeAgent.get_action self x None iam0 envs w = Ok r w'.
Proof.
  intros client Hnvec Hpos Hw Hsrc Hact.
  rewrite downsize_sample_closed. cbv zeta. fold client. rewrite Hnvec.
  pose proof (width_split (n0 :: ns) Hw) as Hsplit.
  cbn [split] in Hsplit |- *. cbn [nth_error tl].
  inversion Hsplit as [|? ? ? ? Hl0 Hls]; subst.
  set (l0 := map (firstn n0) (DownsizeAgent.network self x)) in *.
  set (ls := split (map (skipn n0) (DownsizeAgent.network self x)) ns) in *.
  set (src := reshape (DownsizeAgent.num_envs self) (getUnitLocationMasks client)) in *.
  set (c0 := Downsize.CategoricalMasked_init l0 src).
  set (a0 := sample_rows (probs (Downsize.base c0)) (draws w) (cursor w)).
  specialize (Hact a0).
  set (pm := reshape (DownsizeAgent.num_envs self) (getUnitActionMasks client a0)) in *.
  set (cs := map _ (combine ls (split pm ns))).
  inversion Hpos as [|? ? Hn0 Hns]; subst.
  assert (Hvalid : Forall2 valid_choice (map Downsize.base (c0 :: cs))
                     (a0 :: sample_all (map Downsize.base cs) (draws w)
                              (cursor w + length (probs (Downsize.base c0))))).
  { cbn [map]. constructor.
    - apply sample_rows_valid. unfold c0.
      apply downsize_rows_nonempty with (n := n0); assumption.
    - apply sample_all_valid. unfold cs. rewrite map_map.
      apply blocks_rows_nonempty with (ns := ns);
        [|exact Hns|exact Hls|apply width_split; exact Hact].
      intros lm n Hn H1 H2.
      apply downsize_rows_nonempty with (n := n); assumption. }
  destruct (log_probs_valid Hvalid) as [lps Hlps].
  rewrite Hlps. cbn [map combine] in Hlps.
  destruct (@log_probs_cons_inv _ _ _ Hlps) as (lp & more & ->). eauto.
Qed.

End Returns.

(** ** Evaluation mode *)

Section Evaluation.

Lemma no_query_app (e1 e2 : list event) :
  no_query e1 -> no_query e2 -> no_query (e1 ++ e2).
Proof.
  unfold no_query. intros H1 H2. rewrite forallb_app, H1, H2. reflexivity.
Qed.

Lemma no_query_repeat_construct (n : nat) : no_query (repeat Construct n).
Proof. unfold no_query. induction n as [|n IH]; simpl; [reflexivity|exact IH]. Qed.

Lemma no_query_construct_sample (ss : list (list nat)) :
  no_query (flat_map (fun s => [Construct; Sample s]) ss).
Proof. unfold no_query. induction ss as [|s ss IH]; simpl; [reflexivity|exact IH]. Qed.

Lemma no_query_map_sample (ss : list (list nat)) : no_query (map Sample ss).
Proof. unfold no_query. induction ss as [|s ss IH]; simpl; [reflexivity|exact IH]. Qed.

(** C7.  In evaluation mode, in each of the three files, [get_action]
    builds its distributions from the blocks, per [nvec], of the mask it
    was given, calls neither [getUnitLocationMasks] nor
    [getUnitActionMasks], and returns the four-tuple made of the action it
    was given, the summed log-probabilities, the summed entropies and the
    mask it was given.  The only failures are those of PyTorch: [log_prob]
    refuses an index outside its row, and [torch.stack] an empty list of
    components. *)
Theorem evaluation_mode_echoes_and_never_queries (X : Type) :
  (forall (self : DownsizeAgent.Agent X) (x : list X) (act : tensor nat)
          (iam : tensor Z) (envs : Envs),
     quiet (DownsizeAgent.get_action self x (Some act) (Some iam) envs) /\
     forall w,
       let cats := map (fun li : tensor R * tensor Z =>
                          Downsize.CategoricalMasked_init (fst li) (snd li))
                       (combine (split (DownsizeAgent.network self x) (nvec envs))
                                (split iam (nvec envs))) in
       let w' := advance w 0 (repeat Construct (length cats)) in
       DownsizeAgent.get_action self x (Some act) (Some iam) envs w =
       match log_probs (combine (map Downsize.base cats) act) with
       | None => Raise (RuntimeError gather_msg) w'
       | Some [] => Raise (RuntimeError stack_msg) w'
       | Some lps => Ok (act, sum0 lps, sum0 (map Downsize.entropy cats), iam) w'
       end) /\
  (forall (self : MaxchoAgent.Agent X) (obs : list X) (act : tensor nat)
          (iam : tensor bool),
     quiet (MaxchoAgent.get_action self obs (Some act) (Some iam)) /\
     forall w,
       let splits := nvec (MaxchoAgent.envs self) in
       let cats := map (fun lm : tensor R * tensor bool =>
                          Maxcho.CategoricalMasked_init (fst lm) (as_bool (snd lm)))
                       (combine (split (MaxchoAgent.network self obs) splits)
                                (split iam splits)) in
       let w' := advance w 0 (repeat Construct (length cats)) in
       MaxchoAgent.get_action self obs (Some act) (Some iam) w =
       match log_probs (combine cats act) with
       | None => Raise (RuntimeError gather_msg) w'
       | Some [] => Raise (RuntimeError stack_msg) w'
       | Some lps => Ok (act, sum0 lps, sum0 (map Maxcho.entropy cats), iam) w'
       end) /\
  (forall (self : MaxchoV2Agent.Agent X) (obs : list X) (act : tensor nat)
          (iam : tensor bool),
     MaxchoV2Agent.get_action self obs (Some act) (Some iam)
     = MaxchoAgent.get_action (as_maxcho self) obs (Some act) (Some iam)).
Proof.
  split; [|split].
  - intros self x act iam envs. split.
    + intros w. rewrite downsize_eval_closed. cbv zeta.
      eexists (repeat Construct _).
      split; [|apply no_query_repeat_construct].
      destruct (log_probs _) as [[|lp lps]|]; reflexivity.
    + intros w. cbv zeta. rewrite downsize_eval_closed. cbv zeta.
      rewrite length_map. reflexivity.
  - intros self obs act iam. split.
    + intros w. rewrite maxcho_eval_closed. cbv zeta.
      eexists (repeat Construct _).
      split; [|apply no_query_repeat_construct].
      destruct (log_probs _) as [[|lp lps]|]; reflexivity.
    + intros w. cbv zeta. rewrite maxcho_eval_closed. cbv zeta.
      rewrite length_map. reflexivity.
  - intros. reflexivity.
Qed.

End Evaluation.

(** ** Sampling mode: the order of the two queries *)

Section TwoStage.

Context {X : Type}.

Lemma filter_no_query (evs : list event) :
  no_query evs -> filter is_query evs = [].
Proof.
  unfold no_query. induction evs as [|e evs IH]; simpl; [reflexivity|].
  intros H. apply andb_prop in H. destruct H as [He Hs].
  destruct (is_query e); [discriminate|]. apply IH. exact Hs.
Qed.

Lemma queries_of_two_stage (a0 : list nat) (rest : list event) :
  no_query rest ->
  filter is_query
    ([GetUnitLocationMasks; Construct; Sample a0; GetUnitActionMasks a0] ++ rest)
  = [GetUnitLocationMasks; GetUnitActionMasks a0].
Proof.
  intros H. cbn [app filter is_query]. rewrite (filter_no_query H). reflexivity.
Qed.

(** Sampling mode of [ppo_diverse_maxcho.py], stage by stage. *)
Lemma maxcho_two_stage (self : MaxchoAgent.Agent X) (obs : list X)
    (iam0 : option (tensor bool)) (w : world) :
  let client := vec_client (MaxchoAgent.envs self) in
  let splits := nvec (MaxchoAgent.envs self) in
  let split_logits := split (MaxchoAgent.network self obs) splits in
  let src := reshape (length obs) (as_bool (getUnitLocationMasks client)) in
  let o := MaxchoAgent.get_action self obs None iam0 w in
  (count_true src = 0 ->
   o = Raise (RuntimeError source_msg) (advance w 0 [GetUnitLocationMasks])) /\
  (count_true src <> 0 -> nth_error split_logits 0 = None ->
   o = Raise IndexError (advance w 0 [GetUnitLocationMasks])) /\
  (forall l0, count_true src <> 0 -> nth_error split_logits 0 = Some l0 ->
     let d0 := Maxcho.CategoricalMasked_init l0 src in
     let a0 := sample_rows (probs d0) (draws w) (cursor w) in
     let pm := reshape (length a0) (as_bool (getUnitActionMasks client a0)) in
     let ds := map (fun lm : tensor R * tensor bool =>
                      Maxcho.CategoricalMasked_init (fst lm) (snd lm))
                   (combine (tl split_logits) (split pm (tl splits))) in
     let rest := sample_all ds (draws w) (cursor w + length (probs d0)) in
     let k := length (combine split_logits (split (cat src pm) splits)) in
     let evs := [GetUnitLocationMasks; Construct; Sample a0; GetUnitActionMasks a0]
                ++ flat_map (fun s => [Construct; Sample s]) rest
                ++ repeat Construct k in
     (count_true pm = 0 ->
      o = Raise (RuntimeError param_msg)
            (advance w (length (probs d0))
               [GetUnitLocationMasks; Construct; Sample a0; GetUnitActionMasks a0])) /\
     (count_true pm <> 0 ->
      final o = advance w (length (probs d0) + rows_total ds) evs /\
      filter is_query evs = [GetUnitLocationMasks; GetUnitActionMasks a0] /\
      forall r w', o = Ok r w' ->
        fst (fst (fst r)) = a0 :: rest /\ snd r = cat src pm)).
Proof.
  cbv zeta. rewrite maxcho_sample_closed. cbv zeta. split; [|split].
  - intros H. apply Nat.eqb_eq in H. rewrite H. reflexivity.
  - intros H0 H1. apply Nat.eqb_neq in H0. rewrite H0, H1. reflexivity.
  - intros l0 H0 H1. apply Nat.eqb_neq in H0. rewrite H0, H1. split.
    + intros Hp. apply Nat.eqb_eq in Hp. rewrite Hp. reflexivity.
    + intros Hp. apply Nat.eqb_neq in Hp. rewrite Hp.
      rewrite maxcho_eval_closed. cbv zeta.
      set (a0 := sample_rows _ (draws w) (cursor w)).
      set (rest := sample_all _ (draws w) _).
      split; [|split].
      * destruct (log_probs _) as [[|lp lps]|]; cbn [final];
          rewrite !advance_advance; f_equal;
          first [lia | cbn [app]; rewrite <- ?app_assoc; reflexivity].
      * apply queries_of_two_stage. apply no_query_app;
          [apply no_query_construct_sample|apply no_query_repeat_construct].
      * intros r w' H. destruct (log_probs _) as [[|lp lps]|]; try discriminate.
        injection H as <- _. split; reflexivity.
Qed.

(** Sampling mode of [ppo_diverse_downsize.py], stage by stage. *)
Lemma downsize_two_stage (self : DownsizeAgent.Agent X) (x : list X)
    (iam0 : option (tensor Z)) (envs : Envs) (w : world) :
  let client := vec_client envs in
  let split_logits := split (DownsizeAgent.network self x) (nvec envs) in
  let src := reshape (DownsizeAgent.num_envs self) (getUnitLocationMasks client) in
  let o := DownsizeAgent.get_action self x None iam0 envs w in
  (nth_error split_logits 0 = None ->
   o = Raise IndexError (advance w 0 [GetUnitLocationMasks])) /\
  (forall l0, nth_error split_logits 0 = Some l0 ->
     let c0 := Downsize.CategoricalMasked_init l0 src in
     let a0 := sample_rows (probs (Downsize.base c0)) (draws w) (cursor w) in
     let pm := reshape (DownsizeAgent.num_envs self) (getUnitActionMasks client a0) in
     let cs := map (fun li : tensor R * tensor Z =>
                      Downsize.CategoricalMasked_init (fst li) (snd li))
                   (combine (tl split_logits) (split pm (tl (nvec envs)))) in
     let rest := sample_all (map Downsize.base cs) (draws w)
                   (cursor w + length (probs (Downsize.base c0))) in
     let evs := [GetUnitLocationMasks; Construct; Sample a0; GetUnitActionMasks a0]
                ++ repeat Construct (length cs) ++ map Sample rest in
     final o = advance w (length (probs (Downsize.base c0))
                          + rows_total (map Downsize.base cs)) evs /\
     filter is_query evs = [GetUnitLocationMasks; GetUnitActionMasks a0] /\
     forall r w', o = Ok r w' ->
       fst (fst (fst r)) = a0 :: rest /\ snd r = cat src pm).
Proof.
  cbv zeta. rewrite downsize_sample_closed. cbv zeta. split.
  - intros H. rewrite H. reflexivity.
  - intros l0 H. rewrite H.
    set (a0 := sample_rows _ (draws w) (cursor w)).
    set (rest := sample_all _ (draws w) _).
    split; [|split].
    + destruct (log_probs _) as [[|lp lps]|]; reflexivity.
    + apply queries_of_two_stage. apply no_query_app;
        [apply no_query_repeat_construct|apply no_query_map_sample].
    + intros r w' Hr. destruct (log_probs _) as [[|lp lps]|]; try discriminate.
      injection Hr as <- _. split; reflexivity.
Qed.

End TwoStage.

(** C8.  In sampling mode, the events of a call of [get_action] are these,
    in this order.  First the source-mask query.  Then, with [l0] the
    first block of the logits and [src] the answer of that query, cut into
    one row per batch element: the construction of the source
    distribution from [l0] and [src], and its draw [a0].  Then the
    parameter-mask query, with [a0] as its argument.  Then, with [pm] the
    answer of that query: the parameter distributions, built from the
    other blocks of the logits and the blocks of [pm], and their draws
    ([ppo_diverse_maxcho.py] builds and draws block by block and builds
    all the distributions once more for the log-probabilities;
    [ppo_diverse_downsize.py] builds them all and then draws).  The
    queries among these events are the two named ones, each once; when
    the call returns, its action is [a0] followed by the parameter draws
    and its mask is [src] joined with [pm].

    The call stops earlier in these cases only: there is no first block of
    logits ([IndexError], after the first query); in
    [ppo_diverse_maxcho.py], [src] has no true entry ([RuntimeError],
    after the first query) or [pm] has none ([RuntimeError], right after
    the second query).  On inputs of the right shapes, with a true entry
    in each mask, the call returns.  [ppo_maxcho_v2.py] has the
    [get_action] of [ppo_diverse_maxcho.py]. *)
Theorem parameter_mask_query_follows_source_choice (X : Type) :
  (forall (self : DownsizeAgent.Agent X) (x : list X) (iam0 : option (tensor Z))
          (envs : Envs) (w : world),
     let client := vec_client envs in
     let split_logits := split (DownsizeAgent.network self x) (nvec envs) in
     let src := reshape (DownsizeAgent.num_envs self) (getUnitLocationMasks client) in
     let o := DownsizeAgent.get_action self x None iam0 envs w in
     (nth_error split_logits 0 = None ->
      o = Raise IndexError (advance w 0 [GetUnitLocationMasks])) /\
     (forall l0, nth_error split_logits 0 = Some l0 ->
        let c0 := Downsize.CategoricalMasked_init l0 src in
        let a0 := sample_rows (probs (Downsize.base c0)) (draws w) (cursor w) in
        let pm := reshape (DownsizeAgent.num_envs self)
                          (getUnitActionMasks client a0) in
        let cs := map (fun li : tensor R * tensor Z =>
                         Downsize.CategoricalMasked_init (fst li) (snd li))
                      (combine (tl split_logits) (split pm (tl (nvec envs)))) in
        let rest := sample_all (map Downsize.base cs) (draws w)
                      (cursor w + length (probs (Downsize.base c0))) in
        let evs := [GetUnitLocationMasks; Construct; Sample a0; GetUnitActionMasks a0]
                   ++ repeat Construct (length cs) ++ map Sample rest in
        final o = advance w (length (probs (Downsize.base c0))
                             + rows_total (map Downsize.base cs)) evs /\
        filter is_query evs = [GetUnitLocationMasks; GetUnitActionMasks a0] /\
        forall r w', o = Ok r w' ->
          fst (fst (fst r)) = a0 :: rest /\ snd r = cat src pm) /\
     (forall n0 ns,
        nvec envs = n0 :: ns ->
        Forall (fun n => 0 < n) (n0 :: ns) ->
        width (list_sum (n0 :: ns)) (DownsizeAgent.network self x) ->
        width n0 src ->
        (forall units,
           width (list_sum ns)
                 (reshape (DownsizeAgent.num_envs self)
                          (getUnitActionMasks client units))) ->
        exists r w', o = Ok r w')) /\
  (forall (self : MaxchoAgent.Agent X) (obs : list X) (iam0 : option (tensor bool))
          (w : world),
     let client := vec_client (MaxchoAgent.envs self) in
     let splits := nvec (MaxchoAgent.envs self) in
     let split_logits := split (MaxchoAgent.network self obs) splits in
     let src := reshape (length obs) (as_bool (getUnitLocationMasks client)) in
     let o := MaxchoAgent.get_action self obs None iam0 w in
     (count_true src = 0 ->
      o = Raise (RuntimeError source_msg) (advance w 0 [GetUnitLocationMasks])) /\
     (count_true src <> 0 -> nth_error split_logits 0 = None ->
      o = Raise IndexError (advance w 0 [GetUnitLocationMasks])) /\
     (forall l0, count_true src <> 0 -> nth_error split_logits 0 = Some l0 ->
        let d0 := Maxcho.CategoricalMasked_init l0 src in
        let a0 := sample_rows (probs d0) (draws w) (cursor w) in
        let pm := reshape (length a0) (as_bool (getUnitActionMasks client a0)) in
        let ds := map (fun lm : tensor R * tensor bool =>
                         Maxcho.CategoricalMasked_init (fst lm) (snd lm))
                      (combine (tl split_logits) (split pm (tl splits))) in
        let rest := sample_all ds (draws w) (cursor w + length (probs d0)) in
        let k := length (combine split_logits (split (cat src pm) splits)) in
        let evs := [GetUnitLocationMasks; Construct; Sample a0; GetUnitActionMasks a0]
                   ++ flat_map (fun s => [Construct; Sample s]) rest
                   ++ repeat Construct k in
        (count_true pm = 0 ->
         o = Raise (RuntimeError param_msg)
               (advance w (length (probs d0))
                  [GetUnitLocationMasks; Construct; Sample a0;
                   GetUnitActionMasks a0])) /\
        (count_true pm <> 0 ->
         final o = advance w (length (probs d0) + rows_total ds) evs /\
         filter is_query evs = [GetUnitLocationMasks; GetUnitActionMasks a0] /\
         forall r w', o = Ok r w' ->
           fst (fst (fst r)) = a0 :: rest /\ snd r = cat src pm)) /\
     (forall n0 ns,
        splits = n0 :: ns ->
        Forall (fun n => 0 < n) (n0 :: ns) ->
        length (MaxchoAgent.network self obs) = length obs ->
        width (list_sum (n0 :: ns)) (MaxchoAgent.network self obs) ->
        width n0 src -> count_true src <> 0 ->
        (forall units, length units = length obs ->
           width (list_sum ns)
                 (reshape (length units) (as_bool (getUnitActionMasks client units)))
           /\ count_true (reshape (length units)
                                  (as_bool (getUnitActionMasks client units))) <> 0) ->
        exists r w', o = Ok r w')) /\
  (forall (self : MaxchoV2Agent.Agent X) (obs : list X) (iam0 : option (tensor bool)),
     MaxchoV2Agent.get_action self obs None iam0
     = MaxchoAgent.get_action (as_maxcho self) obs None iam0).
Proof.
  split; [|split].
  - intros self x iam0 envs w. cbv zeta.
    destruct (downsize_two_stage self x iam0 envs w) as [H1 H2].
    split; [exact H1|]. split; [exact H2|].
    intros n0 ns Hn Hpos Hw Hsrc Hact.
    apply downsize_sample_returns with (n0 := n0) (ns := ns); assumption.
  - intros self obs iam0 w. cbv zeta.
    destruct (maxcho_two_stage self obs iam0 w) as (H1 & H2 & H3).
    split; [exact H1|]. split; [exact H2|]. split; [exact H3|].
    intros n0 ns Hn Hpos Hlen Hw Hsrc Hc Hact.
    apply maxcho_sample_returns with (n0 := n0) (ns := ns); assumption.
  - intros. reflexivity.
Qed.

(** ** Sampling mode: when [RuntimeError] is raised *)

Section AllFalse.

Context {X : Type}.

Lemma messages_differ :
  source_msg <> param_msg /\
  gather_msg <> source_msg /\ gather_msg <> param_msg /\
  stack_msg <> source_msg /\ stack_msg <> param_msg.
Proof.
  unfold source_msg, param_msg, gather_msg, stack_msg.
  repeat split; discriminate.
Qed.

Lemma maxcho_runtime_error (self : MaxchoAgent.Agent X) (obs : list X)
    (iam0 : option (tensor bool)) (w : world) :
  let client := vec_client (MaxchoAgent.envs self) in
  let src := reshape (length obs) (as_bool (getUnitLocationMasks client)) in
  let o := MaxchoAgent.get_action self obs None iam0 w in
  ((exists w', o = Raise (RuntimeError source_msg) w') <-> count_true src = 0) /\
  ((exists w', o = Raise (RuntimeError param_msg) w') <->
   count_true src <> 0 /\
   exists l0,
     nth_error (split (MaxchoAgent.network self obs) (nvec (MaxchoAgent.envs self))) 0
       = Some l0 /\
     let a0 := sample_rows (probs (Maxcho.CategoricalMasked_init l0 src))
                           (draws w) (cursor w) in
     count_true (reshape (length a0) (as_bool (getUnitActionMasks client a0))) = 0).
Proof.
  cbv zeta. rewrite maxcho_sample_closed. cbv zeta.
  destruct messages_differ as (Hsp & Hgs & Hgp & Hts & Htp).
  destruct (Nat.eqb (count_true _) 0) eqn:E0.
  { apply Nat.eqb_eq in E0. split.
    - split; [intros _; exact E0|intros _; eexists; reflexivity].
    - split.
      + intros [w' H]. exfalso. congruence.
      + intros [H _]. contradiction. }
  apply Nat.eqb_neq in E0.
  destruct (nth_error _ 0) as [l0|] eqn:El0.
  2:{ split.
      - split; [intros [w' H]; discriminate|intros H; contradiction].
      - split; [intros [w' H]; discriminate|].
        intros [_ [l0 [H _]]]. discriminate. }
  match goal with
  | |- context [Nat.eqb (count_true (reshape (length (sample_rows ?a ?b ?c)) ?d)) 0] =>
      destruct (Nat.eqb (count_true (reshape (length (sample_rows a b c)) d)) 0) eqn:E1
  end.
  { apply Nat.eqb_eq in E1. split.
    - split; [|intros H; contradiction].
      intros [w' H]. exfalso. congruence.
    - split; [|intros _; eexists; reflexivity].
      intros _. split; [exact E0|]. exists l0. split; [reflexivity|exact E1]. }
  apply Nat.eqb_neq in E1.
  rewrite maxcho_eval_closed. cbv zeta.
  destruct (log_probs _) as [[|lp lps]|]; split;
    (split;
     [ intros [w' H]; exfalso; congruence
     | first [ intros H; contradiction
             | intros [_ [l1 [Hl1 H]]]; injection Hl1 as <-; contradiction ] ]).
Qed.

Lemma downsize_no_mask_error (self : DownsizeAgent.Agent X) (x : list X)
    (iam0 : option (tensor Z)) (envs : Envs) (w w' : world) :
  DownsizeAgent.get_action self x None iam0 envs w <> Raise (RuntimeError source_msg) w' /\
  DownsizeAgent.get_action self x None iam0 envs w <> Raise (RuntimeError param_msg) w'.
Proof.
  rewrite downsize_sample_closed. cbv zeta.
  destruct messages_differ as (Hsp & Hgs & Hgp & Hts & Htp).
  destruct (nth_error _ 0); [|split; discriminate].
  destruct (log_probs _) as [[|lp lps]|]; split; congruence.
Qed.

End AllFalse.

(** C2, as stated, fails.  In the example game the first environment has no
    legal source location and the second one has one; [get_action] of
    [ppo_diverse_maxcho.py] returns, and so does that of
    [ppo_diverse_downsize.py]. *)
Lemma one_false_row_raises_nothing :
  nth_error (reshape 2 (as_bool (getUnitLocationMasks example_client))) 0
    = Some [false; false] /\
  (exists r w',
     MaxchoAgent.get_action example_maxcho [tt; tt] None None example_world = Ok r w') /\
  (exists r w',
     DownsizeAgent.get_action example_downsize [tt; tt] None None example_envs
       example_world = Ok r w').
Proof.
  split; [reflexivity|]. split.
  - apply maxcho_sample_returns with (n0 := 2) (ns := [2]).
    + reflexivity.
    + repeat constructor.
    + reflexivity.
    + repeat constructor.
    + repeat constructor.
    + vm_compute. discriminate.
    + intros units Hu. rewrite Hu. split; [repeat constructor|].
      vm_compute. discriminate.
  - apply downsize_sample_returns with (n0 := 2) (ns := [2]).
    + reflexivity.
    + repeat constructor.
    + repeat constructor.
    + repeat constructor.
    + intros units. repeat constructor.
Qed.

(** C2, amended.  In sampling mode, [get_action] of
    [ppo_diverse_maxcho.py] raises the [RuntimeError] of the source mask
    exactly when the source-location mask has no true entry in the whole
    batch, and the [RuntimeError] of the parameter mask exactly when the
    source mask has a true entry, there is a first block of logits, and
    the parameter mask obtained for the sampled source choice has no true
    entry in the whole batch.  [ppo_maxcho_v2.py] has the same
    [get_action].  [get_action] of [ppo_diverse_downsize.py] raises neither
    of the two. *)
Theorem runtime_error_iff_whole_mask_false (X : Type) :
  (forall (self : MaxchoAgent.Agent X) (obs : list X) (iam0 : option (tensor bool))
          (w : world),
     let client := vec_client (MaxchoAgent.envs self) in
     let src := reshape (length obs) (as_bool (getUnitLocationMasks client)) in
     let o := MaxchoAgent.get_action self obs None iam0 w in
     ((exists w', o = Raise (RuntimeError source_msg) w') <-> count_true src = 0) /\
     ((exists w', o = Raise (RuntimeError param_msg) w') <->
      count_true src <> 0 /\
      exists l0,
        nth_error (split (MaxchoAgent.network self obs) (nvec (MaxchoAgent.envs self))) 0
          = Some l0 /\
        let a0 := sample_rows (probs (Maxcho.CategoricalMasked_init l0 src))
                              (draws w) (cursor w) in
        count_true (reshape (length a0) (as_bool (getUnitActionMasks client a0))) = 0)) /\
  (forall (self : MaxchoV2Agent.Agent X) (obs : list X) (iam0 : option (tensor bool)),
     MaxchoV2Agent.get_action self obs None iam0
     = MaxchoAgent.get_action (as_maxcho self) obs None iam0) /\
  (forall (self : DownsizeAgent.Agent X) (x : list X) (iam0 : option (tensor Z))
          (envs : Envs) (w w' : world),
     DownsizeAgent.get_action self x None iam0 envs w
       <> Raise (RuntimeError source_msg) w' /\
     DownsizeAgent.get_action self x None iam0 envs w
       <> Raise (RuntimeError param_msg) w').
Proof.
  split; [|split].
  - intros. apply maxcho_runtime_error.
  - intros. reflexivity.
  - intros. apply downsize_no_mask_error.
Qed.

(** ** Round trip: evaluating what was sampled *)

Section RoundTrip.

Context {X : Type}.

Lemma maxcho_round_trip (self : MaxchoAgent.Agent X) (obs : list X)
    (iam0 : option (tensor bool)) (w w' : world)
    (act : tensor nat) (lp en : list R) (iam : tensor bool) :
  MaxchoAgent.get_action self obs None iam0 w = Ok (act, lp, en, iam) w' ->
  forall w2, exists w2',
    MaxchoAgent.get_action self obs (Some act) (Some iam) w2 = Ok (act, lp, en, iam) w2'.
Proof.
  rewrite maxcho_sample_closed. cbv zeta.
  destruct (Nat.eqb (count_true _) 0); [discriminate|].
  destruct (nth_error _ 0) as [l0|]; [|discriminate].
  destruct (Nat.eqb (count_true _) 0); [discriminate|].
  rewrite maxcho_eval_closed. cbv zeta.
  destruct (log_probs _) as [[|lp0 lps]|] eqn:E; try discriminate.
  intros H w2. injection H as <- <- <- <- _.
  rewrite maxcho_eval_closed. cbv zeta. rewrite E. eexists. reflexivity.
Qed.

Lemma downsize_round_trip (self : DownsizeAgent.Agent X) (x : list X)
    (iam0 : option (tensor Z)) (envs : Envs) (w w' : world)
    (act : tensor nat) (lp en : list R) (iam : tensor Z) :
  width (hd 0 (nvec envs))
        (reshape (DownsizeAgent.num_envs self) (getUnitLocationMasks (vec_client envs))) ->
  DownsizeAgent.get_action self x None iam0 envs w = Ok (act, lp, en, iam) w' ->
  forall w2, exists w2',
    DownsizeAgent.get_action self x (Some act) (Some iam) envs w2
    = Ok (act, lp, en, iam) w2'.
Proof.
  intros Hsrc. rewrite downsize_sample_closed. cbv zeta.
  destruct (nvec envs) as [|n0 ns] eqn:Hnvec; [discriminate|].
  cbn [split nth_error tl hd] in *.
  destruct (log_probs _) as [[|lp0 lps]|] eqn:E; try discriminate.
  intros H w2. injection H as <- <- <- <- _.
  rewrite downsize_eval_closed. cbv zeta. rewrite Hnvec.
  rewrite split_cat by (try exact Hsrc; rewrite !length_reshape; reflexivity).
  cbn [split combine map fst snd] in E |- *.
  rewrite E. eexists. reflexivity.
Qed.

End RoundTrip.

(** C5.  What sampling mode returns, evaluation mode returns again: when
    [get_action] without an action returns the action [act], the
    log-probability [lp], the entropy [en] and the mask [iam], then
    [get_action] with [act] and [iam], on the same observation, returns
    the same four values, whatever the state of the random generator.  In
    [ppo_diverse_downsize.py] this needs the source mask to have the width
    of the first component of [nvec]. *)
Theorem evaluation_returns_the_sampled_log_prob (X : Type) :
  (forall (self : DownsizeAgent.Agent X) (x : list X) (iam0 : option (tensor Z))
          (envs : Envs) (w w' : world)
          (act : tensor nat) (lp en : list R) (iam : tensor Z),
     width (hd 0 (nvec envs))
           (reshape (DownsizeAgent.num_envs self)
                    (getUnitLocationMasks (vec_client envs))) ->
     DownsizeAgent.get_action self x None iam0 envs w = Ok (act, lp, en, iam) w' ->
     forall w2, exists w2',
       DownsizeAgent.get_action self x (Some act) (Some iam) envs w2
       = Ok (act, lp, en, iam) w2') /\
  (forall (self : MaxchoAgent.Agent X) (obs : list X) (iam0 : option (tensor bool))
          (w w' : world) (act : tensor nat) (lp en : list R) (iam : tensor bool),
     MaxchoAgent.get_action self obs None iam0 w = Ok (act, lp, en, iam) w' ->
     forall w2, exists w2',
       MaxchoAgent.get_action self obs (Some act) (Some iam) w2
       = Ok (act, lp, en, iam) w2') /\
  (forall (self : MaxchoV2Agent.Agent X) (obs : list X) (iam0 : option (tensor bool))
          (w w' : world) (act : tensor nat) (lp en : list R) (iam : tensor bool),
     MaxchoV2Agent.get_action self obs None iam0 w = Ok (act, lp, en, iam) w' ->
     forall w2, exists w2',
       MaxchoV2Agent.get_action self obs (Some act) (Some iam) w2
       = Ok (act, lp, en, iam) w2').
Proof.
  split; [|split].
  - intros. eapply downsize_round_trip; eassumption.
  - intros. eapply maxcho_round_trip; eassumption.
  - intros self obs iam0 w w' act lp en iam H w2.
    rewrite maxcho_v2_is_maxcho in *. eapply maxcho_round_trip; eassumption.
Qed.

(** A run of the round trip in the example game, for
    [ppo_diverse_downsize.py] and for [ppo_diverse_maxcho.py]. *)
Lemma evaluation_returns_the_sampled_log_prob_witness :
  (exists act lp en iam w' w2',
     DownsizeAgent.get_action example_downsize [tt; tt] None None example_envs
       example_world = Ok (act, lp, en, iam) w' /\
     DownsizeAgent.get_action example_downsize [tt; tt] (Some act) (Some iam)
       example_envs example_world = Ok (act, lp, en, iam) w2') /\
  (exists act lp en iam w' w2',
     MaxchoAgent.get_action example_maxcho [tt; tt] None None example_world
       = Ok (act, lp, en, iam) w' /\
     MaxchoAgent.get_action example_maxcho [tt; tt] (Some act) (Some iam)
       example_world = Ok (act, lp, en, iam) w2').
Proof.
  split.
  - destruct (@downsize_sample_returns unit example_downsize [tt; tt] None
                example_envs example_world 2 [2]) as [[[[act lp] en] iam] [w' H]].
    + reflexivity.
    + repeat constructor.
    + repeat constructor.
    + repeat constructor.
    + intros units. repeat constructor.
    + destruct (proj1 (evaluation_returns_the_sampled_log_prob unit)
                  example_downsize [tt; tt] None example_envs example_world w'
                  act lp en iam ltac:(repeat constructor) H example_world)
        as [w2' H2].
      exists act, lp, en, iam, w', w2'. split; assumption.
  - destruct (@maxcho_sample_returns unit example_maxcho [tt; tt] None
                example_world 2 [2]) as [[[[act lp] en] iam] [w' H]].
    + reflexivity.
    + repeat constructor.
    + reflexivity.
    + repeat constructor.
    + repeat constructor.
    + vm_compute. discriminate.
    + intros units Hu. rewrite Hu. split; [repeat constructor|].
      vm_compute. discriminate.
    + destruct (proj1 (proj2 (evaluation_returns_the_sampled_log_prob unit))
                  example_maxcho [tt; tt] None example_world w'
                  act lp en iam H example_world)
        as [w2' H2].
      exists act, lp, en, iam, w', w2'. split; assumption.
Defined.

(** A run of sampling mode of [ppo_diverse_maxcho.py] in the example game:
    it returns; its queries are the source-mask query and then the
    parameter-mask query for the draw [a0] from the source distribution,
    and the action starts with [a0]. *)
Lemma parameter_mask_query_follows_source_choice_witness :
  let src := reshape 2 (as_bool (getUnitLocationMasks example_client)) in
  let d0 := Maxcho.CategoricalMasked_init [[0; 0]; [0; 0]]%R src in
  let a0 := sample_rows (probs d0) (draws example_world) (cursor example_world) in
  exists r w',
    MaxchoAgent.get_action example_maxcho [tt; tt] None None example_world = Ok r w' /\
    filter is_query (trace w') = [GetUnitLocationMasks; GetUnitActionMasks a0] /\
    hd_error (fst (fst (fst r))) = Some a0.
Proof.
  intros src d0 a0.
  destruct (proj1 (proj2 (parameter_mask_query_follows_source_choice unit))
              example_maxcho [tt; tt] None example_world)
    as (_ & _ & Hstage & Hret).
  assert (Hsrc : count_true src <> 0) by (vm_compute; discriminate).
  assert (Hpm : forall units, length units = 2 ->
            count_true (reshape (length units)
                          (as_bool (getUnitActionMasks example_client units))) <> 0).
  { intros units Hu. rewrite Hu. vm_compute. discriminate. }
  destruct (Hret 2 [2]) as (r & w' & Hr).
  - reflexivity.
  - repeat constructor.
  - reflexivity.
  - repeat constructor.
  - repeat constructor.
  - exact Hsrc.
  - intros units Hu. split; [rewrite Hu; repeat constructor|exact (Hpm units Hu)].
  - destruct (Hstage [[0; 0]; [0; 0]]%R Hsrc eq_refl) as [_ Hgo].
    assert (Ha0 : length a0 = 2).
    { unfold a0. rewrite length_sample_rows. reflexivity. }
    destruct (Hgo (Hpm a0 Ha0)) as (Hfin & Hq & Hact).
    exists r, w'. split; [exact Hr|].
    rewrite Hr in Hfin. cbn [final] in Hfin. split.
    + rewrite Hfin. cbn [trace advance example_world app]. exact Hq.
    + rewrite (proj1 (Hact r w' Hr)). reflexivity.
Defined.

(** * Further properties of the code *)

(** ** Bounds on entropies and log-probabilities *)

Section EntropyBounds.

Local Open Scope R_scope.

Lemma softmax_in_unit (r : list R) : Forall (fun p => 0 < p <= 1) (softmax r).
Proof.
  unfold softmax. apply Forall_map. apply Forall_forall. intros x Hx.
  assert (Hr : r <> []) by (intros ->; destruct Hx).
  pose proof (sum_exp_pos Hr) as HS. pose proof (exp_pos x) as Hp.
  destruct (In_nth_error _ _ Hx) as [i Hi].
  pose proof (sum_exp_ge _ _ Hi) as Hle.
  split; [apply Rdiv_lt_0_compat; assumption|].
  apply (Rmult_le_reg_r (sum_list (map exp r))); [exact HS|].
  unfold Rdiv. rewrite Rmult_assoc, Rinv_l by lra. lra.
Qed.

Lemma ln_le_minus_one (y : R) : 0 < y -> ln y <= y - 1.
Proof.
  intros Hy. pose proof (exp_ineq1_le (ln y)) as H.
  rewrite exp_ln in H by exact Hy. lra.
Qed.

Lemma p_log_p_nonpos (p : R) : 0 < p <= 1 -> p * ln p <= 0.
Proof.
  intros [H0 H1]. pose proof (ln_le_minus_one H0). nra.
Qed.

Lemma sum_p_log_p_nonpos (ps : list R) :
  Forall (fun p => 0 < p <= 1) ps -> sum_list (map (fun p => p * ln p) ps) <= 0.
Proof.
  induction 1 as [|p ps Hp _ IH]; simpl; [lra|].
  pose proof (p_log_p_nonpos Hp). lra.
Qed.

(** One term of Gibbs' inequality against the uniform distribution. *)
Lemma gibbs_term (n p : R) : 0 < n -> 0 < p -> - (p * ln p) - p * ln n <= / n - p.
Proof.
  intros Hn Hp.
  assert (Hy : 0 < / (n * p)) by (apply Rinv_0_lt_compat; nra).
  pose proof (ln_le_minus_one Hy) as H.
  rewrite ln_Rinv, ln_mult in H by nra.
  assert (E : p * / (n * p) = / n) by (field; lra).
  nra.
Qed.

Lemma gibbs_sum (n : R) (ps : list R) :
  0 < n -> Forall (fun p => 0 < p <= 1) ps ->
  - sum_list (map (fun p => p * ln p) ps) - sum_list ps * ln n
  <= INR (length ps) * / n - sum_list ps.
Proof.
  intros Hn. induction 1 as [|p ps [Hp _] _ IH].
  - simpl. lra.
  - cbn [map sum_list fold_right length]. rewrite S_INR.
    pose proof (gibbs_term Hn Hp). unfold sum_list in IH. lra.
Qed.

(** The Shannon entropy of a softmax lies between zero and the logarithm
    of the number of outcomes. *)
Lemma shannon_bounds (r : list R) :
  r <> [] ->
  0 <= - sum_list (map (fun p => p * ln p) (softmax r)) <= ln (INR (length r)).
Proof.
  intros Hr. pose proof (softmax_in_unit r) as Hu. split.
  - pose proof (sum_p_log_p_nonpos Hu). lra.
  - assert (Hn : 0 < INR (length r)).
    { apply lt_0_INR. destruct r; [congruence|simpl; lia]. }
    pose proof (gibbs_sum Hn Hu) as H.
    rewrite (sum_softmax Hr), length_softmax in H.
    rewrite Rinv_r in H by lra. lra.
Qed.

Lemma sum_where_nonpos (m : list bool) (q : list R) :
  Forall (fun x => x <= 0) q -> sum_list (where_row m q 0) <= 0.
Proof.
  revert q. induction m as [|b m IH]; intros [|x q] Hq; unfold where_row in *; simpl;
    try lra.
  inversion Hq; subst. specialize (IH _ H2). destruct b; simpl; lra.
Qed.

Lemma p_log_p_all_nonpos (ps : list R) :
  Forall (fun p => 0 < p <= 1) ps -> Forall (fun x => x <= 0) (map (fun p => p * ln p) ps).
Proof.
  intros H. apply Forall_map. eapply Forall_impl; [|exact H].
  intros p Hp. apply p_log_p_nonpos. exact Hp.
Qed.

End EntropyBounds.

Section EntropyExtras.

Local Open Scope R_scope.

(** X1.  [entropy()] of [CategoricalMasked] in [ppo_diverse_maxcho.py] and
    [ppo_maxcho_v2.py], for a row of logits of ordinary size (a mask of
    the same length, some index masked in, every masked-in logit at most
    16 in magnitude), is at least zero and at most the logarithm of the
    length of the row, masked-out indices included. *)
Theorem inherited_entropy_between_zero_and_log_width (l : list R) (m : list bool) :
  ordinary m l ->
  exists h,
    Maxcho.entropy (Maxcho.CategoricalMasked_init [l] [m]) = [h] /\
    MaxchoV2.entropy (MaxchoV2.CategoricalMasked_init [l] [m]) = [h] /\
    0 <= h <= ln (INR (length l)).
Proof.
  intros Ho. destruct (ordinary_effective Ho) as (Hlen & Hne & _).
  eexists. split; [apply inherited_entropy_row|].
  split; [apply inherited_entropy_row|].
  pose proof (shannon_bounds Hne) as H.
  rewrite Hlen in H. exact H.
Qed.

Lemma inherited_entropy_between_zero_and_log_width_witness :
  exists h,
    Maxcho.entropy (Maxcho.CategoricalMasked_init [[0; 0; 0]] [[true; true; false]]) = [h] /\
    MaxchoV2.entropy (MaxchoV2.CategoricalMasked_init [[0; 0; 0]] [[true; true; false]]) = [h] /\
    0 <= h <= ln (INR (length [0; 0; 0])).
Proof.
  apply (@inherited_entropy_between_zero_and_log_width [0; 0; 0] [true; true; false]).
  apply ordinary_intro; [reflexivity|reflexivity|].
  repeat constructor; rewrite Rabs_R0; lra.
Defined.

(** X2.  [entropy()] of [CategoricalMasked] in [ppo_diverse_downsize.py],
    on the same logits and mask, is at least zero and at most the value
    that [entropy()] of [ppo_diverse_maxcho.py] returns. *)
Theorem masked_entropy_between_zero_and_inherited (l : list R) (m : list bool) :
  length m = length l -> l <> [] ->
  exists hd hm,
    Downsize.entropy (Downsize.CategoricalMasked_init [l] [m]) = [hd] /\
    Maxcho.entropy (Maxcho.CategoricalMasked_init [l] [m]) = [hm] /\
    0 <= hd <= hm.
Proof.
  intros Hlen Hl. eexists. eexists.
  split; [apply downsize_entropy_is_masked|].
  split; [apply inherited_entropy_row|].
  set (ps := softmax (where_row m l sentinel)).
  pose proof (softmax_in_unit (where_row m l sentinel)) as Hu. fold ps in Hu.
  pose proof (p_log_p_all_nonpos Hu) as Hq.
  set (q := map (fun p => p * ln p) ps) in *.
  unfold masked_shannon_entropy. fold q.
  assert (Hlq : length m = length q).
  { unfold q, ps. rewrite length_map, length_softmax, length_where_row. lia. }
  pose proof (sum_where_split m q Hlq) as Hsplit.
  pose proof (sum_where_nonpos m Hq). pose proof (sum_where_nonpos (map negb m) Hq).
  lra.
Qed.

Lemma masked_entropy_between_zero_and_inherited_witness :
  exists hd hm,
    Downsize.entropy (Downsize.CategoricalMasked_init [[0; 0; 0]] [[true; true; false]])
      = [hd] /\
    Maxcho.entropy (Maxcho.CategoricalMasked_init [[0; 0; 0]] [[true; true; false]])
      = [hm] /\
    0 <= hd <= hm.
Proof.
  apply (@masked_entropy_between_zero_and_inherited [0; 0; 0] [true; true; false]);
    [reflexivity|discriminate].
Defined.

End EntropyExtras.

(** ** Log-probabilities, odds and the all-false mask *)

Section LogProbExtras.

Local Open Scope R_scope.

(** X3.  In each of the three files, for a row of logits of ordinary size
    (a mask of the same length, some index masked in, every masked-in
    logit at most 16 in magnitude) and a masked-in index, [log_prob]
    returns the logarithm of the probability with which [sample] draws
    that index; it is never positive. *)
Theorem log_prob_is_log_of_sampling_probability (l : list R) (m : list bool)
    (d : Categorical) (i : nat) :
  ordinary m l ->
  nth_error m i = Some true ->
  d = Downsize.base (Downsize.CategoricalMasked_init [l] [m]) \/
  d = Maxcho.CategoricalMasked_init [l] [m] \/
  d = MaxchoV2.CategoricalMasked_init [l] [m] ->
  exists x p,
    log_prob d [i] = Some [x] /\
    at2 (probs d) 0 i = Some p /\ 0 < p <= 1 /\ x = ln p /\ x <= 0.
Proof.
  intros Ho Hi Hd. destruct (single_row_init Hd) as [Hl Hp].
  destruct (ordinary_effective Ho) as (_ & Hne & _ & Hin & _).
  destruct (Hin i Hi) as (e & _ & He & _).
  set (eff := where_row m l sentinel) in *.
  exists (e - logsumexp eff), (exp e / sum_list (map exp eff)).
  assert (Hs : nth_error (softmax eff) i = Some (exp e / sum_list (map exp eff))).
  { rewrite nth_error_softmax, He. reflexivity. }
  assert (Hu : 0 < exp e / sum_list (map exp eff) <= 1).
  { pose proof (softmax_in_unit eff) as H. rewrite Forall_forall in H.
    apply H. eapply nth_error_In. exact Hs. }
  split.
  { unfold log_prob. rewrite Hl. cbn [gather]. unfold normalize.
    rewrite nth_error_map, He. reflexivity. }
  split; [unfold at2; rewrite Hp; exact Hs|]. split; [exact Hu|].
  rewrite (@ln_softmax eff e Hne). split; [reflexivity|].
  rewrite <- (@ln_softmax eff e Hne). rewrite <- ln_1.
  destruct Hu as [H0 [H1|H1]].
  - left. apply ln_increasing; assumption.
  - right. rewrite H1. reflexivity.
Qed.

Lemma log_prob_is_log_of_sampling_probability_witness :
  exists x p,
    log_prob (Maxcho.CategoricalMasked_init [[0; 0; 0]] [[true; true; false]]) [1%nat]
      = Some [x] /\
    at2 (probs (Maxcho.CategoricalMasked_init [[0; 0; 0]] [[true; true; false]])) 0 1
      = Some p /\
    0 < p <= 1 /\ x = ln p /\ x <= 0.
Proof.
  apply (@log_prob_is_log_of_sampling_probability
           [0; 0; 0] [true; true; false] _ 1%nat).
  - apply ordinary_intro; [reflexivity|reflexivity|].
    repeat constructor; rewrite Rabs_R0; lra.
  - reflexivity.
  - right. left. reflexivity.
Defined.

(** X4.  In each of the three files, masking leaves the differences
    between the log-probabilities of masked-in indices equal to the
    differences between their logits. *)
Theorem masking_keeps_logit_differences (l : list R) (m : list bool)
    (d : Categorical) (i j : nat) (li lj : R) :
  nth_error m i = Some true -> nth_error l i = Some li ->
  nth_error m j = Some true -> nth_error l j = Some lj ->
  d = Downsize.base (Downsize.CategoricalMasked_init [l] [m]) \/
  d = Maxcho.CategoricalMasked_init [l] [m] \/
  d = MaxchoV2.CategoricalMasked_init [l] [m] ->
  exists xi xj,
    log_prob d [i] = Some [xi] /\ log_prob d [j] = Some [xj] /\
    xi - xj = li - lj.
Proof.
  intros Hmi Hli Hmj Hlj Hd. destruct (single_row_init Hd) as [Hl _].
  set (eff := where_row m l sentinel) in *.
  assert (Ei : nth_error eff i = Some li).
  { unfold eff. rewrite nth_error_where_row, Hmi, Hli. reflexivity. }
  assert (Ej : nth_error eff j = Some lj).
  { unfold eff. rewrite nth_error_where_row, Hmj, Hlj. reflexivity. }
  exists (li - logsumexp eff), (lj - logsumexp eff).
  unfold log_prob. rewrite Hl. cbn [gather]. unfold normalize.
  rewrite !nth_error_map, Ei, Ej. cbn [option_map].
  repeat split. lra.
Qed.

Lemma masking_keeps_logit_differences_witness :
  exists xi xj,
    log_prob (Maxcho.CategoricalMasked_init [[3; 0; 1]] [[true; false; true]]) [0%nat]
      = Some [xi] /\
    log_prob (Maxcho.CategoricalMasked_init [[3; 0; 1]] [[true; false; true]]) [2%nat]
      = Some [xj] /\
    xi - xj = 3 - 1.
Proof.
  apply (@masking_keeps_logit_differences [3; 0; 1] [true; false; true] _ 0 2 3 1);
    [reflexivity | reflexivity | reflexivity | reflexivity |].
  right. left. reflexivity.
Defined.

Lemma where_row_all_false (m : list bool) (l : list R) (c : R) :
  length m = length l -> Forall (fun b => b = false) m ->
  where_row m l c = repeat c (length l).
Proof.
  revert l. induction m as [|b m IH]; intros [|v l] Hl Hm; simpl in *; try discriminate.
  - reflexivity.
  - inversion Hm; subst. unfold where_row in *. simpl. f_equal. apply IH; [lia|assumption].
Qed.

Lemma sum_exp_repeat (c : R) (n : nat) :
  sum_list (map exp (repeat c n)) = INR n * exp c.
Proof.
  induction n as [|n IH].
  - simpl. lra.
  - cbn [repeat map sum_list fold_right]. rewrite S_INR.
    unfold sum_list in IH. rewrite IH. lra.
Qed.

(** X5.  In each of the three files, a mask without a true entry gives the
    uniform distribution over all the indices of the row, whatever the
    logits: every index has probability one over the length of the row. *)
Theorem all_false_mask_is_uniform (l : list R) (m : list bool) (d : Categorical)
    (i : nat) :
  length m = length l -> Forall (fun b => b = false) m -> (i < length l)%nat ->
  d = Downsize.base (Downsize.CategoricalMasked_init [l] [m]) \/
  d = Maxcho.CategoricalMasked_init [l] [m] \/
  d = MaxchoV2.CategoricalMasked_init [l] [m] ->
  at2 (probs d) 0 i = Some (/ INR (length l)).
Proof.
  intros Hlen Hm Hi Hd. destruct (single_row_init Hd) as [_ Hp].
  unfold at2. rewrite Hp. cbn [nth_error].
  rewrite (@where_row_all_false m l sentinel Hlen Hm).
  rewrite nth_error_softmax, nth_error_repeat by exact Hi. cbn [option_map].
  rewrite sum_exp_repeat. f_equal.
  assert (Hn : 0 < INR (length l)) by (apply lt_0_INR; lia).
  pose proof (exp_pos sentinel). field. lra.
Qed.

Lemma all_false_mask_is_uniform_witness :
  at2 (probs (Maxcho.CategoricalMasked_init [[5; -2; 7; 0]] [[false; false; false; false]]))
      0 2
  = Some (/ INR (length [5; -2; 7; 0])).
Proof.
  apply (@all_false_mask_is_uniform [5; -2; 7; 0] [false; false; false; false] _ 2).
  - reflexivity.
  - repeat constructor.
  - simpl. lia.
  - right. left. reflexivity.
Defined.

End LogProbExtras.

(** ** Signs of what [get_action] returns *)

Section Signs.

Local Open Scope R_scope.

Lemma normalized_nonpos (r : list R) : Forall (fun x => x <= 0) (normalize r).
Proof.
  unfold normalize. apply Forall_map. apply Forall_forall. intros e He.
  assert (Hr : r <> []) by (intros ->; destruct He).
  pose proof (softmax_in_unit r) as Hu. rewrite Forall_forall in Hu.
  assert (Hin : In (exp e / sum_list (map exp r)) (softmax r)).
  { unfold softmax. apply in_map_iff. exists e. split; [reflexivity|exact He]. }
  destruct (Hu _ Hin) as [_ H1].
  rewrite <- (exp_minus_logsumexp e Hr) in H1.
  destruct (Rle_or_lt (e - logsumexp r) 0) as [H|H]; [exact H|].
  apply exp_increasing in H. rewrite exp_0 in H. lra.
Qed.

Lemma gather_pred (P : R -> Prop) (rows : tensor R) (v : list nat) (xs : list R) :
  Forall (Forall P) rows -> gather rows v = Some xs -> Forall P xs.
Proof.
  revert v xs. induction rows as [|r rows IH]; intros [|i v] xs Hrows H; simpl in H;
    try discriminate.
  - injection H as <-. constructor.
  - destruct (nth_error r i) as [x|] eqn:Ex; [|discriminate].
    destruct (gather rows v) as [ys|] eqn:Ey; [|discriminate].
    injection H as <-. inversion Hrows; subst. constructor.
    + rewrite Forall_forall in H1. apply H1. eapply nth_error_In. exact Ex.
    + eapply IH; [eassumption|exact Ey].
Qed.

Lemma log_probs_nonpos (cas : list (Categorical * list nat)) (lps : list (list R)) :
  Forall (fun ca => exists lg, fst ca = Categorical_init lg) cas ->
  log_probs cas = Some lps -> Forall (Forall (fun x => x <= 0)) lps.
Proof.
  revert lps. induction cas as [|ca cas IH]; intros lps Hc H; simpl in H.
  - injection H as <-. constructor.
  - destruct (log_prob (fst ca) (snd ca)) as [x|] eqn:Ex; [|discriminate].
    destruct (log_probs cas) as [xs|]; [|discriminate].
    injection H as <-. inversion Hc as [|? ? [lg Hlg] Hc']; subst. constructor.
    + unfold log_prob in Ex. rewrite Hlg in Ex. eapply gather_pred; [|exact Ex].
      unfold Categorical_init. cbn [logits]. apply Forall_map.
      apply Forall_forall. intros r _. apply normalized_nonpos.
    + apply IH; [exact Hc'|reflexivity].
Qed.

Lemma add_rows_pred (P : R -> Prop) (a b : list R) :
  (forall x y, P x -> P y -> P (x + y)) ->
  Forall P a -> Forall P b -> Forall P (add_rows a b).
Proof.
  intros HP Ha. revert b. induction Ha as [|x a Hx _ IH]; intros [|y b] Hb;
    unfold add_rows in *; simpl; constructor.
  - inversion Hb; subst. apply HP; assumption.
  - apply IH. inversion Hb; assumption.
Qed.

Lemma sum0_pred (P : R -> Prop) (rows : list (list R)) :
  (forall x y, P x -> P y -> P (x + y)) ->
  Forall (Forall P) rows -> Forall P (sum0 rows).
Proof.
  intros HP Hrows. destruct rows as [|x rest]; [constructor|]. simpl.
  inversion Hrows as [|? ? Hx Hrest]; subst. clear Hrows.
  revert x Hx. induction Hrest as [|y rest Hy _ IH]; intros x Hx; simpl; [exact Hx|].
  apply IH. apply add_rows_pred; assumption.
Qed.

Lemma inherited_entropy_nonneg (lg : tensor R) :
  Forall (fun h => 0 <= h) (Torch.entropy (Categorical_init lg)).
Proof.
  unfold Torch.entropy.
  rewrite (map_rows_of_init (fun a b => - sum_list (mul_rows a b))).
  apply Forall_map. apply Forall_forall. intros r _. simpl.
  rewrite p_log_p_row.
  pose proof (sum_p_log_p_nonpos (softmax_in_unit r)). lra.
Qed.

Lemma downsize_entropy_nonneg {A : Type} `{ToBool A} (lg : tensor R) (mk : tensor A) :
  Forall (fun h => 0 <= h) (Downsize.entropy (Downsize.CategoricalMasked_init lg mk)).
Proof.
  unfold Downsize.CategoricalMasked_init.
  destruct (Nat.eqb (length mk) 0) eqn:E.
  - unfold Downsize.entropy. cbn [Downsize.masks Downsize.base length Nat.eqb].
    apply inherited_entropy_nonneg.
  - unfold Downsize.entropy. cbn [Downsize.masks Downsize.base].
    destruct (Nat.eqb (length (as_bool mk)) 0); [apply inherited_entropy_nonneg|].
    rewrite (map_rows_of_init mul_rows).
    apply Forall_map. unfold where_. apply Forall_map.
    apply Forall_forall. intros [m q] Hin. cbn [fst snd].
    apply in_combine_r in Hin. apply in_map_iff in Hin.
    destruct Hin as (r & <- & _). rewrite p_log_p_row.
    pose proof (sum_where_nonpos m (p_log_p_all_nonpos (softmax_in_unit r))). lra.
Qed.

Lemma Forall_combine_fst {A B : Type} (P : A -> Prop) (l : list A) (l' : list B) :
  Forall P l -> Forall (fun ab => P (fst ab)) (combine l l').
Proof.
  intros H. revert l'. induction H as [|a l Ha _ IH]; intros [|b l']; simpl;
    constructor; [exact Ha|apply IH].
Qed.

Lemma nonpos_add (x y : R) : x <= 0 -> y <= 0 -> x + y <= 0.
Proof. lra. Qed.

Lemma nonneg_add (x y : R) : 0 <= x -> 0 <= y -> 0 <= x + y.
Proof. lra. Qed.

Lemma maxcho_eval_signs {X : Type} (self : MaxchoAgent.Agent X) (obs : list X)
    (act0 : tensor nat) (iam0 : tensor bool) (w w' : world)
    (act : tensor nat) (lp en : list R) (iam : tensor bool) :
  MaxchoAgent.get_action self obs (Some act0) (Some iam0) w = Ok (act, lp, en, iam) w' ->
  Forall (fun x => x <= 0) lp /\ Forall (fun h => 0 <= h) en.
Proof.
  rewrite maxcho_eval_closed. cbv zeta.
  destruct (log_probs _) as [[|lp0 lps]|] eqn:E; try discriminate.
  intros H. injection H as _ <- <- _ _. split.
  - apply (@sum0_pred (fun x => x <= 0) (lp0 :: lps)); [exact nonpos_add|].
    eapply log_probs_nonpos; [|exact E].
    apply (@Forall_combine_fst _ _ (fun c => exists lg, c = Categorical_init lg)).
    apply Forall_map. apply Forall_forall.
    intros lm _. eexists. reflexivity.
  - apply sum0_pred; [exact nonneg_add|].
    rewrite map_map. apply Forall_map. apply Forall_forall.
    intros lm _. apply inherited_entropy_nonneg.
Qed.

Lemma downsize_cats_signs (cats : list Downsize.CategoricalMasked) (act : tensor nat)
    (lps : list (list R)) :
  Forall (fun c => exists (lg : tensor R) (mk : tensor Z),
                     c = Downsize.CategoricalMasked_init lg mk) cats ->
  log_probs (combine (map Downsize.base cats) act) = Some lps ->
  Forall (fun x => x <= 0) (sum0 lps) /\
  Forall (fun h => 0 <= h) (sum0 (map Downsize.entropy cats)).
Proof.
  intros Hc E. split.
  - apply sum0_pred; [exact nonpos_add|].
    eapply log_probs_nonpos; [|exact E].
    apply (@Forall_combine_fst _ _ (fun c => exists lg, c = Categorical_init lg)).
    apply Forall_map.
    eapply Forall_impl; [|exact Hc]. intros c (lg & mk & ->).
    unfold Downsize.CategoricalMasked_init.
    destruct (Nat.eqb (length mk) 0); eexists; reflexivity.
  - apply sum0_pred; [exact nonneg_add|].
    apply Forall_map. eapply Forall_impl; [|exact Hc].
    intros c (lg & mk & ->). apply downsize_entropy_nonneg.
Qed.

End Signs.

(** X6.  Whenever [get_action] returns, in sampling mode or in evaluation
    mode and in each of the three files, every joint log-probability it
    returns is at most zero and every joint entropy is at least zero. *)
Theorem get_action_signs (X : Type) :
  (forall (self : DownsizeAgent.Agent X) (x : list X) (action : option (tensor nat))
          (iam0 : option (tensor Z)) (envs : Envs) (w w' : world)
          (act : tensor nat) (lp en : list R) (iam : tensor Z),
     DownsizeAgent.get_action self x action iam0 envs w = Ok (act, lp, en, iam) w' ->
     Forall (fun v => (v <= 0)%R) lp /\ Forall (fun h => (0 <= h)%R) en) /\
  (forall (self : MaxchoAgent.Agent X) (obs : list X) (action : option (tensor nat))
          (iam0 : option (tensor bool)) (w w' : world)
          (act : tensor nat) (lp en : list R) (iam : tensor bool),
     MaxchoAgent.get_action self obs action iam0 w = Ok (act, lp, en, iam) w' ->
     Forall (fun v => (v <= 0)%R) lp /\ Forall (fun h => (0 <= h)%R) en) /\
  (forall (self : MaxchoV2Agent.Agent X) (obs : list X) (action : option (tensor nat))
          (iam0 : option (tensor bool)) (w w' : world)
          (act : tensor nat) (lp en : list R) (iam : tensor bool),
     MaxchoV2Agent.get_action self obs action iam0 w = Ok (act, lp, en, iam) w' ->
     Forall (fun v => (v <= 0)%R) lp /\ Forall (fun h => (0 <= h)%R) en).
Proof.
  assert (HM : forall (self : MaxchoAgent.Agent X) (obs : list X)
                 (action : option (tensor nat)) (iam0 : option (tensor bool))
                 (w w' : world) (act : tensor nat) (lp en : list R) (iam : tensor bool),
             MaxchoAgent.get_action self obs action iam0 w = Ok (act, lp, en, iam) w' ->
             Forall (fun v => (v <= 0)%R) lp /\ Forall (fun h => (0 <= h)%R) en).
  { intros self obs [a|] iam0 w w' act lp en iam H.
    - destruct iam0 as [m|]; [eapply maxcho_eval_signs; exact H|discriminate].
    - rewrite maxcho_sample_closed in H. cbv zeta in H.
      destruct (Nat.eqb (count_true _) 0); [discriminate|].
      destruct (nth_error _ 0); [|discriminate].
      destruct (Nat.eqb (count_true _) 0); [discriminate|].
      eapply maxcho_eval_signs; exact H. }
  split; [|split].
  - intros self x [a|] iam0 envs w w' act lp en iam H.
    + destruct iam0 as [m|]; [|discriminate].
      rewrite downsize_eval_closed in H. cbv zeta in H.
      destruct (log_probs _) as [[|lp0 lps]|] eqn:E; try discriminate.
      injection H as _ <- <- _ _.
      refine (@downsize_cats_signs _ _ _ _ E).
      apply Forall_map. apply Forall_forall. intros li _. eexists. eexists. reflexivity.
    + rewrite downsize_sample_closed in H. cbv zeta in H.
      destruct (nth_error _ 0) as [l0|]; [|discriminate].
      destruct (log_probs _) as [[|lp0 lps]|] eqn:E; try discriminate.
      injection H as _ <- <- _ _.
      refine (@downsize_cats_signs _ _ _ _ E).
      constructor; [eexists; eexists; reflexivity|].
      apply Forall_map. apply Forall_forall. intros li _. eexists. eexists. reflexivity.
  - exact HM.
  - intros self obs action iam0 w w' act lp en iam H.
    rewrite maxcho_v2_is_maxcho in H. eapply HM; exact H.
Qed.

(** A run in the example game. *)
Lemma get_action_signs_witness :
  exists act lp en iam w',
    MaxchoAgent.get_action example_maxcho [tt; tt] None None example_world
      = Ok (act, lp, en, iam) w' /\
    Forall (fun v => (v <= 0)%R) lp /\ Forall (fun h => (0 <= h)%R) en.
Proof.
  destruct (@maxcho_sample_returns unit example_maxcho [tt; tt] None
              example_world 2 [2]) as [[[[act lp] en] iam] [w' H]].
  - reflexivity.
  - repeat constructor.
  - reflexivity.
  - repeat constructor.
  - repeat constructor.
  - vm_compute. discriminate.
  - intros units Hu. rewrite Hu. split; [repeat constructor|].
    vm_compute. discriminate.
  - exists act, lp, en, iam, w'. split; [exact H|].
    exact (proj1 (proj2 (get_action_signs unit)) _ _ _ _ _ _ _ _ _ _ H).
Defined.

(** ** The sampled action stays inside the action space *)

Section InRange.

Lemma width_init (n : nat) (lg : tensor R) (mk : tensor bool) :
  width n lg -> width n mk ->
  width n (logits (Categorical_init (where_ mk lg sentinel))).
Proof.
  intros Hlg Hmk. unfold width, Categorical_init. cbn [logits]. apply Forall_map.
  unfold where_. apply Forall_map. apply Forall_forall. intros [m l] Hin. cbn [fst snd].
  assert (Hm : length m = n).
  { apply in_combine_l in Hin. unfold width in Hmk.
    rewrite Forall_forall in Hmk. apply Hmk. exact Hin. }
  assert (Hl : length l = n).
  { apply in_combine_r in Hin. unfold width in Hlg.
    rewrite Forall_forall in Hlg. apply Hlg. exact Hin. }
  rewrite length_normalize, length_where_row. lia.
Qed.

Lemma width_downsize_init {A : Type} `{ToBool A} (n : nat) (lg : tensor R)
    (mk : tensor A) :
  width n lg -> width n mk ->
  width n (logits (Downsize.base (Downsize.CategoricalMasked_init lg mk))).
Proof.
  intros Hlg Hmk. unfold Downsize.CategoricalMasked_init.
  destruct (Nat.eqb (length mk) 0); cbn [Downsize.base].
  - unfold width, Categorical_init. cbn [logits]. apply Forall_map.
    unfold width in Hlg. eapply Forall_impl; [|exact Hlg].
    intros r Hr. simpl in Hr. rewrite length_normalize. exact Hr.
  - apply width_init; [exact Hlg|apply width_as_bool; exact Hmk].
Qed.

Lemma width_rows_nonempty (n : nat) (t : tensor R) :
  0 < n -> width n t -> Forall (fun r => r <> []) t.
Proof.
  intros Hn Ht. unfold width in Ht. eapply Forall_impl; [|exact Ht].
  intros r Hr E. simpl in Hr. rewrite E in Hr. simpl in Hr. lia.
Qed.

Lemma sample_rows_in_range (n : nat) (d : Categorical) (g : nat -> R) (c : nat) :
  0 < n -> width n (logits d) ->
  Forall (fun i => i < n) (sample_rows (probs d) g c).
Proof.
  intros Hn Hw.
  pose proof (sample_rows_valid d g c (width_rows_nonempty Hn Hw)) as Hv.
  unfold valid_choice in Hv. unfold width in Hw.
  induction Hv as [|r i rows s Hi _ IH]; constructor.
  - inversion Hw; subst. lia.
  - apply IH. inversion Hw; assumption.
Qed.

Lemma sample_all_in_range (ds : list Categorical) (ns : list nat) (g : nat -> R)
    (c : nat) :
  Forall2 (fun d n => 0 < n /\ width n (logits d)) ds ns ->
  Forall2 (fun a n => Forall (fun i => i < n) a) (sample_all ds g c) ns.
Proof.
  intros H. revert c. induction H as [|d n ds ns [Hn Hw] _ IH]; intros c; simpl;
    constructor.
  - apply sample_rows_in_range; assumption.
  - apply IH.
Qed.

Lemma blocks_widths {P : Type} (F : tensor R * tensor P -> Categorical)
    (ls : list (tensor R)) (ms : list (tensor P)) (ns : list nat) :
  (forall lm n, width n (fst lm) -> width n (snd lm) -> width n (logits (F lm))) ->
  Forall (fun n => 0 < n) ns ->
  Forall2 (fun seg n => width n seg) ls ns ->
  Forall2 (fun seg n => width n seg) ms ns ->
  Forall2 (fun d n => 0 < n /\ width n (logits d)) (map F (combine ls ms)) ns.
Proof.
  intros HF Hns Hls. revert ms. induction Hls as [|l n ls ns Hl _ IH]; intros ms Hms.
  - inversion Hms; subst. constructor.
  - inversion Hms as [|m ? ms' ? Hm Hms']; subst. inversion Hns; subst. simpl.
    constructor.
    + split; [assumption|]. apply HF; assumption.
    + apply IH; assumption.
Qed.

Lemma length_split_blocks {A : Type} (sizes : list nat) (t : tensor A) :
  Forall (fun seg => length seg = length t) (split t sizes).
Proof.
  revert t. induction sizes as [|n ns IH]; intros t; simpl; constructor.
  - apply length_map.
  - eapply Forall_impl; [|apply IH]. intros seg Hseg. cbv beta in Hseg.
    rewrite Hseg. apply length_map.
Qed.

Lemma Forall_tl {A : Type} (P : A -> Prop) (l : list A) :
  Forall P l -> Forall P (tl l).
Proof. intros H. destruct H; [constructor|assumption]. Qed.

Lemma length_sample_all (ds : list Categorical) (B : nat) (g : nat -> R) (c : nat) :
  Forall (fun d => length (logits d) = B) ds ->
  Forall (fun a => length a = B) (sample_all ds g c).
Proof.
  intros H. revert c. induction H as [|d ds Hd _ IH]; intros c; simpl; constructor.
  - rewrite length_sample_rows. unfold probs. rewrite length_map. exact Hd.
  - apply IH.
Qed.

Lemma blocks_batch {P : Type} (F : tensor R * tensor P -> Categorical)
    (ls : list (tensor R)) (ms : list (tensor P)) (B : nat) :
  (forall lm, length (fst lm) = B -> length (snd lm) = B ->
              length (logits (F lm)) = B) ->
  Forall (fun seg => length seg = B) ls ->
  Forall (fun seg => length seg = B) ms ->
  Forall (fun d => length (logits d) = B) (map F (combine ls ms)).
Proof.
  intros HF Hls. revert ms. induction Hls as [|l ls Hl _ IH]; intros ms Hms.
  - constructor.
  - destruct Hms as [|m ms Hm Hms]; [constructor|]. simpl. constructor.
    + apply HF; assumption.
    + apply IH. exact Hms.
Qed.

Lemma length_init (lg : tensor R) (mk : tensor bool) (B : nat) :
  length lg = B -> length mk = B ->
  length (logits (Categorical_init (where_ mk lg sentinel))) = B.
Proof.
  intros Hlg Hmk. unfold Categorical_init. cbn [logits].
  rewrite length_map, length_where. lia.
Qed.

Lemma length_downsize_init {A : Type} `{ToBool A} (lg : tensor R) (mk : tensor A)
    (B : nat) :
  length lg = B -> length mk = B ->
  length (logits (Downsize.base (Downsize.CategoricalMasked_init lg mk))) = B.
Proof.
  intros Hlg Hmk. unfold Downsize.CategoricalMasked_init.
  destruct (Nat.eqb (length mk) 0); cbn [Downsize.base].
  - unfold Categorical_init. cbn [logits]. rewrite length_map. exact Hlg.
  - apply length_init; [exact Hlg|]. unfold as_bool. rewrite length_map. exact Hmk.
Qed.

Context {X : Type}.

Lemma maxcho_action_in_range (self : MaxchoAgent.Agent X) (obs : list X)
    (iam0 : option (tensor bool)) (w w' : world) (n0 : nat) (ns : list nat)
    (act : tensor nat) (lp en : list R) (iam : tensor bool) :
  let client := vec_client (MaxchoAgent.envs self) in
  nvec (MaxchoAgent.envs self) = n0 :: ns ->
  Forall (fun n => 0 < n) (n0 :: ns) ->
  length (MaxchoAgent.network self obs) = length obs ->
  width (list_sum (n0 :: ns)) (MaxchoAgent.network self obs) ->
  width n0 (reshape (length obs) (as_bool (getUnitLocationMasks client))) ->
  (forall units, length units = length obs ->
     width (list_sum ns)
           (reshape (length units) (as_bool (getUnitActionMasks client units)))) ->
  MaxchoAgent.get_action self obs None iam0 w = Ok (act, lp, en, iam) w' ->
  Forall2 (fun a n => Forall (fun i => i < n) a) act (n0 :: ns).
Proof.
  intros client Hnvec Hpos Hlen Hw Hsrc Hact.
  rewrite maxcho_sample_closed. cbv zeta. fold client. rewrite Hnvec.
  destruct (Nat.eqb (count_true _) 0); [discriminate|].
  pose proof (width_split (n0 :: ns) Hw) as Hsplit.
  cbn [split] in Hsplit |- *. cbn [nth_error tl].
  inversion Hsplit as [|? ? ? ? Hl0 Hls]; subst.
  match goal with
  | |- context [getUnitActionMasks client ?a] =>
      assert (Ha0 : length a = length obs)
  end.
  { unfold Maxcho.CategoricalMasked_init.
    rewrite length_sample_rows, length_probs_init, length_where.
    rewrite length_reshape, length_map, Hlen. lia. }
  specialize (Hact _ Ha0).
  destruct (Nat.eqb (count_true _) 0); [discriminate|].
  rewrite maxcho_eval_closed. cbv zeta.
  destruct (log_probs _) as [[|lp0 lps]|]; try discriminate.
  intros H. injection H as <- _ _ _ _.
  inversion Hpos as [|? ? Hn0 Hns]; subst.
  constructor.
  - apply sample_rows_in_range; [exact Hn0|].
    unfold Maxcho.CategoricalMasked_init. apply width_init; assumption.
  - apply sample_all_in_range. apply blocks_widths;
      [|exact Hns|exact Hls|apply width_split; exact Hact].
    intros lm n H1 H2. unfold Maxcho.CategoricalMasked_init.
    apply width_init; assumption.
Qed.

Lemma downsize_action_in_range (self : DownsizeAgent.Agent X) (x : list X)
    (iam0 : option (tensor Z)) (envs : Envs) (w w' : world) (n0 : nat) (ns : list nat)
    (act : tensor nat) (lp en : list R) (iam : tensor Z) :
  let client := vec_client envs in
  nvec envs = n0 :: ns ->
  Forall (fun n => 0 < n) (n0 :: ns) ->
  width (list_sum (n0 :: ns)) (DownsizeAgent.network self x) ->
  width n0 (reshape (DownsizeAgent.num_envs self) (getUnitLocationMasks client)) ->
  (forall units,
     width (list_sum ns)
           (reshape (DownsizeAgent.num_envs self) (getUnitActionMasks client units))) ->
  DownsizeAgent.get_action self x None iam0 envs w = Ok (act, lp, en, iam) w' ->
  Forall2 (fun a n => Forall (fun i => i < n) a) act (n0 :: ns).
Proof.
  intros client Hnvec Hpos Hw Hsrc Hact.
  rewrite downsize_sample_closed. cbv zeta. fold client. rewrite Hnvec.
  pose proof (width_split (n0 :: ns) Hw) as Hsplit.
  cbn [split] in Hsplit |- *. cbn [nth_error tl].
  inversion Hsplit as [|? ? ? ? Hl0 Hls]; subst.
  destruct (log_probs _) as [[|lp0 lps]|]; try discriminate.
  intros H. injection H as <- _ _ _ _.
  inversion Hpos as [|? ? Hn0 Hns]; subst.
  constructor.
  - apply sample_rows_in_range; [exact Hn0|].
    apply width_downsize_init; assumption.
  - apply sample_all_in_range. rewrite map_map. apply blocks_widths;
      [|exact Hns|exact Hls|apply width_split; apply Hact].
    intros lm n H1 H2. apply width_downsize_init; assumption.
Qed.

(** Each component of the sampled action has one index per batch
    element. *)
Lemma maxcho_action_batch (self : MaxchoAgent.Agent X) (obs : list X)
    (iam0 : option (tensor bool)) (w w' : world)
    (act : tensor nat) (lp en : list R) (iam : tensor bool) :
  length (MaxchoAgent.network self obs) = length obs ->
  MaxchoAgent.get_action self obs None iam0 w = Ok (act, lp, en, iam) w' ->
  Forall (fun a => length a = length obs) act.
Proof.
  intros Hlen. rewrite maxcho_sample_closed. cbv zeta.
  destruct (Nat.eqb (count_true _) 0); [discriminate|].
  destruct (nth_error _ 0) as [l0|] eqn:El0; [|discriminate].
  assert (Hblocks : Forall (fun seg => length seg = length obs)
                      (split (MaxchoAgent.network self obs)
                             (nvec (MaxchoAgent.envs self)))).
  { rewrite <- Hlen. apply length_split_blocks. }
  assert (Hl0 : length l0 = length obs).
  { rewrite Forall_forall in Hblocks. apply Hblocks.
    eapply nth_error_In. exact El0. }
  match goal with
  | |- context [getUnitActionMasks _ ?a] => assert (Ha0 : length a = length obs)
  end.
  { rewrite length_sample_rows. unfold probs. rewrite length_map.
    unfold Maxcho.CategoricalMasked_init.
    apply length_init; [exact Hl0|apply length_reshape]. }
  destruct (Nat.eqb (count_true _) 0); [discriminate|].
  rewrite maxcho_eval_closed. cbv zeta.
  destruct (log_probs _) as [[|lp0 lps]|]; try discriminate.
  intros H. injection H as <- _ _ _ _.
  constructor; [exact Ha0|].
  apply length_sample_all. apply blocks_batch.
  - intros lm H1 H2. unfold Maxcho.CategoricalMasked_init.
    apply length_init; assumption.
  - apply Forall_tl. exact Hblocks.
  - eapply Forall_impl; [|apply length_split_blocks].
    intros seg Hseg. cbv beta in Hseg. rewrite Hseg, length_reshape. exact Ha0.
Qed.

Lemma downsize_action_batch (self : DownsizeAgent.Agent X) (x : list X)
    (iam0 : option (tensor Z)) (envs : Envs) (w w' : world)
    (act : tensor nat) (lp en : list R) (iam : tensor Z) :
  length (DownsizeAgent.network self x) = DownsizeAgent.num_envs self ->
  DownsizeAgent.get_action self x None iam0 envs w = Ok (act, lp, en, iam) w' ->
  Forall (fun a => length a = DownsizeAgent.num_envs self) act.
Proof.
  intros Hlen. rewrite downsize_sample_closed. cbv zeta.
  destruct (nth_error _ 0) as [l0|] eqn:El0; [|discriminate].
  assert (Hblocks : Forall (fun seg => length seg = DownsizeAgent.num_envs self)
                      (split (DownsizeAgent.network self x) (nvec envs))).
  { rewrite <- Hlen. apply length_split_blocks. }
  assert (Hl0 : length l0 = DownsizeAgent.num_envs self).
  { rewrite Forall_forall in Hblocks. apply Hblocks.
    eapply nth_error_In. exact El0. }
  destruct (log_probs _) as [[|lp0 lps]|]; try discriminate.
  intros H. injection H as <- _ _ _ _.
  constructor.
  - rewrite length_sample_rows. unfold probs. rewrite length_map.
    apply length_downsize_init; [exact Hl0|apply length_reshape].
  - apply length_sample_all. rewrite map_map. apply blocks_batch.
    + intros lm H1 H2. apply length_downsize_init; assumption.
    + apply Forall_tl. exact Hblocks.
    + eapply Forall_impl; [|apply length_split_blocks].
      intros seg Hseg. cbv beta in Hseg. rewrite Hseg. apply length_reshape.
Qed.

End InRange.

(** X7.  In sampling mode, on logits of width [sum(nvec)] and masks of
    the widths [nvec[0]] and [sum(nvec[1:])], with every component size
    positive, the action that [get_action] returns has one component per
    entry of [nvec], and every index of a component is smaller than the
    size of that component.  Each component has one index per batch
    element: per observation in [ppo_diverse_maxcho.py], whose network
    returns one row of logits per observation, and per environment in
    [ppo_diverse_downsize.py], when the network returns [num_envs] rows.
    [ppo_maxcho_v2.py] has the [get_action] of [ppo_diverse_maxcho.py]. *)
Theorem sampled_action_within_nvec (X : Type) :
  (forall (self : DownsizeAgent.Agent X) (x : list X) (iam0 : option (tensor Z))
          (envs : Envs) (w w' : world) (n0 : nat) (ns : list nat)
          (act : tensor nat) (lp en : list R) (iam : tensor Z),
     nvec envs = n0 :: ns ->
     Forall (fun n => 0 < n) (n0 :: ns) ->
     width (list_sum (n0 :: ns)) (DownsizeAgent.network self x) ->
     width n0 (reshape (DownsizeAgent.num_envs self)
                       (getUnitLocationMasks (vec_client envs))) ->
     (forall units,
        width (list_sum ns)
              (reshape (DownsizeAgent.num_envs self)
                       (getUnitActionMasks (vec_client envs) units))) ->
     DownsizeAgent.get_action self x None iam0 envs w = Ok (act, lp, en, iam) w' ->
     Forall2 (fun a n => Forall (fun i => i < n) a) act (nvec envs) /\
     (length (DownsizeAgent.network self x) = DownsizeAgent.num_envs self ->
      Forall (fun a => length a = DownsizeAgent.num_envs self) act)) /\
  (forall (self : MaxchoAgent.Agent X) (obs : list X) (iam0 : option (tensor bool))
          (w w' : world) (n0 : nat) (ns : list nat)
          (act : tensor nat) (lp en : list R) (iam : tensor bool),
     nvec (MaxchoAgent.envs self) = n0 :: ns ->
     Forall (fun n => 0 < n) (n0 :: ns) ->
     length (MaxchoAgent.network self obs) = length obs ->
     width (list_sum (n0 :: ns)) (MaxchoAgent.network self obs) ->
     width n0 (reshape (length obs)
                       (as_bool (getUnitLocationMasks (vec_client (MaxchoAgent.envs self))))) ->
     (forall units, length units = length obs ->
        width (list_sum ns)
              (reshape (length units)
                       (as_bool (getUnitActionMasks (vec_client (MaxchoAgent.envs self))
                                                    units)))) ->
     MaxchoAgent.get_action self obs None iam0 w = Ok (act, lp, en, iam) w' ->
     Forall2 (fun a n => Forall (fun i => i < n) a) act (nvec (MaxchoAgent.envs self)) /\
     Forall (fun a => length a = length obs) act) /\
  (forall (self : MaxchoV2Agent.Agent X) (obs : list X) (iam0 : option (tensor bool)),
     MaxchoV2Agent.get_action self obs None iam0
     = MaxchoAgent.get_action (as_maxcho self) obs None iam0).
Proof.
  split; [|split].
  - intros self x iam0 envs w w' n0 ns act lp en iam Hn Hpos Hw Hsrc Hact Hok.
    split.
    + rewrite Hn. eapply downsize_action_in_range; eassumption.
    + intros Hlen. eapply downsize_action_batch; eassumption.
  - intros self obs iam0 w w' n0 ns act lp en iam Hn Hpos Hlen Hw Hsrc Hact Hok.
    split.
    + rewrite Hn. eapply maxcho_action_in_range; eassumption.
    + eapply maxcho_action_batch; eassumption.
  - intros. reflexivity.
Qed.

(** A run in the example game, where [nvec = [2; 2]] and the batch has
    two observations. *)
Lemma sampled_action_within_nvec_witness :
  exists act lp en iam w',
    MaxchoAgent.get_action example_maxcho [tt; tt] None None example_world
      = Ok (act, lp, en, iam) w' /\
    Forall2 (fun a n => Forall (fun i => i < n) a) act [2; 2] /\
    Forall (fun a => length a = 2) act.
Proof.
  destruct (@maxcho_sample_returns unit example_maxcho [tt; tt] None
              example_world 2 [2]) as [[[[act lp] en] iam] [w' H]].
  - reflexivity.
  - repeat constructor.
  - reflexivity.
  - repeat constructor.
  - repeat constructor.
  - vm_compute. discriminate.
  - intros units Hu. rewrite Hu. split; [repeat constructor|].
    vm_compute. discriminate.
  - exists act, lp, en, iam, w'. split; [exact H|].
    refine (proj1 (proj2 (sampled_action_within_nvec unit))
              example_maxcho [tt; tt] None example_world w' 2 [2] act lp en iam
              eq_refl _ eq_refl _ _ _ H).
    + repeat constructor.
    + repeat constructor.
    + repeat constructor.
    + intros units Hu. rewrite Hu. repeat constructor.
Defined.

(** ** Map coordinates: [MicrortsUtils] *)

Section Coordinates.

Local Open Scope Z_scope.

Lemma lookup_directions_outside (action : Z) :
  ~ (0 <= action <= 3) ->
  MicrortsUtils.lookup MicrortsUtils.directions action = None.
Proof.
  intros H. unfold MicrortsUtils.directions. cbn [MicrortsUtils.lookup].
  destruct (Z.eqb_spec action 0); [lia|].
  destruct (Z.eqb_spec action 1); [lia|].
  destruct (Z.eqb_spec action 2); [lia|].
  destruct (Z.eqb_spec action 3); [lia|].
  reflexivity.
Qed.

Lemma existsb_eqb_In (action : Z) (l : list Z) :
  existsb (Z.eqb action) l = true <-> In action l.
Proof.
  rewrite existsb_exists. split.
  - intros [x [Hin Hx]]. apply Z.eqb_eq in Hx. subst. exact Hin.
  - intros Hin. exists action. split; [exact Hin | apply Z.eqb_refl].
Qed.

(** X8. [index_to_coord] splits an index into column [idx % map_size] and
    row [idx // map_size]: the default size is 16, a size of 0 raises
    [ZeroDivisionError], for every other size the index is
    [column + row * map_size], with the column in [0, map_size) when the
    size is positive, and the coordinates of [x + y * map_size] with
    [0 <= x < map_size] are [(x, y)]. *)
Theorem index_to_coord_round_trip (idx size : Z) :
  MicrortsUtils.index_to_coord idx None
    = MicrortsUtils.index_to_coord idx (Some 16) /\
  (size = 0 ->
     MicrortsUtils.index_to_coord idx (Some size)
       = inl MicrortsUtils.ZeroDivisionError) /\
  (size <> 0 ->
     exists x y,
       MicrortsUtils.index_to_coord idx (Some size) = inr (x, y) /\
       x + y * size = idx /\
       (0 < size -> 0 <= x < size)) /\
  (forall x y, 0 <= x < size ->
     MicrortsUtils.index_to_coord (x + y * size) (Some size) = inr (x, y)).
Proof.
  repeat split.
  - intros ->. reflexivity.
  - intros Hs. exists (idx mod size), (idx / size).
    unfold MicrortsUtils.index_to_coord.
    destruct (Z.eqb_spec size 0) as [E|_]; [contradiction|].
    split; [reflexivity|]. split.
    + pose proof (Z.div_mod idx size Hs). lia.
    + intros Hp. apply Z.mod_pos_bound. exact Hp.
  - intros x y Hx. unfold MicrortsUtils.index_to_coord.
    destruct (Z.eqb_spec size 0) as [E|_]; [lia|].
    f_equal. f_equal.
    + rewrite Z.mod_add by lia. apply Z.mod_small. exact Hx.
    + rewrite Z.div_add by lia. rewrite Z.div_small by exact Hx. lia.
Qed.

(** X9. [predict_destination] returns the position unchanged for an action
    that is not in [move_actions]; for a listed action among 0, 1, 2, 3 it
    returns a position at distance exactly one along one axis; for a listed
    action that is not a key of [directions] it raises [KeyError]. *)
Theorem predict_destination_cases (pos : Z * Z) (action : Z)
    (move_actions : option (list Z)) :
  let moves := match move_actions with Some l => l | None => [0; 1; 2; 3] end in
  (~ In action moves ->
     MicrortsUtils.predict_destination pos action move_actions = inr pos) /\
  (In action moves -> 0 <= action <= 3 ->
     exists x y,
       MicrortsUtils.predict_destination pos action move_actions = inr (x, y) /\
       Z.abs (x - fst pos) + Z.abs (y - snd pos) = 1) /\
  (In action moves -> ~ (0 <= action <= 3) ->
     MicrortsUtils.predict_destination pos action move_actions
       = inl (MicrortsUtils.KeyError action)).
Proof.
  intros moves. unfold MicrortsUtils.predict_destination. fold moves.
  repeat split.
  - intros Hn. destruct (existsb (Z.eqb action) moves) eqn:E; [|reflexivity].
    apply (proj1 (existsb_eqb_In _ _)) in E. contradiction.
  - intros Hin Hr. apply (proj2 (existsb_eqb_In _ _)) in Hin. rewrite Hin.
    assert (Hc : action = 0 \/ action = 1 \/ action = 2 \/ action = 3) by lia.
    destruct Hc as [ -> | [ -> | [ -> | -> ] ] ]; cbn [MicrortsUtils.lookup MicrortsUtils.directions Z.eqb];
      eexists; eexists; (split; [reflexivity|]); cbn [fst snd]; lia.
  - intros Hin Hr. apply (proj2 (existsb_eqb_In _ _)) in Hin. rewrite Hin.
    rewrite (lookup_directions_outside Hr). reflexivity.
Qed.

(** X10. With the default [move_actions], [predict_destination] never
    raises, and a move followed by the opposite move, [(action + 2) % 4],
    comes back to the starting position. *)
Theorem opposite_moves_cancel (pos : Z * Z) (action : Z) :
  (exists p, MicrortsUtils.predict_destination pos action None = inr p) /\
  (0 <= action <= 3 ->
   forall p,
     MicrortsUtils.predict_destination pos action None = inr p ->
     MicrortsUtils.predict_destination p ((action + 2) mod 4) None = inr pos).
Proof.
  split.
  - unfold MicrortsUtils.predict_destination.
    destruct (existsb (Z.eqb action) [0; 1; 2; 3]) eqn:E.
    + apply (proj1 (existsb_eqb_In _ _)) in E.
      destruct E as [ <- | [ <- | [ <- | [ <- | [] ] ] ] ]; eexists; reflexivity.
    + eexists; reflexivity.
  - intros Hr p Hp. destruct pos as [px py].
    assert (Hc : action = 0 \/ action = 1 \/ action = 2 \/ action = 3) by lia.
    unfold MicrortsUtils.predict_destination in *.
    destruct Hc as [ -> | [ -> | [ -> | -> ] ] ];
      cbn [existsb Z.eqb Pos.eqb orb MicrortsUtils.lookup MicrortsUtils.directions fst snd] in Hp;
      injection Hp as <-;
      [ change ((0 + 2) mod 4) with 2 | change ((1 + 2) mod 4) with 3
      | change ((2 + 2) mod 4) with 0 | change ((3 + 2) mod 4) with 1 ];
      cbn [existsb Z.eqb Pos.eqb orb MicrortsUtils.lookup MicrortsUtils.directions fst snd];
      f_equal; f_equal; lia.
Qed.

End Coordinates.

(** ** The shapes of the networks *)

Section NetworkShapes.

Local Open Scope Z_scope.

Ltac div_lia := Z.div_mod_to_equations; lia.

Lemma out_size_conv3 (h : Z) : Net.out_size h 3 1 1 = h.
Proof. unfold Net.out_size. rewrite Z.div_1_r. lia. Qed.

Lemma out_size_pool3 (h : Z) : Net.out_size h 3 2 1 = (h + 1) / 2.
Proof. unfold Net.out_size. div_lia. Qed.

Lemma out_size_pool2 (h : Z) : Net.out_size h 2 2 0 = h / 2.
Proof. unfold Net.out_size. div_lia. Qed.

Lemma conv3_keeps (c oc h w : Z) :
  1 <= h -> 1 <= w ->
  Net.conv2d c oc 3 1 (Net.Img c h w) = inr (Net.Img oc h w).
Proof.
  intros Hh Hw. unfold Net.conv2d. rewrite Z.eqb_refl, !out_size_conv3.
  replace (3 <=? h + 2 * 1) with true by (symmetry; apply Z.leb_le; lia).
  replace (3 <=? w + 2 * 1) with true by (symmetry; apply Z.leb_le; lia).
  reflexivity.
Qed.

Lemma pool3_halves (c h w : Z) :
  1 <= h -> 1 <= w ->
  Net.max_pool2d 3 2 1 (Net.Img c h w) = inr (Net.Img c ((h + 1) / 2) ((w + 1) / 2)).
Proof.
  intros Hh Hw. unfold Net.max_pool2d. rewrite !out_size_pool3.
  replace (1 <=? (h + 1) / 2) with true by (symmetry; apply Z.leb_le; div_lia).
  replace (1 <=? (w + 1) / 2) with true by (symmetry; apply Z.leb_le; div_lia).
  reflexivity.
Qed.

Lemma ResidualBlock_keeps (c h w : Z) :
  1 <= h -> 1 <= w ->
  Net.ResidualBlock_forward c (Net.Img c h w) = inr (Net.Img c h w).
Proof.
  intros Hh Hw. unfold Net.ResidualBlock_forward.
  rewrite (conv3_keeps c c Hh Hw). cbn [Net.and_then].
  rewrite (conv3_keeps c c Hh Hw). cbn [Net.and_then].
  rewrite !Z.eqb_refl. reflexivity.
Qed.

(** The forward pass of a [ConvSequence] on an image with the declared
    number of channels. *)
Lemma ConvSequence_forward_img (c h w oc h' w' : Z) :
  1 <= h' -> 1 <= w' ->
  Net.ConvSequence_forward (Net.mkConvSequence (c, h, w) oc) (Net.Img c h' w')
  = if (((h' + 1) / 2 =? (h + 1) / 2) && ((w' + 1) / 2 =? (w + 1) / 2))%bool
    then inr (Net.Img oc ((h' + 1) / 2) ((w' + 1) / 2))
    else inl Net.AssertionError.
Proof.
  intros Hh Hw. unfold Net.ConvSequence_forward, Net.get_output_shape.
  cbn [Net._input_shape Net._out_channels fst snd].
  rewrite (conv3_keeps c oc Hh Hw). cbn [Net.and_then].
  rewrite (pool3_halves oc Hh Hw). cbn [Net.and_then].
  assert (H1 : 1 <= (h' + 1) / 2) by div_lia.
  assert (H2 : 1 <= (w' + 1) / 2) by div_lia.
  rewrite (ResidualBlock_keeps oc H1 H2). cbn [Net.and_then].
  rewrite (ResidualBlock_keeps oc H1 H2). cbn [Net.and_then].
  rewrite Z.eqb_refl. reflexivity.
Qed.

(** X11. The assertion of [ConvSequence.forward] compares the shape that
    the convolution and the pooling produce with [get_output_shape()].  On
    an image of the declared channels and of height and width at least 1,
    the forward pass returns exactly the shape [get_output_shape()] when
    the input has the declared height and width, and more generally
    whenever [(h + 1) // 2] and [(w + 1) // 2] agree with the declared
    ones; otherwise it fails with [AssertionError]. *)
Theorem conv_sequence_output_shape (self : Net.ConvSequence) (h' w' : Z) :
  1 <= h' -> 1 <= w' ->
  let '(c, h, w) := Net._input_shape self in
  let '(oc, oh, ow) := Net.get_output_shape self in
  (h' = h -> w' = w ->
     Net.ConvSequence_forward self (Net.Img c h' w') = inr (Net.Img oc oh ow)) /\
  ((h' + 1) / 2 = oh -> (w' + 1) / 2 = ow ->
     Net.ConvSequence_forward self (Net.Img c h' w') = inr (Net.Img oc oh ow)) /\
  ((h' + 1) / 2 <> oh \/ (w' + 1) / 2 <> ow ->
     Net.ConvSequence_forward self (Net.Img c h' w') = inl Net.AssertionError).
Proof.
  intros Hh Hw. destruct self as [[[c h] w] oc].
  unfold Net.get_output_shape. cbn [Net._input_shape Net._out_channels].
  repeat split.
  - intros -> ->. rewrite (ConvSequence_forward_img c h w oc Hh Hw).
    rewrite !Z.eqb_refl. reflexivity.
  - intros E1 E2. rewrite (ConvSequence_forward_img c h w oc Hh Hw).
    rewrite E1, E2, !Z.eqb_refl. reflexivity.
  - intros Hne. rewrite (ConvSequence_forward_img c h w oc Hh Hw).
    destruct (Z.eqb_spec ((h' + 1) / 2) ((h + 1) / 2)) as [E1|N1];
      destruct (Z.eqb_spec ((w' + 1) / 2) ((w + 1) / 2)) as [E2|N2];
      cbn [andb]; try reflexivity.
    destruct Hne as [N|N]; contradiction.
Qed.

Lemma conv_sequence_output_shape_witness :
  Net.ConvSequence_forward (Net.mkConvSequence (27, 16, 16) 16) (Net.Img 27 16 16)
    = inr (Net.Img 16 8 8) /\
  Net.ConvSequence_forward (Net.mkConvSequence (27, 16, 16) 16) (Net.Img 27 15 16)
    = inr (Net.Img 16 8 8) /\
  Net.ConvSequence_forward (Net.mkConvSequence (27, 16, 16) 16) (Net.Img 27 8 16)
    = inl Net.AssertionError.
Proof.
  pose proof (@conv_sequence_output_shape (Net.mkConvSequence (27, 16, 16) 16) 16 16
                ltac:(lia) ltac:(lia)) as A.
  pose proof (@conv_sequence_output_shape (Net.mkConvSequence (27, 16, 16) 16) 15 16
                ltac:(lia) ltac:(lia)) as B.
  pose proof (@conv_sequence_output_shape (Net.mkConvSequence (27, 16, 16) 16) 8 16
                ltac:(lia) ltac:(lia)) as C.
  cbn in A, B, C.
  split; [|split].
  - apply (proj1 A); reflexivity.
  - apply (proj1 (proj2 B)); reflexivity.
  - apply (proj2 (proj2 C)). left. discriminate.
Defined.

(** X12. The network of [ppo_diverse_maxcho.py] and [ppo_maxcho_v2.py]
    is built for the reversed shape of the observation space, so its
    [ConvSequence]s expect the height and the width swapped.  On an
    observation of the shape of the observation space, with height and
    width at least 1, the forward pass returns 256 features when
    [(height + 1) // 2 = (width + 1) // 2] (in particular on square maps),
    and fails with [AssertionError] in the first [ConvSequence]
    otherwise. *)
Theorem maxcho_network_forward_shape (hh ww cc : Z) :
  1 <= hh -> 1 <= ww ->
  Net.MaxchoNetwork_forward (Net.MaxchoNetwork_init (hh, ww, cc)) (hh, ww, cc)
  = if ((hh + 1) / 2 =? (ww + 1) / 2)
    then inr (Net.Vec 256)
    else inl Net.AssertionError.
Proof.
  intros Hh Hw.
  unfold Net.MaxchoNetwork_forward, Net.MaxchoNetwork_init.
  cbn [Net.build_convs Net.get_output_shape Net._input_shape Net._out_channels
       Net.convs Net.in_features Net.run_convs fst snd].
  rewrite (ConvSequence_forward_img cc ww hh 16 Hh Hw).
  rewrite (Z.eqb_sym ((ww + 1) / 2) ((hh + 1) / 2)), andb_diag.
  destruct (Z.eqb_spec ((hh + 1) / 2) ((ww + 1) / 2)) as [E|N];
    [|reflexivity].
  cbn [Net.and_then].
  assert (H1 : 1 <= (hh + 1) / 2) by div_lia.
  assert (H2 : 1 <= (ww + 1) / 2) by div_lia.
  rewrite (ConvSequence_forward_img 16 ((ww + 1) / 2) ((hh + 1) / 2) 32 H1 H2).
  rewrite E, !Z.eqb_refl. cbn [andb Net.and_then].
  assert (H3 : 1 <= ((ww + 1) / 2 + 1) / 2) by div_lia.
  rewrite (ConvSequence_forward_img 32 (((ww + 1) / 2 + 1) / 2)
             (((ww + 1) / 2 + 1) / 2) 32 H3 H3).
  rewrite !Z.eqb_refl. cbn [andb Net.and_then Net.flatten Net.linear].
  rewrite Z.eqb_refl. reflexivity.
Qed.

Lemma maxcho_network_forward_shape_witness :
  Net.MaxchoNetwork_forward (Net.MaxchoNetwork_init (16, 16, 27)) (16, 16, 27)
    = inr (Net.Vec 256) /\
  Net.MaxchoNetwork_forward (Net.MaxchoNetwork_init (8, 16, 27)) (8, 16, 27)
    = inl Net.AssertionError.
Proof.
  split.
  - exact (@maxcho_network_forward_shape 16 16 27 ltac:(lia) ltac:(lia)).
  - exact (@maxcho_network_forward_shape 8 16 27 ltac:(lia) ltac:(lia)).
Defined.

(** X13. The input size of the [nn.Linear] layer that [Agent.__init__] of
    [ppo_diverse_maxcho.py] and [ppo_maxcho_v2.py] computes by asking the
    three [ConvSequence]s for their output shapes is
    [32 * ceil(width / 8) * ceil(height / 8)]: three halvings that round
    up, and the channels of the last one. *)
Theorem maxcho_in_features_closed_form (hh ww cc : Z) :
  Net.in_features (Net.MaxchoNetwork_init (hh, ww, cc))
    = 32 * ((ww + 7) / 8) * ((hh + 7) / 8) /\
  map Net._input_shape (Net.convs (Net.MaxchoNetwork_init (hh, ww, cc)))
    = [(cc, ww, hh); (16, (ww + 1) / 2, (hh + 1) / 2);
       (32, (ww + 3) / 4, (hh + 3) / 4)].
Proof.
  unfold Net.MaxchoNetwork_init.
  cbn [Net.build_convs Net.get_output_shape Net._input_shape Net._out_channels
       Net.convs Net.in_features fst snd map].
  assert (A : forall x, ((x + 1) / 2 + 1) / 2 = (x + 3) / 4) by (intros; div_lia).
  assert (B : forall x, (((x + 1) / 2 + 1) / 2 + 1) / 2 = (x + 7) / 8) by (intros; div_lia).
  rewrite !B, !A. split; reflexivity.
Qed.

(** X14. The network of [ppo_diverse_downsize.py] ends in
    [nn.Linear(32 * ((h // 4) * (w // 4)), 128)] after two
    [nn.MaxPool2d(2)].  On an observation of height and width at least 1
    the forward pass returns 128 features when both are at least 4: two
    floor halvings are a floor division by 4, so the size of the flattened
    image is the declared one whatever the remainders.  Below 4 the second
    pooling (or the first) has nothing left to pool and the pass fails. *)
Theorem downsize_network_forward_shape (h w c : Z) :
  1 <= h -> 1 <= w ->
  Net.DownsizeNetwork_forward (h, w, c)
  = if ((4 <=? h) && (4 <=? w))%bool then inr (Net.Vec 128) else inl Net.ShapeError.
Proof.
  intros Hh Hw. unfold Net.DownsizeNetwork_forward.
  rewrite (conv3_keeps c 16 Hh Hw). cbn [Net.and_then].
  unfold Net.max_pool2d at 1. rewrite !out_size_pool2.
  destruct (Z.leb_spec 1 (h / 2)) as [A|A]; cbn [andb Net.and_then].
  2:{ replace (4 <=? h) with false by (symmetry; apply Z.leb_gt; div_lia).
      reflexivity. }
  destruct (Z.leb_spec 1 (w / 2)) as [B|B]; cbn [andb Net.and_then].
  2:{ replace (4 <=? w) with false by (symmetry; apply Z.leb_gt; div_lia).
      rewrite andb_false_r. reflexivity. }
  rewrite (conv3_keeps 16 32 A B). cbn [Net.and_then].
  unfold Net.max_pool2d. rewrite !out_size_pool2.
  destruct (Z.leb_spec 1 (h / 2 / 2)) as [A2|A2]; cbn [andb Net.and_then].
  2:{ replace (4 <=? h) with false by (symmetry; apply Z.leb_gt; div_lia).
      reflexivity. }
  destruct (Z.leb_spec 1 (w / 2 / 2)) as [B2|B2]; cbn [andb Net.and_then].
  2:{ replace (4 <=? w) with false by (symmetry; apply Z.leb_gt; div_lia).
      rewrite andb_false_r. reflexivity. }
  replace (4 <=? h) with true by (symmetry; apply Z.leb_le; div_lia).
  replace (4 <=? w) with true by (symmetry; apply Z.leb_le; div_lia).
  cbn [andb Net.flatten Net.linear Net.and_then].
  replace (32 * (h / 2 / 2) * (w / 2 / 2) =? 32 * (h / 4 * (w / 4))) with true.
  - reflexivity.
  - symmetry. apply Z.eqb_eq.
    assert (E : forall x, x / 2 / 2 = x / 4) by (intros; div_lia).
    rewrite !E. ring.
Qed.

Lemma downsize_network_forward_shape_witness :
  Net.DownsizeNetwork_forward (10, 7, 27) = inr (Net.Vec 128) /\
  Net.DownsizeNetwork_forward (3, 16, 27) = inl Net.ShapeError.
Proof.
  split.
  - exact (@downsize_network_forward_shape 10 7 27 ltac:(lia) ltac:(lia)).
  - exact (@downsize_network_forward_shape 3 16 27 ltac:(lia) ltac:(lia)).
Defined.

End NetworkShapes.

(** ** Advantages and returns *)

Section AdvantageEstimates.

Lemma length_setitem (t : tensor R) (i : nat) (r : list R) :
  length (Train.setitem t i r) = length t.
Proof.
  revert i; induction t as [|x t IH]; intros [|i]; try reflexivity.
  change (Train.setitem (x :: t) (S i) r) with (x :: Train.setitem t i r).
  simpl. rewrite IH. reflexivity.
Qed.

Lemma getitem_setitem_same (t : tensor R) (i : nat) (r : list R) :
  i < length t -> Train.getitem (Train.setitem t i r) i = r.
Proof.
  revert i; induction t as [|x t IH]; intros [|i] H; simpl in H; try lia.
  - reflexivity.
  - change (Train.setitem (x :: t) (S i) r) with (x :: Train.setitem t i r).
    unfold Train.getitem in *. simpl. apply IH. lia.
Qed.

Lemma getitem_setitem_other (t : tensor R) (i j : nat) (r : list R) :
  i <> j -> Train.getitem (Train.setitem t i r) j = Train.getitem t j.
Proof.
  revert i j; induction t as [|x t IH]; intros i j H.
  - unfold Train.setitem, Train.getitem. destruct i, j; reflexivity.
  - destruct i as [|i].
    + destruct j as [|j]; [lia|]. reflexivity.
    + change (Train.setitem (x :: t) (S i) r) with (x :: Train.setitem t i r).
      destruct j as [|j]; [reflexivity|].
      unfold Train.getitem in *. simpl. apply IH. lia.
Qed.

Lemma reversed_range_split (T k : nat) :
  S k <= T ->
  rev (seq (T - S k) (S k)) = rev (seq (T - k) k) ++ [T - S k].
Proof.
  intros H. cbn [seq rev]. replace (S (T - S k)) with (T - k) by lia. reflexivity.
Qed.

Ltac unfold_rows :=
  unfold Train.mul_any, Train.sub_rows, Train.scale, Train.number_minus,
    add_rows, mul_rows.

Lemma gae_row_last (n : nat) :
  forall (g : R) (r lv nn v : list R),
    length r = n -> length lv = n -> length nn = n -> length v = n ->
    add_rows (add_rows (Train.sub_rows (add_rows r (mul_rows (Train.scale g lv) nn)) v)
                       (Train.mul_any (Train.scale (g * 1) nn) (Train.Number 0)))
             v
    = add_rows r (mul_rows (Train.scale g nn) lv).
Proof.
  unfold_rows. induction n as [|n IHn]; intros g r lv nn v Hr Hlv Hnn Hv;
    destruct r, lv, nn, v; simpl in *; try discriminate; try reflexivity.
  f_equal; [lra | apply IHn; lia].
Qed.

Lemma gae_row_step (n : nat) :
  forall (g : R) (r nv nn v a : list R),
    length r = n -> length nv = n -> length nn = n -> length v = n ->
    length a = n ->
    add_rows (add_rows (Train.sub_rows (add_rows r (mul_rows (Train.scale g nv) nn)) v)
                       (Train.mul_any (Train.scale (g * 1) nn) (Train.Row a)))
             v
    = add_rows r (mul_rows (Train.scale g nn) (add_rows a nv)).
Proof.
  unfold_rows. induction n as [|n IHn]; intros g r nv nn v a Hr Hnv Hnn Hv Ha;
    destruct r, nv, nn, v, a; simpl in *; try discriminate; try reflexivity.
  f_equal; [lra | apply IHn; lia].
Qed.

Lemma sub_add_rows (n : nat) :
  forall (a v : list R),
    length a = n -> length v = n -> Train.sub_rows (add_rows a v) v = a.
Proof.
  unfold_rows. induction n as [|n IHn]; intros a v Ha Hv;
    destruct a, v; simpl in *; try discriminate; try reflexivity.
  f_equal; [lra | apply IHn; lia].
Qed.

Lemma length_add_rows (a b : list R) :
  length (add_rows a b) = Nat.min (length a) (length b).
Proof. unfold add_rows. rewrite length_map, length_combine. reflexivity. Qed.

Lemma length_sub_rows (a b : list R) :
  length (Train.sub_rows a b) = Nat.min (length a) (length b).
Proof. unfold Train.sub_rows. rewrite length_map, length_combine. reflexivity. Qed.

Lemma length_scale (s : R) (a : list R) : length (Train.scale s a) = length a.
Proof. apply length_map. Qed.

Lemma length_number_minus (s : R) (a : list R) :
  length (Train.number_minus s a) = length a.
Proof. apply length_map. Qed.

Lemma width_getitem (n : nat) (t : tensor R) (i : nat) :
  width n t -> i < length t -> length (Train.getitem t i) = n.
Proof.
  intros W Hi. unfold width in W. rewrite Forall_forall in W.
  apply W. unfold Train.getitem. apply nth_In. exact Hi.
Qed.

Lemma getitem_add_tensors (a b : tensor R) (i : nat) :
  i < length a -> i < length b ->
  Train.getitem (Train.add_tensors a b) i
  = add_rows (Train.getitem a i) (Train.getitem b i).
Proof.
  revert b i; induction a as [|x a IH]; intros [|y b] i Ha Hb; simpl in *; try lia.
  destruct i as [|i]; [reflexivity|].
  unfold Train.getitem in *. simpl. apply IH; lia.
Qed.

Lemma getitem_sub_tensors (a b : tensor R) (i : nat) :
  i < length a -> i < length b ->
  Train.getitem (Train.sub_tensors a b) i
  = Train.sub_rows (Train.getitem a i) (Train.getitem b i).
Proof.
  revert b i; induction a as [|x a IH]; intros [|y b] i Ha Hb; simpl in *; try lia.
  destruct i as [|i]; [reflexivity|].
  unfold Train.getitem in *. simpl. apply IH; lia.
Qed.

Lemma tensor_ext (a b : tensor R) :
  length a = length b ->
  (forall i, i < length a -> Train.getitem a i = Train.getitem b i) ->
  a = b.
Proof. intros L H. apply (nth_ext a b [] [] L). exact H. Qed.

Variables (gamma gae_lambda : R) (num_steps : nat).
Variables (rewards values dones : tensor R) (next_done last_value : list R).

Local Abbreviation new_lastgaelam :=
  (Train.new_lastgaelam gamma gae_lambda num_steps rewards values dones
     next_done last_value).

Local Abbreviation new_return :=
  (Train.new_return gamma num_steps rewards dones next_done last_value).

Lemma gae_body_eq (advantages : tensor R) (lastgaelam : Train.number_or_row) (t : nat) :
  Train.gae_body gamma gae_lambda num_steps rewards values dones
    next_done last_value (advantages, lastgaelam) t
  = (Train.setitem advantages t (new_lastgaelam t lastgaelam),
     Train.Row (new_lastgaelam t lastgaelam)).
Proof. reflexivity. Qed.

(** The state of the loop after its first [k] iterations. *)
Lemma gae_fold (init : tensor R) (k : nat) :
  length init = num_steps -> k <= num_steps ->
  let st := fold_left (Train.gae_body gamma gae_lambda num_steps rewards values
                         dones next_done last_value)
                      (rev (seq (num_steps - k) k)) (init, Train.Number 0) in
  length (fst st) = num_steps /\
  snd st = match k with
           | O => Train.Number 0
           | S _ => Train.Row (Train.getitem (fst st) (num_steps - k))
           end /\
  (forall t, num_steps - k <= t < num_steps ->
     Train.getitem (fst st) t
     = new_lastgaelam t (if Nat.eqb t (num_steps - 1) then Train.Number 0
                         else Train.Row (Train.getitem (fst st) (t + 1)))) /\
  (forall t, t < num_steps - k -> Train.getitem (fst st) t = Train.getitem init t).
Proof.
  intros Hinit. induction k as [|k IH]; intros Hk.
  - cbn [seq rev fold_left fst snd]. repeat split; try assumption.
    intros t Ht. lia.
  - specialize (IH ltac:(lia)). cbv zeta in IH |- *.
    rewrite (reversed_range_split Hk), fold_left_app.
    destruct (fold_left _ (rev (seq (num_steps - k) k)) (init, Train.Number 0))
      as [adv lg] eqn:E.
    cbn [fst snd] in IH. destruct IH as (L & Hlg & Hrec & Hinit').
    cbn [fold_left]. rewrite gae_body_eq. cbn [fst snd].
    set (t0 := num_steps - S k) in *.
    assert (Ht0 : t0 < length adv) by (rewrite L; unfold t0; lia).
    repeat split.
    + rewrite length_setitem. exact L.
    + rewrite (getitem_setitem_same _ _ Ht0). reflexivity.
    + intros t Ht. destruct (Nat.eq_dec t t0) as [->|Hne].
      * rewrite (getitem_setitem_same _ _ Ht0).
        destruct k as [|k'].
        -- rewrite Hlg. replace (Nat.eqb t0 (num_steps - 1)) with true
             by (symmetry; apply Nat.eqb_eq; unfold t0; lia).
           reflexivity.
        -- rewrite Hlg. replace (Nat.eqb t0 (num_steps - 1)) with false
             by (symmetry; apply Nat.eqb_neq; unfold t0; lia).
           rewrite getitem_setitem_other by lia.
           replace (t0 + 1) with (num_steps - S k') by (unfold t0; lia).
           reflexivity.
      * rewrite getitem_setitem_other by (intro; apply Hne; symmetry; assumption).
        rewrite Hrec by (unfold t0 in *; lia).
        rewrite (@getitem_setitem_other adv t0 (t + 1)) by (unfold t0 in *; lia).
        reflexivity.
    + intros t Ht. rewrite getitem_setitem_other by (unfold t0 in *; lia).
      apply Hinit'. unfold t0 in *. lia.
Qed.

Lemma length_zeros_like (t : tensor R) : length (Train.zeros_like t) = length t.
Proof. unfold Train.zeros_like. apply length_map. Qed.

(** The advantages satisfy the backward recurrence of the loop. *)
Lemma gae_recurrence :
  length rewards = num_steps ->
  let A := Train.gae_advantages gamma gae_lambda num_steps rewards values dones
             next_done last_value in
  length A = num_steps /\
  forall t, t < num_steps ->
    Train.getitem A t
    = new_lastgaelam t (if Nat.eqb t (num_steps - 1) then Train.Number 0
                        else Train.Row (Train.getitem A (t + 1))).
Proof.
  intros HT A.
  pose proof (@gae_fold (Train.zeros_like rewards) num_steps
                ltac:(rewrite length_zeros_like; exact HT) ltac:(lia)) as H.
  cbv zeta in H. rewrite Nat.sub_diag in H.
  destruct H as (L & _ & Hrec & _).
  split; [exact L|]. intros t Ht. apply Hrec. lia.
Qed.

Lemma returns_body_eq (returns : tensor R) (t : nat) :
  Train.returns_body gamma num_steps rewards dones next_done last_value returns t
  = Train.setitem returns t (new_return t returns).
Proof. reflexivity. Qed.

Lemma returns_fold (init : tensor R) (k : nat) :
  length init = num_steps -> k <= num_steps ->
  let st := fold_left (Train.returns_body gamma num_steps rewards dones
                         next_done last_value)
                      (rev (seq (num_steps - k) k)) init in
  length st = num_steps /\
  (forall t, num_steps - k <= t < num_steps ->
     Train.getitem st t = new_return t st) /\
  (forall t, t < num_steps - k -> Train.getitem st t = Train.getitem init t).
Proof.
  intros Hinit. induction k as [|k IH]; intros Hk.
  - cbn [seq rev fold_left]. repeat split; try assumption. intros t Ht. lia.
  - specialize (IH ltac:(lia)). cbv zeta in IH |- *.
    rewrite (reversed_range_split Hk), fold_left_app.
    set (R0 := fold_left _ (rev (seq (num_steps - k) k)) init) in *.
    destruct IH as (L & Hrec & Hinit').
    cbn [fold_left]. rewrite returns_body_eq.
    set (t0 := num_steps - S k) in *.
    assert (Ht0 : t0 < length R0) by (rewrite L; unfold t0; lia).
    assert (Hsame : forall t, t0 <= t ->
              new_return t (Train.setitem R0 t0 (new_return t0 R0)) = new_return t R0).
    { intros t Ht. unfold Train.new_return.
      rewrite (@getitem_setitem_other R0 t0 (t + 1)) by lia. reflexivity. }
    repeat split.
    + rewrite length_setitem. exact L.
    + intros t Ht. rewrite Hsame by lia.
      destruct (Nat.eq_dec t t0) as [->|Hne].
      * apply getitem_setitem_same. exact Ht0.
      * rewrite getitem_setitem_other by (intro; apply Hne; symmetry; assumption).
        apply Hrec. unfold t0 in *. lia.
    + intros t Ht. rewrite getitem_setitem_other by (unfold t0 in *; lia).
      apply Hinit'. unfold t0 in *. lia.
Qed.

Lemma returns_recurrence :
  length rewards = num_steps ->
  let Rt := Train.plain_returns gamma num_steps rewards dones next_done last_value in
  length Rt = num_steps /\
  forall t, t < num_steps -> Train.getitem Rt t = new_return t Rt.
Proof.
  intros HT Rt.
  pose proof (@returns_fold (Train.zeros_like rewards) num_steps
                ltac:(rewrite length_zeros_like; exact HT) ltac:(lia)) as H.
  cbv zeta in H. rewrite Nat.sub_diag in H.
  destruct H as (L & Hrec & _).
  split; [exact L|]. intros t Ht. apply Hrec. lia.
Qed.

Lemma nth_zip (f : R * R -> R) (a b : list R) (i : nat) :
  length a = length b -> i < length a ->
  nth i (map f (combine a b)) 0%R = f (nth i a 0%R, nth i b 0%R).
Proof.
  revert b i; induction a as [|x a IH]; intros [|y b] i L Hi; simpl in *; try lia.
  destruct i as [|i]; [reflexivity|]. apply IH; lia.
Qed.

Lemma nth_map_lt (f : R -> R) (a : list R) (i : nat) :
  i < length a -> nth i (map f a) 0%R = f (nth i a 0%R).
Proof.
  revert i; induction a as [|x a IH]; intros i Hi; simpl in *; try lia.
  destruct i as [|i]; [reflexivity|]. apply IH; lia.
Qed.

Lemma at2_getitem (t : tensor R) (b i : nat) :
  b < length t -> at2 t b i = nth_error (Train.getitem t b) i.
Proof.
  intros Hb. unfold at2, Train.getitem.
  rewrite (nth_error_nth' t [] Hb). reflexivity.
Qed.

Section Shaped.

Variable n : nat.
Hypothesis rewards_steps : length rewards = num_steps.
Hypothesis values_steps : length values = num_steps.
Hypothesis dones_steps : length dones = num_steps.
Hypothesis rewards_width : width n rewards.
Hypothesis values_width : width n values.
Hypothesis dones_width : width n dones.
Hypothesis next_done_width : length next_done = n.
Hypothesis last_value_width : length last_value = n.

Lemma length_nextnonterminal (t : nat) :
  t < num_steps ->
  length (Train.nextnonterminal num_steps dones next_done t) = n.
Proof.
  intros Ht. unfold Train.nextnonterminal.
  destruct (Nat.eqb_spec t (num_steps - 1)) as [E|N];
    rewrite length_number_minus; [assumption|].
  apply width_getitem; [assumption | lia].
Qed.

Lemma length_nextvalues (t : nat) :
  t < num_steps ->
  length (if Nat.eqb t (num_steps - 1) then last_value
          else Train.getitem values (t + 1)) = n.
Proof.
  intros Ht. destruct (Nat.eqb_spec t (num_steps - 1)) as [E|N]; [assumption|].
  apply width_getitem; [assumption | lia].
Qed.

Lemma length_delta (t : nat) :
  t < num_steps ->
  length (Train.delta gamma num_steps rewards values dones next_done last_value t) = n.
Proof.
  intros Ht. unfold Train.delta.
  rewrite length_sub_rows, length_add_rows, length_mul_rows, length_scale.
  rewrite (length_nextvalues Ht), (length_nextnonterminal Ht).
  rewrite (@width_getitem n rewards t), (@width_getitem n values t);
    try assumption; lia.
Qed.

Lemma length_new_lastgaelam (t : nat) (lg : Train.number_or_row) :
  t < num_steps ->
  match lg with Train.Number _ => True | Train.Row r => length r = n end ->
  length (new_lastgaelam t lg) = n.
Proof.
  intros Ht Hlg. unfold Train.new_lastgaelam.
  rewrite length_add_rows, (length_delta Ht).
  destruct lg as [x|r]; cbn [Train.mul_any].
  - rewrite length_map, length_scale, (length_nextnonterminal Ht). lia.
  - rewrite length_mul_rows, length_scale, (length_nextnonterminal Ht), Hlg. lia.
Qed.

(** Every row of the advantages and of the returns has one entry per
    environment. *)
Lemma length_gae_row (t : nat) :
  t < num_steps ->
  length (Train.getitem
            (Train.gae_advantages gamma gae_lambda num_steps rewards values dones
               next_done last_value) t) = n.
Proof.
  intros Ht. destruct (gae_recurrence rewards_steps) as [_ Hrec].
  remember (num_steps - 1 - t) as k eqn:Hk. revert t Ht Hk.
  induction k as [|k IH]; intros t Ht Hk; rewrite (Hrec t Ht);
    apply length_new_lastgaelam; try exact Ht.
  - replace (Nat.eqb t (num_steps - 1)) with true
      by (symmetry; apply Nat.eqb_eq; lia). exact I.
  - replace (Nat.eqb t (num_steps - 1)) with false
      by (symmetry; apply Nat.eqb_neq; lia).
    apply IH; lia.
Qed.

Lemma length_new_return (t : nat) (returns : tensor R) :
  t < num_steps ->
  length (if Nat.eqb t (num_steps - 1) then last_value
          else Train.getitem returns (t + 1)) = n ->
  length (new_return t returns) = n.
Proof.
  intros Ht H. unfold Train.new_return.
  rewrite length_add_rows, length_mul_rows, length_scale.
  rewrite (length_nextnonterminal Ht), H.
  rewrite (@width_getitem n rewards t); try assumption; lia.
Qed.

Lemma length_return_row (t : nat) :
  t < num_steps ->
  length (Train.getitem
            (Train.plain_returns gamma num_steps rewards dones next_done
               last_value) t) = n.
Proof.
  intros Ht. destruct (returns_recurrence rewards_steps) as [_ Hret].
  remember (num_steps - 1 - t) as k eqn:Hk. revert t Ht Hk.
  induction k as [|k IH]; intros t Ht Hk; rewrite (Hret t Ht);
    apply length_new_return; try exact Ht.
  - replace (Nat.eqb t (num_steps - 1)) with true
      by (symmetry; apply Nat.eqb_eq; lia). assumption.
  - replace (Nat.eqb t (num_steps - 1)) with false
      by (symmetry; apply Nat.eqb_neq; lia).
    apply IH; lia.
Qed.

Lemma gae_plus_values_is_return :
  gae_lambda = 1%R ->
  forall k t, t < num_steps -> num_steps - 1 - t = k ->
    add_rows (Train.getitem
                (Train.gae_advantages gamma gae_lambda num_steps rewards values
                   dones next_done last_value) t)
             (Train.getitem values t)
    = Train.getitem
        (Train.plain_returns gamma num_steps rewards dones next_done last_value) t.
Proof.
  intros Hl.
  destruct (gae_recurrence rewards_steps) as [_ Hrec].
  destruct (returns_recurrence rewards_steps) as [_ Hret].
  induction k as [|k IH]; intros t Ht Hk.
  - rewrite (Hrec t Ht), (Hret t Ht).
    unfold Train.new_lastgaelam, Train.new_return, Train.delta.
    replace (Nat.eqb t (num_steps - 1)) with true
      by (symmetry; apply Nat.eqb_eq; lia).
    replace (gamma * gae_lambda)%R with (gamma * 1)%R by (rewrite Hl; reflexivity).
    apply (@gae_row_last n).
    + apply width_getitem; [assumption | lia].
    + assumption.
    + apply length_nextnonterminal. exact Ht.
    + apply width_getitem; [assumption | lia].
  - assert (Ht' : t + 1 < num_steps) by lia.
    rewrite (Hrec t Ht), (Hret t Ht).
    unfold Train.new_lastgaelam, Train.new_return, Train.delta.
    replace (Nat.eqb t (num_steps - 1)) with false
      by (symmetry; apply Nat.eqb_neq; lia).
    rewrite <- (IH (t + 1) Ht' ltac:(lia)).
    replace (gamma * gae_lambda)%R with (gamma * 1)%R by (rewrite Hl; reflexivity).
    apply (@gae_row_step n).
    + apply width_getitem; [assumption | lia].
    + apply width_getitem; [assumption | lia].
    + apply length_nextnonterminal. exact Ht.
    + apply width_getitem; [assumption | lia].
    + apply length_gae_row. exact Ht'.
Qed.

(** X15. With [gae_lambda = 1] the branch [if args.gae:] computes the
    same returns, and the same advantages, as the branch [else:]: the
    generalised advantage estimate then is the discounted return minus the
    value.  The storage has [num_steps] rows of one entry per
    environment. *)
Theorem gae_with_lambda_one_is_discounted_return :
  gae_lambda = 1%R ->
  Train.gae_returns gamma gae_lambda num_steps rewards values dones
    next_done last_value
  = Train.plain_returns gamma num_steps rewards dones next_done last_value /\
  Train.gae_advantages gamma gae_lambda num_steps rewards values dones
    next_done last_value
  = Train.plain_advantages gamma num_steps rewards values dones
      next_done last_value.
Proof.
  intros Hl.
  destruct (gae_recurrence rewards_steps) as [LA _].
  destruct (returns_recurrence rewards_steps) as [LR _].
  assert (E : Train.gae_returns gamma gae_lambda num_steps rewards values dones
                next_done last_value
              = Train.plain_returns gamma num_steps rewards dones next_done
                  last_value).
  { apply tensor_ext.
    - unfold Train.gae_returns, Train.add_tensors.
      rewrite length_map, length_combine, LA, LR, values_steps. lia.
    - intros t Ht. unfold Train.gae_returns, Train.add_tensors in Ht.
      rewrite length_map, length_combine, LA, values_steps in Ht.
      unfold Train.gae_returns.
      rewrite getitem_add_tensors by lia.
      apply (gae_plus_values_is_return Hl (k := num_steps - 1 - t)); lia. }
  split; [exact E|].
  unfold Train.plain_advantages. rewrite <- E. unfold Train.gae_returns.
  apply tensor_ext.
  - unfold Train.sub_tensors, Train.add_tensors.
    rewrite !length_map, !length_combine, !length_map, !length_combine.
    rewrite LA, values_steps. lia.
  - intros t Ht. rewrite LA in Ht.
    rewrite getitem_sub_tensors.
    + rewrite getitem_add_tensors by lia.
      symmetry. apply (@sub_add_rows n).
      * apply length_gae_row. exact Ht.
      * apply width_getitem; [assumption | lia].
    + unfold Train.add_tensors. rewrite length_map, length_combine. lia.
    + lia.
Qed.

Lemma nth_mul_rows_zero (a b : list R) (i : nat) :
  nth i a 0%R = 0%R -> nth i (mul_rows a b) 0%R = 0%R.
Proof.
  unfold mul_rows. revert b i; induction a as [|x a IH]; intros [|y b] i H;
    simpl in *; try (destruct i; reflexivity).
  destruct i as [|i]; [rewrite H; lra|]. apply IH. exact H.
Qed.

Lemma nth_mul_any_zero (a : list R) (lg : Train.number_or_row) (i : nat) :
  nth i a 0%R = 0%R -> nth i (Train.mul_any a lg) 0%R = 0%R.
Proof.
  intros H. destruct lg as [x|row]; cbn [Train.mul_any].
  - destruct (Nat.lt_ge_cases i (length a)) as [Hi|Hi].
    + rewrite nth_map_lt by exact Hi. rewrite H. lra.
    + apply nth_overflow. rewrite length_map. exact Hi.
  - apply nth_mul_rows_zero. exact H.
Qed.

Lemma length_mul_any_le (a : list R) (lg : Train.number_or_row) :
  length (Train.mul_any a lg) <= length a.
Proof.
  destruct lg as [x|row]; cbn [Train.mul_any].
  - rewrite length_map. lia.
  - rewrite length_mul_rows. lia.
Qed.

Lemma nth_scale (s : R) (a : list R) (i : nat) :
  nth i (Train.scale s a) 0%R = (s * nth i a 0)%R.
Proof.
  unfold Train.scale. destruct (Nat.lt_ge_cases i (length a)) as [Hi|Hi].
  - apply nth_map_lt. exact Hi.
  - rewrite !nth_overflow; [lra | exact Hi | rewrite length_map; exact Hi].
Qed.

(** X16. Where the next step starts a new episode, nothing is
    bootstrapped: if environment [i] is done after step [t] ([dones[t + 1]],
    or [next_done] for the last step, is 1 there), then its advantage at
    [t] is the reward minus the value and its return is the reward, in
    both branches and whatever [gamma] and [gae_lambda] are. *)
Theorem episode_end_cuts_the_bootstrap (t i : nat) (r v : R) :
  t < num_steps ->
  at2 rewards t i = Some r ->
  at2 values t i = Some v ->
  nth_error (if Nat.eqb t (num_steps - 1) then next_done
             else Train.getitem dones (t + 1)) i = Some 1%R ->
  at2 (Train.gae_advantages gamma gae_lambda num_steps rewards values dones
         next_done last_value) t i = Some (r - v)%R /\
  at2 (Train.gae_returns gamma gae_lambda num_steps rewards values dones
         next_done last_value) t i = Some r /\
  at2 (Train.plain_returns gamma num_steps rewards dones next_done last_value) t i
    = Some r.
Proof.
  intros Ht Hr Hv Hd.
  destruct (gae_recurrence rewards_steps) as [LA Hrec].
  destruct (returns_recurrence rewards_steps) as [LR Hret].
  rewrite at2_getitem in Hr by lia. rewrite at2_getitem in Hv by lia.
  assert (Lr : length (Train.getitem rewards t) = n)
    by (apply width_getitem; [assumption | lia]).
  assert (Lv : length (Train.getitem values t) = n)
    by (apply width_getitem; [assumption | lia]).
  assert (Hi : i < n).
  { rewrite <- Lr. apply nth_error_Some. rewrite Hr. discriminate. }
  assert (Er : nth i (Train.getitem rewards t) 0%R = r)
    by (apply nth_error_nth; exact Hr).
  assert (Ev : nth i (Train.getitem values t) 0%R = v)
    by (apply nth_error_nth; exact Hv).
  assert (Lnn := length_nextnonterminal Ht).
  assert (Lnv := length_nextvalues Ht).
  assert (Enn : nth i (Train.nextnonterminal num_steps dones next_done t) 0%R = 0%R).
  { unfold Train.nextnonterminal in *.
    destruct (Nat.eqb t (num_steps - 1));
      unfold Train.number_minus in *; rewrite length_map in Lnn;
      rewrite nth_map_lt by lia;
      rewrite (nth_error_nth _ _ 0%R Hd); lra. }
  assert (Ed : nth i (Train.delta gamma num_steps rewards values dones next_done
                        last_value t) 0%R = (r - v)%R).
  { unfold Train.delta, Train.sub_rows. rewrite nth_zip.
    2:{ rewrite length_add_rows, length_mul_rows, length_scale. lia. }
    2:{ rewrite length_add_rows, length_mul_rows, length_scale. lia. }
    cbn [fst snd]. unfold add_rows. rewrite nth_zip.
    2:{ rewrite length_mul_rows, length_scale. lia. }
    2:{ lia. }
    cbn [fst snd]. unfold mul_rows. rewrite nth_zip.
    2:{ rewrite length_scale. lia. }
    2:{ rewrite length_scale. lia. }
    cbn [fst snd]. rewrite Enn, Er, Ev. lra. }
  assert (EA : nth_error (Train.getitem
                 (Train.gae_advantages gamma gae_lambda num_steps rewards values
                    dones next_done last_value) t) i = Some (r - v)%R).
  { assert (LAt := length_gae_row Ht).
    rewrite (nth_error_nth' _ 0%R) by lia. f_equal.
    rewrite (Hrec t Ht) in LAt |- *.
    unfold Train.new_lastgaelam in LAt |- *.
    rewrite length_add_rows, (length_delta Ht) in LAt.
    match type of LAt with
    | Nat.min _ (length (Train.mul_any ?a ?lg)) = _ =>
        pose proof (length_mul_any_le a lg) as Hle;
        rewrite length_scale, Lnn in Hle
    end.
    unfold add_rows. rewrite nth_zip.
    2:{ rewrite (length_delta Ht). lia. }
    2:{ rewrite (length_delta Ht). lia. }
    cbn [fst snd]. rewrite Ed.
    rewrite nth_mul_any_zero; [lra|].
    rewrite nth_scale, Enn. lra. }
  assert (ER : nth_error (Train.getitem
                 (Train.plain_returns gamma num_steps rewards dones next_done
                    last_value) t) i = Some r).
  { assert (LRt := length_return_row Ht).
    rewrite (nth_error_nth' _ 0%R) by lia. f_equal.
    rewrite (Hret t Ht) in LRt |- *.
    unfold Train.new_return in LRt |- *.
    rewrite length_add_rows, length_mul_rows, length_scale, Lnn, Lr in LRt.
    unfold add_rows. rewrite nth_zip.
    2:{ rewrite length_mul_rows, length_scale, Lnn, Lr. lia. }
    2:{ lia. }
    cbn [fst snd]. rewrite Er.
    rewrite nth_mul_rows_zero; [lra|].
    rewrite nth_scale, Enn. lra. }
  split; [|split].
  - rewrite at2_getitem by lia. exact EA.
  - assert (LG : length (Train.gae_returns gamma gae_lambda num_steps rewards
                           values dones next_done last_value) = num_steps).
    { unfold Train.gae_returns, Train.add_tensors.
      rewrite length_map, length_combine, LA, values_steps. lia. }
    rewrite at2_getitem by lia. unfold Train.gae_returns.
    rewrite getitem_add_tensors by lia.
    assert (LAt := length_gae_row Ht).
    rewrite (nth_error_nth' _ 0%R) by (rewrite length_add_rows; lia).
    f_equal. unfold add_rows. rewrite nth_zip by lia. cbn [fst snd].
    rewrite (nth_error_nth _ _ 0%R EA), Ev. lra.
  - rewrite at2_getitem by lia. exact ER.
Qed.

(** X17. With [gae_lambda = 0] the advantage of every step is the
    one-step temporal-difference error [delta] of that step. *)
Theorem gae_with_lambda_zero_is_td_error (t : nat) :
  gae_lambda = 0%R -> t < num_steps ->
  Train.getitem
    (Train.gae_advantages gamma gae_lambda num_steps rewards values dones
       next_done last_value) t
  = Train.delta gamma num_steps rewards values dones next_done last_value t.
Proof.
  intros Hl Ht.
  destruct (gae_recurrence rewards_steps) as [LA Hrec].
  assert (LAt := length_gae_row Ht).
  rewrite (Hrec t Ht) in LAt |- *.
  unfold Train.new_lastgaelam in LAt |- *.
  rewrite length_add_rows, (length_delta Ht) in LAt.
  match type of LAt with
  | Nat.min _ (length (Train.mul_any ?a ?lg)) = _ =>
      pose proof (length_mul_any_le a lg) as Hle;
      rewrite length_scale, (length_nextnonterminal Ht) in Hle
  end.
  apply (nth_ext _ _ 0%R 0%R).
  - rewrite length_add_rows, (length_delta Ht). lia.
  - intros i Hi. rewrite length_add_rows, (length_delta Ht) in Hi.
    unfold add_rows. rewrite nth_zip.
    2:{ rewrite (length_delta Ht). lia. }
    2:{ rewrite (length_delta Ht). lia. }
    cbn [fst snd]. rewrite nth_mul_any_zero; [lra|].
    rewrite nth_scale, Hl. lra.
Qed.

End Shaped.

End AdvantageEstimates.

Lemma gae_with_lambda_one_is_discounted_return_witness :
  Train.gae_returns (1 / 2) 1 2 [[1; 5]; [0; 2]]%R [[2; 3]; [1; 1]]%R
    [[0; 0]; [0; 1]]%R [1; 0]%R [3; 4]%R
  = Train.plain_returns (1 / 2) 2 [[1; 5]; [0; 2]]%R [[0; 0]; [0; 1]]%R
      [1; 0]%R [3; 4]%R /\
  Train.gae_advantages (1 / 2) 1 2 [[1; 5]; [0; 2]]%R [[2; 3]; [1; 1]]%R
    [[0; 0]; [0; 1]]%R [1; 0]%R [3; 4]%R
  = Train.plain_advantages (1 / 2) 2 [[1; 5]; [0; 2]]%R [[2; 3]; [1; 1]]%R
      [[0; 0]; [0; 1]]%R [1; 0]%R [3; 4]%R.
Proof.
  apply gae_with_lambda_one_is_discounted_return with (n := 2%nat);
    try reflexivity; repeat constructor.
Defined.

Lemma episode_end_cuts_the_bootstrap_witness :
  at2 (Train.gae_advantages (1 / 2) (1 / 3) 2 [[1; 5]; [0; 2]]%R [[2; 3]; [1; 1]]%R
         [[0; 0]; [0; 1]]%R [1; 0]%R [3; 4]%R) 0 1 = Some (5 - 3)%R /\
  at2 (Train.gae_returns (1 / 2) (1 / 3) 2 [[1; 5]; [0; 2]]%R [[2; 3]; [1; 1]]%R
         [[0; 0]; [0; 1]]%R [1; 0]%R [3; 4]%R) 0 1 = Some 5%R /\
  at2 (Train.plain_returns (1 / 2) 2 [[1; 5]; [0; 2]]%R [[0; 0]; [0; 1]]%R
         [1; 0]%R [3; 4]%R) 0 1 = Some 5%R.
Proof.
  apply episode_end_cuts_the_bootstrap with (n := 2%nat);
    try reflexivity; try lia; repeat constructor.
Defined.

Lemma gae_with_lambda_zero_is_td_error_witness :
  Train.getitem
    (Train.gae_advantages (1 / 2) 0 2 [[1; 5]; [0; 2]]%R [[2; 3]; [1; 1]]%R
       [[0; 0]; [0; 1]]%R [1; 0]%R [3; 4]%R) 0
  = Train.delta (1 / 2) 2 [[1; 5]; [0; 2]]%R [[2; 3]; [1; 1]]%R
      [[0; 0]; [0; 1]]%R [1; 0]%R [3; 4]%R 0.
Proof.
  apply gae_with_lambda_zero_is_td_error with (n := 2%nat);
    try reflexivity; try lia; repeat constructor.
Defined.

(** ** The learning-rate schedule and the minibatches *)

Section Schedule.

Lemma nth_error_map_seq {B : Type} (f : nat -> B) (m k : nat) :
  k < m -> nth_error (map f (seq 0 m)) k = Some (f k).
Proof.
  intros H. rewrite nth_error_map.
  rewrite (nth_error_nth' (seq 0 m) 0) by (rewrite length_seq; exact H).
  rewrite seq_nth by exact H. reflexivity.
Qed.

(** X18. With annealing, the updates [1 .. num_updates] get the learning
    rates [learning_rate * (1 - k / num_updates)] for [k = 0, 1, ...]: the
    first update runs at the full rate, each later one at
    [learning_rate / num_updates] less, and the last at
    [learning_rate / num_updates]; the rate never reaches 0 and the
    division by [num_updates] never fails, because the loop is empty when
    [num_updates] is 0. *)
Theorem annealed_learning_rates (learning_rate : R) (num_updates : Z) :
  (0 < learning_rate)%R ->
  length (Train.learning_rates learning_rate 1 num_updates)
    = Z.to_nat num_updates /\
  forall k, k < Z.to_nat num_updates ->
    exists x,
      nth_error (Train.learning_rates learning_rate 1 num_updates) k
        = Some (inr x) /\
      x = (learning_rate * (1 - INR k / IZR num_updates))%R /\
      (learning_rate / IZR num_updates <= x <= learning_rate)%R.
Proof.
  intros Hlr. unfold Train.learning_rates, Train.range.
  replace (num_updates + 1 - 1)%Z with num_updates by lia.
  split.
  - rewrite !length_map, length_seq. reflexivity.
  - intros k Hk. rewrite map_map, (nth_error_map_seq _ Hk).
    unfold Train.lrnow.
    destruct (Z.eqb_spec num_updates 0) as [E|N]; [subst; simpl in Hk; lia|].
    assert (HN : (1 <= num_updates)%Z) by lia.
    assert (HNr : (1 <= IZR num_updates)%R) by (apply IZR_le; exact HN).
    assert (Hkr : (INR k <= IZR num_updates - 1)%R).
    { rewrite INR_IZR_INZ, <- minus_IZR. apply IZR_le. lia. }
    assert (Hk0 : (0 <= INR k)%R) by apply pos_INR.
    eexists. split; [reflexivity|].
    rewrite plus_IZR, <- INR_IZR_INZ.
    replace (1 + INR k - 1)%R with (INR k) by lra.
    split; [ring|].
    assert (Hq : (0 < / IZR num_updates)%R) by (apply Rinv_0_lt_compat; lra).
    assert (Hq1 : (IZR num_updates * / IZR num_updates = 1)%R)
      by (apply Rinv_r; lra).
    unfold Rdiv. set (q := (/ IZR num_updates)%R) in *.
    assert (A1 : (0 <= INR k * q)%R) by (apply Rmult_le_pos; lra).
    assert (A2 : (INR k * q <= 1 - q)%R).
    { assert (E : ((IZR num_updates - 1) * q = 1 - q)%R)
        by (rewrite Rmult_minus_distr_r, Hq1; ring).
      rewrite <- E. apply Rmult_le_compat_r; lra. }
    assert (A3 : (0 <= learning_rate * (1 - INR k * q - q))%R)
      by (apply Rmult_le_pos; lra).
    assert (A4 : (0 <= learning_rate * (INR k * q))%R)
      by (apply Rmult_le_pos; lra).
    split; lra.
Qed.

Lemma annealed_learning_rates_witness :
  length (Train.learning_rates 1 1 4) = 4 /\
  forall k, k < 4 ->
    exists x,
      nth_error (Train.learning_rates 1 1 4) k = Some (inr x) /\
      x = (1 * (1 - INR k / 4))%R /\
      (1 / 4 <= x <= 1)%R.
Proof.
  exact (@annealed_learning_rates 1%R 4%Z ltac:(lra)).
Defined.

Lemma firstn_add {A : Type} (a b : nat) (l : list A) :
  firstn (a + b) l = firstn a l ++ firstn b (skipn a l).
Proof.
  revert l; induction a as [|a IH]; intros l; [reflexivity|].
  destruct l as [|x l]; simpl.
  - rewrite firstn_nil. reflexivity.
  - rewrite IH. reflexivity.
Qed.

Lemma concat_blocks {A : Type} (m c : nat) (l : list A) :
  concat (map (fun k => firstn m (skipn (k * m) l)) (seq 0 c)) = firstn (c * m) l.
Proof.
  induction c as [|c IH]; [reflexivity|].
  rewrite seq_S, map_app, concat_app, IH. cbn [map concat plus].
  rewrite app_nil_r. replace (S c * m) with (c * m + m) by lia.
  symmetry. apply firstn_add.
Qed.

Lemma firstn_min_length {A : Type} (c : nat) (l : list A) :
  firstn (Nat.min c (length l)) l = firstn c l.
Proof.
  destruct (Nat.le_ge_cases c (length l)) as [H|H].
  - rewrite Nat.min_l by exact H. reflexivity.
  - rewrite Nat.min_r by exact H. rewrite firstn_all, firstn_all2 by exact H.
    reflexivity.
Qed.

(** A slice with bounds [0 <= start <= stop]. *)
Lemma slice_nonneg {A : Type} (l : list A) (start stop : Z) :
  (0 <= start <= stop)%Z ->
  Train.slice l start stop
  = firstn (Z.to_nat (stop - start)) (skipn (Z.to_nat start) l).
Proof.
  intros H. unfold Train.slice, Train.slice_bound. cbv zeta.
  replace (start <? 0)%Z with false by (symmetry; apply Z.ltb_ge; lia).
  replace (stop <? 0)%Z with false by (symmetry; apply Z.ltb_ge; lia).
  destruct (Z.le_gt_cases (Z.of_nat (length l)) start) as [Hs|Hs].
  - rewrite Z.min_r by lia. rewrite Z.min_r by lia.
    rewrite Nat2Z.id, Z.sub_diag. cbn [Z.to_nat firstn].
    rewrite (skipn_all2 l) by lia. rewrite firstn_nil. reflexivity.
  - rewrite (Z.min_l start) by lia.
    rewrite <- (firstn_min_length (Z.to_nat (stop - start))).
    f_equal. rewrite length_skipn. lia.
Qed.

Lemma range_step_pos (stop step : Z) :
  (0 < step)%Z ->
  Train.range_step 0 stop step
  = inr (map (fun k : nat => (Z.of_nat k * step)%Z)
             (seq 0 (Z.to_nat ((stop + step - 1) / step)))).
Proof.
  intros H. unfold Train.range_step.
  replace (step =? 0)%Z with false by (symmetry; apply Z.eqb_neq; lia).
  replace (0 <? step)%Z with true by (symmetry; apply Z.ltb_lt; lia).
  replace (stop - 0 + step - 1)%Z with (stop + step - 1)%Z by lia.
  reflexivity.
Qed.

(** The minibatches of an epoch, for a positive [minibatch_size]. *)
Lemma minibatches_pos {A : Type} (inds : list A) (batch_size minibatch_size : Z) :
  (0 < minibatch_size)%Z ->
  Train.minibatches inds batch_size minibatch_size
  = inr (map (fun k => firstn (Z.to_nat minibatch_size)
                         (skipn (k * Z.to_nat minibatch_size) inds))
             (seq 0 (Z.to_nat ((batch_size + minibatch_size - 1) / minibatch_size)))).
Proof.
  intros H. unfold Train.minibatches. rewrite (range_step_pos _ H).
  f_equal. rewrite map_map. apply map_ext. intros k.
  rewrite slice_nonneg by nia.
  f_equal; [f_equal; lia|]. f_equal. nia.
Qed.

(** X19. With a positive [minibatch_size] and [batch_size] indices, the
    index sets [inds[start:end]] of one epoch are consecutive blocks of
    [inds]: put end to end they give [inds] back, so every sample is used
    exactly once per epoch; there are [ceil(batch_size / minibatch_size)]
    of them, none is empty and none has more than [minibatch_size]
    indices. *)
Theorem minibatches_cover_the_batch {A : Type} (inds : list A) (minibatch_size : Z) :
  (0 < minibatch_size)%Z ->
  let batch_size := Z.of_nat (length inds) in
  exists mbs,
    Train.minibatches inds batch_size minibatch_size = inr mbs /\
    concat mbs = inds /\
    Z.of_nat (length mbs) = ((batch_size + minibatch_size - 1) / minibatch_size)%Z /\
    Forall (fun mb => (1 <= Z.of_nat (length mb) <= minibatch_size)%Z) mbs.
Proof.
  intros Hm B. eexists. split; [apply (minibatches_pos _ _ Hm)|].
  set (m := Z.to_nat minibatch_size).
  set (c := Z.to_nat ((B + minibatch_size - 1) / minibatch_size)).
  assert (Hc0 : (0 <= (B + minibatch_size - 1) / minibatch_size)%Z).
  { apply Z.div_pos; unfold B; lia. }
  assert (Hlow : ((B + minibatch_size - 1) / minibatch_size * minibatch_size
                  >= B)%Z).
  { pose proof (Z.div_mod (B + minibatch_size - 1) minibatch_size ltac:(lia)).
    pose proof (Z.mod_pos_bound (B + minibatch_size - 1) minibatch_size Hm). nia. }
  assert (Hup : (((B + minibatch_size - 1) / minibatch_size - 1) * minibatch_size
                 < B)%Z).
  { pose proof (Z.div_mod (B + minibatch_size - 1) minibatch_size ltac:(lia)).
    pose proof (Z.mod_pos_bound (B + minibatch_size - 1) minibatch_size Hm). nia. }
  split; [|split].
  - rewrite concat_blocks. apply firstn_all2. unfold c, m, B in *. nia.
  - rewrite length_map, length_seq. unfold c. lia.
  - apply Forall_forall. intros mb Hin. apply in_map_iff in Hin.
    destruct Hin as [k [<- Hk]]. apply in_seq in Hk.
    rewrite length_firstn, length_skipn. unfold c, m, B in *. nia.
Qed.

Lemma minibatches_cover_the_batch_witness :
  exists mbs,
    Train.minibatches [0; 1; 2; 3; 4; 5; 6]%Z 7 3 = inr mbs /\
    concat mbs = [0; 1; 2; 3; 4; 5; 6]%Z /\
    Z.of_nat (length mbs) = ((7 + 3 - 1) / 3)%Z /\
    Forall (fun mb => (1 <= Z.of_nat (length mb) <= 3)%Z) mbs.
Proof.
  exact (@minibatches_cover_the_batch Z [0; 1; 2; 3; 4; 5; 6]%Z 3 ltac:(lia)).
Defined.

(** X20. [parse_args] sets [minibatch_size = batch_size // n_minibatch].
    For a positive [n_minibatch]: when it exceeds the batch size the
    minibatch size is 0 and the loop over the minibatches raises
    [ValueError]; when it divides the batch size there are exactly
    [n_minibatch] minibatches of [minibatch_size] indices each; otherwise
    there are more than [n_minibatch] minibatches. *)
Theorem n_minibatch_and_the_minibatches {A : Type} (inds : list A)
    (num_envs num_steps n_minibatch : Z) :
  Z.of_nat (length inds) = Train.batch_size num_envs num_steps ->
  (0 < n_minibatch)%Z ->
  let B := Train.batch_size num_envs num_steps in
  exists m,
    Train.minibatch_size B n_minibatch = inr m /\
    ((B < n_minibatch)%Z -> Train.minibatches inds B m = inl Train.ValueError) /\
    ((n_minibatch <= B)%Z ->
     exists mbs,
       Train.minibatches inds B m = inr mbs /\
       ((B mod n_minibatch = 0)%Z ->
          Z.of_nat (length mbs) = n_minibatch /\
          Forall (fun mb => Z.of_nat (length mb) = m) mbs) /\
       ((B mod n_minibatch <> 0)%Z -> (n_minibatch < Z.of_nat (length mbs))%Z)).
Proof.
  intros HB Hn B. fold B in HB.
  assert (HB0 : (0 <= B)%Z) by lia.
  exists (B / n_minibatch)%Z. split; [|split].
  - unfold Train.minibatch_size.
    replace (n_minibatch =? 0)%Z with false by (symmetry; apply Z.eqb_neq; lia).
    reflexivity.
  - intros Hlt. rewrite Z.div_small by lia. reflexivity.
  - intros Hle.
    pose proof (Z.div_mod B n_minibatch ltac:(lia)) as Hdm.
    pose proof (Z.mod_pos_bound B n_minibatch Hn) as Hmod.
    set (m := (B / n_minibatch)%Z) in *.
    assert (Hm : (0 < m)%Z) by (unfold m; apply Z.div_str_pos; lia).
    rewrite (minibatches_pos _ _ Hm). eexists. split; [reflexivity|].
    pose proof (Z.div_mod (B + m - 1) m ltac:(lia)) as Hdm'.
    pose proof (Z.mod_pos_bound (B + m - 1) m Hm) as Hmod'.
    set (c := ((B + m - 1) / m)%Z) in *.
    assert (Hc0 : (0 <= c)%Z) by (unfold c; apply Z.div_pos; lia).
    split.
    + intros H0. rewrite H0 in Hdm.
      assert (Hc : c = n_minibatch) by nia.
      split.
      * rewrite length_map, length_seq. lia.
      * apply Forall_forall. intros mb Hin. apply in_map_iff in Hin.
        destruct Hin as [k [<- Hk]]. apply in_seq in Hk.
        rewrite length_firstn, length_skipn. nia.
    + intros H0. rewrite length_map, length_seq. 
      assert (n_minibatch < c)%Z by nia. lia.
Qed.

Lemma n_minibatch_and_the_minibatches_witness :
  exists m,
    Train.minibatch_size (Train.batch_size 2 5) 4 = inr m /\
    ((Train.batch_size 2 5 < 4)%Z ->
     Train.minibatches [0; 1; 2; 3; 4; 5; 6; 7; 8; 9]%Z (Train.batch_size 2 5) m
     = inl Train.ValueError) /\
    ((4 <= Train.batch_size 2 5)%Z ->
     exists mbs,
       Train.minibatches [0; 1; 2; 3; 4; 5; 6; 7; 8; 9]%Z (Train.batch_size 2 5) m
       = inr mbs /\
       ((Train.batch_size 2 5 mod 4 = 0)%Z ->
          Z.of_nat (length mbs) = 4%Z /\
          Forall (fun mb => Z.of_nat (length mb) = m) mbs) /\
       ((Train.batch_size 2 5 mod 4 <> 0)%Z -> (4 < Z.of_nat (length mbs))%Z)).
Proof.
  exact (@n_minibatch_and_the_minibatches Z [0; 1; 2; 3; 4; 5; 6; 7; 8; 9]%Z 2 5 4
           ltac:(reflexivity) ltac:(lia)).
Defined.

End Schedule.

(** ** The losses of a minibatch *)

Section Losses.

Lemma sum_list_le_max_rows (a b : list R) :
  length a = length b ->
  (sum_list a <= sum_list (Train.max_rows a b))%R.
Proof.
  unfold Train.max_rows. revert b; induction a as [|x a IH]; intros [|y b] L;
    simpl in *; try discriminate; [lra|].
  specialize (IH b ltac:(lia)). pose proof (Rmax_l x y). lra.
Qed.

Lemma length_max_rows (a b : list R) :
  length (Train.max_rows a b) = Nat.min (length a) (length b).
Proof. unfold Train.max_rows. rewrite length_map. apply length_combine. Qed.

Lemma max_rows_diag (a : list R) : Train.max_rows a a = a.
Proof.
  unfold Train.max_rows. induction a as [|x a IH]; [reflexivity|].
  simpl. rewrite IH. f_equal. apply Rmax_left. lra.
Qed.

Lemma clamp_inside (x lo hi : R) :
  (lo <= x <= hi)%R -> Train.clamp x lo hi = x.
Proof.
  intros H. unfold Train.clamp. rewrite Rmax_left by lra. apply Rmin_left. lra.
Qed.

Lemma map_clamp_inside (l : list R) (lo hi : R) :
  Forall (fun x => (lo <= x <= hi)%R) l ->
  map (fun x => Train.clamp x lo hi) l = l.
Proof.
  induction 1 as [|x l Hx _ IH]; [reflexivity|].
  simpl. rewrite IH, (clamp_inside Hx). reflexivity.
Qed.

Lemma inv_INR_nonneg (k : nat) : (0 <= / INR k)%R.
Proof.
  destruct k as [|k].
  - change (INR 0) with 0%R. rewrite Rinv_0. lra.
  - left. apply Rinv_0_lt_compat. apply lt_0_INR. lia.
Qed.

Lemma mean_le (a b : list R) :
  length a = length b -> (sum_list a <= sum_list b)%R ->
  (Train.mean a <= Train.mean b)%R.
Proof.
  intros L H. unfold Train.mean. rewrite <- L. unfold Rdiv.
  apply Rmult_le_compat_r; [|exact H]. apply inv_INR_nonneg.
Qed.

(** X21. The clipped policy loss is never below the loss without
    clipping, [(-mb_advantages * ratio).mean()], and is equal to it when
    every ratio lies in [[1 - clip_coef, 1 + clip_coef]]. *)
Theorem clipped_policy_loss_is_pessimistic (clip_coef : R)
    (mb_advantages newlogproba old_logprobs : list R) :
  mb_advantages <> [] ->
  length newlogproba = length mb_advantages ->
  length old_logprobs = length mb_advantages ->
  (Train.mean (Train.pg_loss1 mb_advantages newlogproba old_logprobs)
   <= Train.pg_loss clip_coef mb_advantages newlogproba old_logprobs)%R /\
  (Forall (fun r => (1 - clip_coef <= r <= 1 + clip_coef)%R)
          (Train.ratio newlogproba old_logprobs) ->
   Train.pg_loss clip_coef mb_advantages newlogproba old_logprobs
   = Train.mean (Train.pg_loss1 mb_advantages newlogproba old_logprobs)).
Proof.
  intros _ Ln Lo.
  assert (L12 : length (Train.pg_loss1 mb_advantages newlogproba old_logprobs)
                = length (Train.pg_loss2 clip_coef mb_advantages newlogproba
                            old_logprobs)).
  { unfold Train.pg_loss1, Train.pg_loss2.
    rewrite !length_mul_rows, !length_map. reflexivity. }
  split.
  - unfold Train.pg_loss. apply mean_le.
    + rewrite length_max_rows, <- L12. lia.
    + apply sum_list_le_max_rows. exact L12.
  - intros Hin. unfold Train.pg_loss, Train.pg_loss2, Train.pg_loss1.
    rewrite (map_clamp_inside Hin), max_rows_diag. reflexivity.
Qed.

Lemma clipped_policy_loss_is_pessimistic_witness :
  (Train.mean (Train.pg_loss1 [1; -2]%R [0; 0]%R [0; 0]%R)
   <= Train.pg_loss (1 / 10) [1; -2]%R [0; 0]%R [0; 0]%R)%R /\
  (Forall (fun r => (1 - 1 / 10 <= r <= 1 + 1 / 10)%R)
          (Train.ratio [0; 0]%R [0; 0]%R) ->
   Train.pg_loss (1 / 10) [1; -2]%R [0; 0]%R [0; 0]%R
   = Train.mean (Train.pg_loss1 [1; -2]%R [0; 0]%R [0; 0]%R)).
Proof.
  apply clipped_policy_loss_is_pessimistic; [discriminate | reflexivity | reflexivity].
Defined.

Lemma sum_list_map_affine (c mu : R) (l : list R) :
  sum_list (map (fun x => ((x - mu) / c)%R) l)
  = ((sum_list l - INR (length l) * mu) / c)%R.
Proof.
  induction l as [|x l IH].
  - simpl. unfold Rdiv. ring.
  - cbn [map sum_list fold_right] in *. fold (sum_list (map (fun x => ((x - mu) / c)%R) l)).
    fold (sum_list l). rewrite IH. cbn [length]. rewrite S_INR. unfold Rdiv. ring.
Qed.

Lemma mean_normalize_advantages (adv : list R) :
  adv <> [] -> Train.mean (Train.normalize_advantages adv) = 0%R.
Proof.
  intros Hne. unfold Train.mean at 1, Train.normalize_advantages.
  rewrite sum_list_map_affine. unfold Train.mean.
  assert (Hn : INR (length adv) <> 0%R).
  { apply not_0_INR. destruct adv; [contradiction | discriminate]. }
  replace (sum_list adv - INR (length adv) * (sum_list adv / INR (length adv)))%R
    with 0%R by (field; exact Hn).
  unfold Rdiv. ring.
Qed.

Lemma ratio_same (lp : list R) : Train.ratio lp lp = map (fun _ => 1%R) lp.
Proof.
  unfold Train.ratio, Train.sub_rows. induction lp as [|x lp IH]; [reflexivity|].
  simpl. rewrite IH. f_equal. replace (x - x)%R with 0%R by ring. apply exp_0.
Qed.

Lemma mul_rows_ones (a lp : list R) :
  length lp = length a -> mul_rows a (map (fun _ => 1%R) lp) = a.
Proof.
  unfold mul_rows. revert lp; induction a as [|x a IH]; intros [|y lp] L;
    simpl in *; try discriminate; [reflexivity|].
  rewrite IH by lia. f_equal. ring.
Qed.

Lemma sum_list_map_opp (l : list R) : sum_list (map Ropp l) = (- sum_list l)%R.
Proof.
  induction l as [|x l IH]; simpl; [ring|].
  fold (sum_list (map Ropp l)). fold (sum_list l). rewrite IH. ring.
Qed.

(** X22. On a minibatch of at least two samples whose new
    log-probabilities equal the stored ones (the policy has not changed
    since the rollout), every ratio is 1, [approx_kl] is 0 and, with
    normalised advantages and a non-negative [clip_coef], the policy loss
    is exactly 0: the normalised advantages sum to zero. *)
Theorem unchanged_policy_has_zero_policy_loss (clip_coef : R)
    (mb_advantages logprobs : list R) :
  (0 <= clip_coef)%R ->
  2 <= length mb_advantages ->
  length logprobs = length mb_advantages ->
  Train.ratio logprobs logprobs = map (fun _ => 1%R) logprobs /\
  Train.approx_kl logprobs logprobs = 0%R /\
  Train.pg_loss clip_coef (Train.normalize_advantages mb_advantages)
    logprobs logprobs = 0%R.
Proof.
  intros Hc Hlen L. split; [apply ratio_same|]. split.
  - unfold Train.approx_kl, Train.mean, Train.sub_rows.
    assert (E : sum_list (map (fun ab : R * R => (fst ab - snd ab)%R)
                            (combine logprobs logprobs)) = 0%R).
    { clear. induction logprobs as [|x l IH]; [reflexivity|].
      simpl. fold (sum_list (map (fun ab : R * R => (fst ab - snd ab)%R)
                               (combine l l))).
      rewrite IH. ring. }
    rewrite E. unfold Rdiv. ring.
  - unfold Train.pg_loss, Train.pg_loss1, Train.pg_loss2.
    rewrite ratio_same.
    assert (Hclamp : map (fun r => Train.clamp r (1 - clip_coef) (1 + clip_coef))
                       (map (fun _ => 1%R) logprobs)
                     = map (fun _ => 1%R) logprobs).
    { apply map_clamp_inside. apply Forall_forall. intros x Hx.
      apply in_map_iff in Hx. destruct Hx as [_ [<- _]]. lra. }
    rewrite Hclamp, max_rows_diag.
    assert (Ln : length logprobs
                 = length (map Ropp (Train.normalize_advantages mb_advantages))).
    { unfold Train.normalize_advantages. rewrite !length_map. exact L. }
    rewrite (mul_rows_ones _ _ Ln).
    unfold Train.mean. rewrite sum_list_map_opp, length_map.
    assert (Hne : mb_advantages <> []) by (destruct mb_advantages; simpl in *; [lia | discriminate]).
    pose proof (mean_normalize_advantages Hne) as M. unfold Train.mean in M.
    unfold Rdiv in *. rewrite Ropp_mult_distr_l_reverse, M. ring.
Qed.

Lemma unchanged_policy_has_zero_policy_loss_witness :
  Train.ratio [-1; -2; -3]%R [-1; -2; -3]%R = map (fun _ => 1%R) [-1; -2; -3]%R /\
  Train.approx_kl [-1; -2; -3]%R [-1; -2; -3]%R = 0%R /\
  Train.pg_loss (1 / 10) (Train.normalize_advantages [1; 5; 2]%R)
    [-1; -2; -3]%R [-1; -2; -3]%R = 0%R.
Proof.
  apply unchanged_policy_has_zero_policy_loss; [lra | simpl; lia | reflexivity].
Defined.

Lemma sum_list_squares_nonneg (l : list R) :
  (0 <= sum_list (map (fun d => (d * d)%R) l))%R.
Proof.
  induction l as [|x l IH]; simpl; [lra|].
  fold (sum_list (map (fun d => (d * d)%R) l)). pose proof (Rle_0_sqr x) as H.
  unfold Rsqr in H. lra.
Qed.

Lemma v_clipped_inside (clip_coef : R) (new_values old_values : list R) :
  length new_values = length old_values ->
  Forall (fun d => (- clip_coef <= d <= clip_coef)%R)
         (Train.sub_rows new_values old_values) ->
  Train.v_clipped clip_coef new_values old_values = new_values.
Proof.
  intros L H. unfold Train.v_clipped. rewrite (map_clamp_inside H).
  clear H. unfold add_rows, Train.sub_rows.
  revert old_values L; induction new_values as [|x a IH]; intros [|y b] L;
    simpl in *; try discriminate; [reflexivity|].
  rewrite IH by lia. f_equal. ring.
Qed.

(** X23. The clipped value loss is at least half the mean squared error
    of the new values, which is not negative, and is exactly that when no
    new value is further than [clip_coef] from the value stored during
    the rollout. *)
Theorem clipped_value_loss_bounds (clip_coef : R)
    (new_values old_values returns : list R) :
  new_values <> [] ->
  length old_values = length new_values ->
  length returns = length new_values ->
  (0 <= 0.5 * Train.mean (Train.v_loss_unclipped new_values returns)
     <= Train.v_loss clip_coef new_values old_values returns)%R /\
  (Forall (fun d => (- clip_coef <= d <= clip_coef)%R)
          (Train.sub_rows new_values old_values) ->
   Train.v_loss clip_coef new_values old_values returns
   = (0.5 * Train.mean (Train.v_loss_unclipped new_values returns))%R).
Proof.
  intros Hne Lo Lr.
  assert (Lc : length (Train.v_clipped clip_coef new_values old_values)
               = length new_values).
  { unfold Train.v_clipped, Train.sub_rows.
    rewrite length_add_rows, !length_map, length_combine. lia. }
  assert (Lu : length (Train.v_loss_unclipped new_values returns)
               = length (map (fun d => (d * d)%R)
                           (Train.sub_rows
                              (Train.v_clipped clip_coef new_values old_values)
                              returns))).
  { unfold Train.v_loss_unclipped.
    rewrite !length_map, !length_sub_rows, Lc. reflexivity. }
  split; [split|].
  - unfold Train.mean, Train.v_loss_unclipped.
    pose proof (sum_list_squares_nonneg (Train.sub_rows new_values returns)) as H.
    assert (0 <= / INR (length (map (fun d => (d * d)%R)
                                  (Train.sub_rows new_values returns))))%R.
    { apply inv_INR_nonneg. }
    unfold Rdiv. 
    assert (0 <= sum_list (map (fun d => (d * d)%R)
                             (Train.sub_rows new_values returns))
                 * / INR (length (map (fun d => (d * d)%R)
                                    (Train.sub_rows new_values returns))))%R
      by (apply Rmult_le_pos; assumption).
    lra.
  - unfold Train.v_loss.
    assert (Train.mean (Train.v_loss_unclipped new_values returns)
            <= Train.mean (Train.max_rows
                             (Train.v_loss_unclipped new_values returns)
                             (map (fun d => (d * d)%R)
                                (Train.sub_rows
                                   (Train.v_clipped clip_coef new_values old_values)
                                   returns))))%R.
    { apply mean_le.
      - rewrite length_max_rows, <- Lu. lia.
      - apply sum_list_le_max_rows. exact Lu. }
    lra.
  - intros Hin. unfold Train.v_loss.
    rewrite (@v_clipped_inside clip_coef new_values old_values (eq_sym Lo) Hin).
    fold (Train.v_loss_unclipped new_values returns).
    rewrite max_rows_diag. reflexivity.
Qed.

Lemma clipped_value_loss_bounds_witness :
  (0 <= 0.5 * Train.mean (Train.v_loss_unclipped [1; 2]%R [0; 4]%R)
     <= Train.v_loss (1 / 10) [1; 2]%R [1; 1]%R [0; 4]%R)%R /\
  (Forall (fun d => (- (1 / 10) <= d <= 1 / 10)%R)
          (Train.sub_rows [1; 2]%R [1; 1]%R) ->
   Train.v_loss (1 / 10) [1; 2]%R [1; 1]%R [0; 4]%R
   = (0.5 * Train.mean (Train.v_loss_unclipped [1; 2]%R [0; 4]%R))%R).
Proof.
  apply clipped_value_loss_bounds; [discriminate | reflexivity | reflexivity].
Defined.

End Losses.

(** ** Early stopping *)

Section EarlyStopping.

Lemma length_window_update (recent : list R) (avg : R) :
  length recent <= Train.early_stop_K ->
  length (Train.window_update recent avg)
  = Nat.min (S (length recent)) Train.early_stop_K.
Proof.
  intros H. unfold Train.window_update, Train.early_stop_K in *.
  destruct (Nat.ltb_spec 10 (length (recent ++ [avg]))) as [L|L];
    rewrite length_app in L; simpl in L.
  - destruct recent as [|x r]; simpl in *; [lia|]. rewrite length_app. simpl. lia.
  - rewrite length_app. simpl. lia.
Qed.

Lemma window_update_short (recent : list R) (avg : R) :
  length recent < 10 -> Train.window_update recent avg = recent ++ [avg].
Proof.
  intros H. unfold Train.window_update, Train.early_stop_K.
  destruct (Nat.ltb_spec 10 (length (recent ++ [avg]))) as [L|L]; [|reflexivity].
  rewrite length_app in L. simpl in L. lia.
Qed.

Lemma window_update_full (x : R) (r : list R) (avg : R) :
  length (x :: r) = 10 -> Train.window_update (x :: r) avg = r ++ [avg].
Proof.
  intros H. unfold Train.window_update, Train.early_stop_K.
  destruct (Nat.ltb_spec 10 (length ((x :: r) ++ [avg]))) as [L|L]; [reflexivity|].
  rewrite length_app in L. simpl in *. lia.
Qed.

Lemma window_fold (avgs recent : list R) :
  length recent <= Train.early_stop_K ->
  fold_left Train.window_update avgs recent
  = skipn (length (recent ++ avgs) - Train.early_stop_K) (recent ++ avgs).
Proof.
  revert recent; induction avgs as [|a avgs IH]; intros recent H.
  - rewrite app_nil_r. replace (length recent - Train.early_stop_K) with 0 by lia.
    reflexivity.
  - cbn [fold_left]. rewrite IH by (rewrite (@length_window_update recent a H); lia).
    unfold Train.early_stop_K in *.
    destruct (Nat.eq_dec (length recent) 10) as [E|N].
    + destruct recent as [|x r]; [discriminate|].
      rewrite (window_update_full _ E). rewrite <- app_assoc. cbn [app].
      replace (length (x :: r ++ a :: avgs) - 10)
        with (S (length (r ++ a :: avgs) - 10))
        by (cbn [length]; rewrite length_app; simpl in *; lia).
      reflexivity.
    + rewrite window_update_short by lia. rewrite <- app_assoc. reflexivity.
Qed.

(** X24. [recent_rewards] is a sliding window: after any number of
    updates it holds the averages of the last ten updates, oldest first
    (all of them while there are fewer than ten). *)
Theorem recent_rewards_holds_the_last_ten (avgs : list R) :
  fold_left Train.window_update avgs []
  = skipn (length avgs - Train.early_stop_K) avgs /\
  length (fold_left Train.window_update avgs [])
  = Nat.min (length avgs) Train.early_stop_K.
Proof.
  assert (E : fold_left Train.window_update avgs []
              = skipn (length avgs - Train.early_stop_K) avgs).
  { rewrite window_fold by (unfold Train.early_stop_K; simpl; lia). reflexivity. }
  split; [exact E|]. rewrite E, length_skipn. lia.
Qed.

Lemma np_std_nonneg (l : list R) : (0 <= Train.np_std l)%R.
Proof. unfold Train.np_std. apply sqrt_pos. Qed.

Lemma epsilon_pos : (0 < Train.epsilon)%R.
Proof. unfold Train.epsilon. lra. Qed.

(** The three cases of the early-stopping test. *)
Lemma early_stop_three_cases (recent_rewards : list R) :
  (length recent_rewards <> 10 -> Train.early_stop recent_rewards = false) /\
  (length recent_rewards = 10 ->
   (Train.np_mean recent_rewards + Train.epsilon < 0)%R ->
   Train.early_stop recent_rewards = true) /\
  (length recent_rewards = 10 ->
   (0 < Train.np_mean recent_rewards + Train.epsilon)%R ->
   (Train.early_stop recent_rewards = true <->
    (Train.np_std recent_rewards
     < 0.05 * (Train.np_mean recent_rewards + Train.epsilon))%R)).
Proof.
  unfold Train.early_stop, Train.early_stop_K, Train.early_stop_max_var.
  split; [|split].
  - intros H. apply Nat.eqb_neq in H. rewrite H. reflexivity.
  - intros H Hneg. rewrite H. cbn [Nat.eqb].
    destruct (Req_dec_T _ 0) as [E|_]; [lra|].
    destruct (Rlt_dec _ _) as [_|N]; [reflexivity|].
    exfalso. apply N.
    pose proof (np_std_nonneg recent_rewards) as Hs.
    assert (Hi : (/ (Train.np_mean recent_rewards + Train.epsilon) < 0)%R)
      by (apply Rinv_lt_0_compat; exact Hneg).
    unfold Rdiv. nra.
  - intros H Hpos. rewrite H. cbn [Nat.eqb].
    destruct (Req_dec_T _ 0) as [E|_]; [lra|].
    assert (Hi : (0 < / (Train.np_mean recent_rewards + Train.epsilon))%R)
      by (apply Rinv_0_lt_compat; exact Hpos).
    assert (Hm : ((Train.np_mean recent_rewards + Train.epsilon)
                  * / (Train.np_mean recent_rewards + Train.epsilon) = 1)%R)
      by (apply Rinv_r; lra).
    set (d := (Train.np_mean recent_rewards + Train.epsilon)%R) in *.
    set (sd := Train.np_std recent_rewards) in *.
    destruct (Rlt_dec _ _) as [Y|N]; split; intros G;
      try reflexivity; try discriminate.
    + unfold Rdiv in Y.
      assert (sd * / d * d < 0.05 * d)%R by (apply Rmult_lt_compat_r; lra).
      nra.
    + exfalso. apply N. unfold Rdiv.
      assert (sd * / d < 0.05 * d * / d)%R by (apply Rmult_lt_compat_r; lra).
      nra.
Qed.

(** X25. The early-stopping test needs exactly ten averages.  With ten
    averages whose mean is below [-1e-8] it succeeds whatever their
    spread, because the ratio [std_r / (mean_r + 1e-8)] is then not
    positive; with a mean above [-1e-8] it succeeds exactly when the
    standard deviation is below 5 percent of [mean_r + 1e-8]. *)
Theorem early_stop_cases (recent_rewards : list R) :
  (length recent_rewards <> 10 -> Train.early_stop recent_rewards = false) /\
  (length recent_rewards = 10 ->
   (Train.np_mean recent_rewards + Train.epsilon < 0)%R ->
   Train.early_stop recent_rewards = true) /\
  (length recent_rewards = 10 ->
   (0 < Train.np_mean recent_rewards + Train.epsilon)%R ->
   (Train.early_stop recent_rewards = true <->
    (Train.np_std recent_rewards
     < 0.05 * (Train.np_mean recent_rewards + Train.epsilon))%R)).
Proof. exact (early_stop_three_cases recent_rewards). Qed.

Lemma early_stop_needs_ten (recent : list R) :
  Train.early_stop recent = true -> length recent = 10.
Proof.
  intros H. destruct (Nat.eq_dec (length recent) 10) as [E|N]; [exact E|].
  rewrite (proj1 (early_stop_three_cases recent) N) in H. discriminate.
Qed.

Lemma updates_run_bounds (avgs recent : list R) :
  length recent <= 10 ->
  Nat.min (10 - length recent) (length avgs) <= Train.updates_run avgs recent
  /\ Train.updates_run avgs recent <= length avgs.
Proof.
  revert recent; induction avgs as [|a avgs IH]; intros recent H.
  - simpl. lia.
  - cbn [Train.updates_run length].
    pose proof (@length_window_update recent a H) as L.
    unfold Train.early_stop_K in L.
    destruct (Train.early_stop (Train.window_update recent a)) eqn:E.
    + apply early_stop_needs_ten in E. lia.
    + specialize (IH (Train.window_update recent a) ltac:(lia)). lia.
Qed.

Lemma updates_run_negative (avgs recent : list R) :
  length recent < 10 ->
  10 - length recent <= length avgs ->
  (Train.np_mean (recent ++ firstn (10 - length recent) avgs) + Train.epsilon < 0)%R ->
  Train.updates_run avgs recent = 10 - length recent.
Proof.
  revert recent; induction avgs as [|a avgs IH]; intros recent H Hlen Hneg.
  - cbn [length] in Hlen. lia.
  - cbn [Train.updates_run].
    pose proof (@length_window_update recent a ltac:(unfold Train.early_stop_K; lia)) as L.
    unfold Train.early_stop_K in L.
    assert (W : Train.window_update recent a = recent ++ [a])
      by (apply window_update_short; exact H).
    destruct (Nat.eq_dec (length recent) 9) as [E9|N9].
    + replace (10 - length recent) with 1 in * by lia.
      cbn [firstn] in Hneg. rewrite <- W in Hneg.
      assert (L10 : length (Train.window_update recent a) = 10) by lia.
      rewrite (proj1 (proj2 (early_stop_three_cases (Train.window_update recent a)))
                 L10 Hneg).
      reflexivity.
    + assert (Ln : length (Train.window_update recent a) <> 10) by lia.
      rewrite (proj1 (early_stop_three_cases (Train.window_update recent a)) Ln).
      rewrite IH.
      * lia.
      * lia.
      * cbn [length] in Hlen. lia.
      * rewrite W, <- app_assoc. cbn [app].
        replace (10 - length recent) with (S (10 - length (recent ++ [a]))) in Hneg
          by (rewrite length_app; cbn [length]; lia).
        exact Hneg.
Qed.

(** X26. The loop of [ppo_diverse_maxcho.py] cannot stop early before
    its tenth update, and it does stop at the tenth when the mean of the
    first ten average rewards is below [-1e-8], however much they vary. *)
Theorem early_stop_not_before_ten_updates (avgs : list R) :
  Nat.min 10 (length avgs) <= Train.updates_run avgs [] <= length avgs /\
  (10 <= length avgs ->
   (Train.np_mean (firstn 10 avgs) + Train.epsilon < 0)%R ->
   Train.updates_run avgs [] = 10).
Proof.
  split.
  - pose proof (@updates_run_bounds avgs [] ltac:(simpl; lia)) as H.
    simpl in H. exact H.
  - intros Hlen Hneg.
    exact (@updates_run_negative avgs [] ltac:(simpl; lia) Hlen Hneg).
Qed.

End EarlyStopping.

(** ** The environment wrappers *)

Section Monitoring.

Variable X : Type.

Lemma length_list_set {A : Type} (l : list A) (i : nat) (v : A) :
  length (Wrappers.list_set l i v) = length l.
Proof.
  revert i; induction l as [|x l IH]; intros [|i]; simpl; try reflexivity.
  rewrite IH. reflexivity.
Qed.

Lemma nth_list_set_same {A : Type} (l : list A) (i : nat) (v d : A) :
  i < length l -> nth i (Wrappers.list_set l i v) d = v.
Proof.
  revert i; induction l as [|x l IH]; intros [|i] H; simpl in *; try lia.
  - reflexivity.
  - apply IH. lia.
Qed.

Lemma nth_list_set_other {A : Type} (l : list A) (i j : nat) (v d : A) :
  i <> j -> nth j (Wrappers.list_set l i v) d = nth j l d.
Proof.
  revert i j; induction l as [|x l IH]; intros [|i] [|j] H; simpl; try reflexivity;
    try lia.
  apply IH. lia.
Qed.

Lemma dict_get_set (d : Wrappers.info X) (k : string) (v : Wrappers.value X) :
  Wrappers.dict_get (Wrappers.dict_set d k v) k = Some v.
Proof.
  induction d as [|[k' v'] d IH]; simpl.
  - rewrite String.eqb_refl. reflexivity.
  - destruct (String.eqb k k') eqn:E; simpl; rewrite E; [reflexivity | exact IH].
Qed.

Lemma skipn_nth_error {A : Type} (l : list A) (k : nat) (x : A) :
  nth_error l k = Some x -> skipn k l = x :: skipn (S k) l.
Proof.
  revert k; induction l as [|y l IH]; intros [|k] H; simpl in *; try discriminate.
  - injection H as ->. reflexivity.
  - apply IH. exact H.
Qed.

Local Abbreviation trues := (fun l : list bool => length (filter (fun b : bool => b) l)).

Section Fold.

Variables (dones : list bool) (infos : list (Wrappers.info X)) (elapsed : nat -> R).
Variables (ep0 : list R) (el0 : list Z) (n : nat).
Hypothesis dones_n : length dones = n.
Hypothesis infos_n : length infos = n.
Hypothesis ep0_n : length ep0 = n.
Hypothesis el0_n : length el0 = n.

Lemma monitor_fold (m : nat) :
  forall (k : nat) (ep : list R) (el : list Z) (c : Z) (ni : list (Wrappers.info X)),
    k + m = n ->
    length ep = n -> length el = n -> length ni = n ->
    (forall i, k <= i ->
       nth i ep 0%R = nth i ep0 0%R /\ nth i el 0%Z = nth i el0 0%Z /\
       nth i ni [] = nth i infos []) ->
    exists ep' el' ni',
      Wrappers.foldE (Wrappers.monitor_body dones infos elapsed) (seq k m)
        (ep, el, c, ni)
      = inr (ep', el', (c + Z.of_nat (trues (firstn m (skipn k dones))))%Z, ni') /\
      length ep' = n /\ length el' = n /\ length ni' = n /\
      (forall i, i < k ->
         nth i ep' 0%R = nth i ep 0%R /\ nth i el' 0%Z = nth i el 0%Z /\
         nth i ni' [] = nth i ni []) /\
      (forall i, k <= i < n ->
         nth i ep' 0%R = (if nth i dones false then 0%R else nth i ep0 0%R) /\
         nth i el' 0%Z = (if nth i dones false then 0%Z else nth i el0 0%Z) /\
         nth i ni' []
         = (if nth i dones false
            then Wrappers.dict_set (nth i infos []) "episode"
                   (Wrappers.Episode X (nth i ep0 0%R) (nth i el0 0%Z) (elapsed i))
            else nth i infos [])).
Proof.
  induction m as [|m IH]; intros k ep el c ni Hk Lep Lel Lni Hrest.
  - exists ep, el, ni. cbn [seq Wrappers.foldE firstn filter length].
    rewrite Z.add_0_r.
    split; [reflexivity|]. split; [exact Lep|]. split; [exact Lel|].
    split; [exact Lni|]. split.
    + intros i Hi. repeat split.
    + intros i Hi. lia.
  - assert (Hkn : k < n) by lia.
    assert (Ed : nth_error dones k = Some (nth k dones false))
      by (apply nth_error_nth'; lia).
    cbn [seq Wrappers.foldE]. unfold Wrappers.monitor_body at 1.
    rewrite Ed, (skipn_nth_error _ _ Ed). cbn [firstn].
    destruct (Hrest k (Nat.le_refl k)) as (Hep & Hel & Hni).
    destruct (nth k dones false) eqn:Dk.
    + assert (Ei : nth_error infos k = Some (nth k infos []))
        by (apply nth_error_nth'; lia).
      assert (Ee : nth_error ep k = Some (nth k ep 0%R))
        by (apply nth_error_nth'; lia).
      assert (El : nth_error el k = Some (nth k el 0%Z))
        by (apply nth_error_nth'; lia).
      rewrite Ei, Ee, El.
      replace (Nat.ltb k (length ni)) with true
        by (symmetry; apply Nat.ltb_lt; lia).
      cbn [Wrappers.and_then].
      destruct (IH (S k) (Wrappers.list_set ep k 0%R) (Wrappers.list_set el k 0%Z)
                  (c + 1)%Z
                  (Wrappers.list_set ni k
                     (Wrappers.dict_set (nth k infos []) "episode"
                        (Wrappers.Episode X (nth k ep 0%R) (nth k el 0%Z)
                           (elapsed k)))))
        as (ep' & el' & ni' & E & L1 & L2 & L3 & Hlow & Hhigh).
      * lia.
      * rewrite length_list_set. exact Lep.
      * rewrite length_list_set. exact Lel.
      * rewrite length_list_set. exact Lni.
      * intros i Hi. rewrite !nth_list_set_other by lia. apply Hrest. lia.
      * exists ep', el', ni'. split.
        { rewrite E. cbn [filter length]. do 3 f_equal. lia. }
        split; [exact L1|]. split; [exact L2|]. split; [exact L3|]. split.
        { intros i Hi. destruct (Hlow i ltac:(lia)) as (A1 & A2 & A3).
          rewrite A1, A2, A3. rewrite !nth_list_set_other by lia.
          repeat split. }
        { intros i Hi. destruct (Nat.eq_dec i k) as [->|Hne].
          - destruct (Hlow k ltac:(lia)) as (A1 & A2 & A3).
            rewrite A1, A2, A3, Dk.
            rewrite !nth_list_set_same by lia. rewrite Hep, Hel. repeat split.
          - apply Hhigh. lia. }
    + cbn [Wrappers.and_then].
      destruct (IH (S k) ep el c ni) as (ep' & el' & ni' & E & L1 & L2 & L3 & Hlow & Hhigh);
        try assumption; try lia.
      * intros i Hi. apply Hrest. lia.
      * exists ep', el', ni'. split.
        { rewrite E. cbn [filter length]. reflexivity. }
        split; [exact L1|]. split; [exact L2|]. split; [exact L3|]. split.
        { intros i Hi. apply Hlow. lia. }
        { intros i Hi. destruct (Nat.eq_dec i k) as [->|Hne].
          - destruct (Hlow k ltac:(lia)) as (A1 & A2 & A3).
            rewrite A1, A2, A3, Dk, Hep, Hel, Hni. repeat split.
          - apply Hhigh. lia. }
Qed.

End Fold.

(** One call of [step_wait], in closed form. *)
Lemma monitor_step_closed (self : Wrappers.VecMonitor) (rews : list R)
    (dones : list bool) (infos : list (Wrappers.info X)) (elapsed : nat -> R)
    (ep : list R) (el : list Z) (n : nat) :
  Wrappers.eprets self = Some ep -> Wrappers.eplens self = Some el ->
  length ep = n -> length el = n ->
  length rews = n -> length dones = n -> length infos = n ->
  exists ep' el' ni',
    Wrappers.monitor_step self rews dones infos elapsed
    = inr ({| Wrappers.eprets := Some ep';
              Wrappers.eplens := Some el';
              Wrappers.epcount :=
                (Wrappers.epcount self + Z.of_nat (trues dones))%Z |}, ni') /\
    length ep' = n /\ length el' = n /\ length ni' = n /\
    forall i, i < n ->
      nth i ep' 0%R
      = (if nth i dones false then 0%R else (nth i ep 0 + nth i rews 0)%R) /\
      nth i el' 0%Z
      = (if nth i dones false then 0%Z else Wrappers.int32 (nth i el 0%Z + 1)) /\
      nth i ni' []
      = (if nth i dones false
         then Wrappers.dict_set (nth i infos []) "episode"
                (Wrappers.Episode X (nth i ep 0 + nth i rews 0)%R
                   (Wrappers.int32 (nth i el 0%Z + 1)) (elapsed i))
         else nth i infos []).
Proof.
  intros Eep Eel Lep Lel Lr Ld Li. unfold Wrappers.monitor_step.
  rewrite Eep, Eel.
  assert (Lep0 : length (add_rows ep rews) = n)
    by (rewrite length_add_rows; lia).
  assert (Lel0 : length (map (fun l => Wrappers.int32 (l + 1)) el) = n)
    by (rewrite length_map; exact Lel).
  destruct (@monitor_fold dones infos elapsed (add_rows ep rews)
              (map (fun l => Wrappers.int32 (l + 1)) el) n Ld Li Lep0 Lel0 n 0
              (add_rows ep rews) (map (fun l => Wrappers.int32 (l + 1)) el)
              (Wrappers.epcount self) infos)
    as (ep' & el' & ni' & E & L1 & L2 & L3 & _ & Hhigh);
    try assumption; try lia.
  { intros i _. repeat split. }
  exists ep', el', ni'. rewrite Ld, E. cbn [Wrappers.and_then].
  replace (firstn n (skipn 0 dones)) with dones
    by (cbn [skipn]; rewrite <- Ld; symmetry; apply firstn_all).
  split; [reflexivity|]. split; [exact L1|]. split; [exact L2|].
  split; [exact L3|].
  intros i Hi. destruct (Hhigh i ltac:(lia)) as (A1 & A2 & A3).
  assert (B1 : nth i (add_rows ep rews) 0%R = (nth i ep 0 + nth i rews 0)%R).
  { unfold add_rows. rewrite nth_zip by lia. reflexivity. }
  assert (B2 : nth i (map (fun l => Wrappers.int32 (l + 1)) el) 0%Z
               = Wrappers.int32 (nth i el 0%Z + 1)).
  { rewrite (nth_indep _ 0%Z (Wrappers.int32 (0 + 1))) by (rewrite length_map; lia).
    apply (map_nth (fun l => Wrappers.int32 (l + 1))). }
  rewrite A1, A2, A3, B1, B2. repeat split.
Qed.

End Monitoring.

(** The 32-bit wrap-around of [eplens]: wrapping once at the end is
    wrapping at every addition, and a value in range is left as it is. *)
Lemma int32_add_l (a b : Z) :
  Wrappers.int32 (Wrappers.int32 a + b) = Wrappers.int32 (a + b).
Proof.
  unfold Wrappers.int32. f_equal.
  replace ((a + 2 ^ 31) mod 2 ^ 32 - 2 ^ 31 + b + 2 ^ 31)%Z
    with ((a + 2 ^ 31) mod 2 ^ 32 + b)%Z by lia.
  rewrite Zplus_mod_idemp_l. f_equal. lia.
Qed.

Lemma int32_in_range (z : Z) :
  (- 2 ^ 31 <= z < 2 ^ 31)%Z -> Wrappers.int32 z = z.
Proof.
  intros H. unfold Wrappers.int32. rewrite Z.mod_small; lia.
Qed.

Section EpisodeStatistics.

Variables (X O : Type).

Lemma step_wait_closed (self : Wrappers.VecMonitor)
    (venv : O * list R * list bool * list (Wrappers.info X)) (elapsed : nat -> R)
    (ep : list R) (el : list Z) (n : nat) :
  Wrappers.eprets self = Some ep -> Wrappers.eplens self = Some el ->
  length ep = n -> length el = n ->
  length (Wrappers.rews_of venv) = n ->
  length (Wrappers.dones_of venv) = n ->
  length (Wrappers.infos_of venv) = n ->
  exists self' ep' el' ni',
    Wrappers.VecMonitor_step_wait self venv elapsed
    = inr (self', (Wrappers.obs_of venv, Wrappers.rews_of venv,
                   Wrappers.dones_of venv, ni')) /\
    Wrappers.eprets self' = Some ep' /\ Wrappers.eplens self' = Some el' /\
    length ep' = n /\ length el' = n /\ length ni' = n /\
    forall i, i < n ->
      nth i ep' 0%R
      = (if nth i (Wrappers.dones_of venv) false then 0%R
         else (nth i ep 0 + nth i (Wrappers.rews_of venv) 0)%R) /\
      nth i el' 0%Z
      = (if nth i (Wrappers.dones_of venv) false then 0%Z
         else Wrappers.int32 (nth i el 0%Z + 1)) /\
      nth i ni' []
      = (if nth i (Wrappers.dones_of venv) false
         then Wrappers.dict_set (nth i (Wrappers.infos_of venv) []) "episode"
                (Wrappers.Episode X
                   (nth i ep 0 + nth i (Wrappers.rews_of venv) 0)%R
                   (Wrappers.int32 (nth i el 0%Z + 1)) (elapsed i))
         else nth i (Wrappers.infos_of venv) []).
Proof.
  destruct venv as [[[obs rews] dones] infos].
  unfold Wrappers.rews_of, Wrappers.dones_of, Wrappers.infos_of, Wrappers.obs_of.
  cbn [fst snd]. intros Eep Eel Lep Lel Lr Ld Li.
  destruct (@monitor_step_closed X self rews dones infos elapsed ep el n
              Eep Eel Lep Lel Lr Ld Li)
    as (ep' & el' & ni' & E & L1 & L2 & L3 & H).
  eexists. exists ep', el', ni'. unfold Wrappers.VecMonitor_step_wait.
  rewrite E. cbn [Wrappers.and_then fst snd].
  split; [reflexivity|]. cbn [Wrappers.eprets Wrappers.eplens].
  repeat (split; [first [reflexivity | assumption]|]). exact H.
Qed.

(** X27. [VecMonitor] reports, at the step that ends an episode, the sum
    of the rewards and the number of steps of that episode: if
    environment [i] is done at the last of a series of calls of
    [step_wait] and at none before, the info of that last call has under
    ["episode"] the return [eprets[i]] from before the series plus the
    rewards of [i] over the series, and as length [eplens[i]] plus the
    number of calls, wrapped around to 32 bits as the array [eplens]
    holds it; the length is the plain sum when that sum lies in
    [[-2^31, 2^31)].  Both counters of [i] are 0 afterwards. *)
Theorem episode_info_sums_the_rewards (self : Wrappers.VecMonitor)
    (venvs : list (O * list R * list bool * list (Wrappers.info X)))
    (elapsed : nat -> R) (n i : nat) (ep : list R) (el : list Z) :
  Wrappers.eprets self = Some ep -> Wrappers.eplens self = Some el ->
  length ep = n -> length el = n ->
  Forall (fun v => length (Wrappers.rews_of v) = n /\
                   length (Wrappers.dones_of v) = n /\
                   length (Wrappers.infos_of v) = n) venvs ->
  i < n ->
  map (fun v => nth i (Wrappers.dones_of v) false) venvs
    = repeat false (length venvs - 1) ++ [true] ->
  exists self' outs last ep' el',
    Wrappers.VecMonitor_run self venvs elapsed = inr (self', outs) /\
    length outs = length venvs /\
    nth_error outs (length venvs - 1) = Some last /\
    Wrappers.dict_get (nth i (Wrappers.infos_of last) []) "episode"
    = Some (Wrappers.Episode X
              (nth i ep 0 + sum_list (map (fun v => nth i (Wrappers.rews_of v) 0%R)
                                          venvs))%R
              (Wrappers.int32 (nth i el 0%Z + Z.of_nat (length venvs)))
              (elapsed i)) /\
    ((- 2 ^ 31 <= nth i el 0 + Z.of_nat (length venvs) < 2 ^ 31)%Z ->
     Wrappers.int32 (nth i el 0%Z + Z.of_nat (length venvs))
     = (nth i el 0 + Z.of_nat (length venvs))%Z) /\
    Wrappers.eprets self' = Some ep' /\ nth i ep' 0%R = 0%R /\
    Wrappers.eplens self' = Some el' /\ nth i el' 0%Z = 0%Z.
Proof.
  revert self ep el.
  induction venvs as [|v rest IH]; intros self ep el Eep Eel Lep Lel Hall Hi Hd.
  - cbn [map length repeat app] in Hd. discriminate.
  - inversion Hall as [|v' rest' (Lr & Ld & Li) Hrest]; subst v' rest'.
    destruct (@step_wait_closed self v elapsed ep el n Eep Eel Lep Lel Lr Ld Li)
      as (self1 & ep1 & el1 & ni1 & E1 & Eep1 & Eel1 & L1 & L2 & L3 & H1).
    destruct (H1 i Hi) as (A1 & A2 & A3).
    cbn [Wrappers.VecMonitor_run]. rewrite E1. cbn [Wrappers.and_then fst snd].
    destruct rest as [|v2 rest'].
    + cbn [map length repeat app Nat.sub] in Hd. injection Hd as Hd.
      rewrite Hd in A1, A2, A3.
      cbn [Wrappers.VecMonitor_run Wrappers.and_then fst snd].
      eexists. eexists. eexists. exists ep1, el1.
      split; [reflexivity|]. split; [reflexivity|].
      split; [reflexivity|].
      unfold Wrappers.infos_of at 1. cbn [snd].
      rewrite A3, dict_get_set. cbn [map sum_list fold_right length].
      split; [f_equal; f_equal; first [lra | reflexivity]|].
      split; [apply int32_in_range|].
      repeat (split; [assumption|]). assumption.
    + cbn [map length] in Hd.
      replace (S (S (length rest')) - 1) with (S (length rest')) in Hd by lia.
      cbn [repeat app] in Hd. injection Hd as Hd0 Hd.
      rewrite Hd0 in A1, A2, A3.
      destruct (IH self1 ep1 el1 Eep1 Eel1 L1 L2 Hrest Hi)
        as (self' & outs & last & ep' & el' & E & Lo & Hlast & Hget & _
            & R1 & R2 & R3 & R4).
      { cbn [map length]. replace (S (length rest') - 1) with (length rest') by lia.
        exact Hd. }
      rewrite E. cbn [Wrappers.and_then fst snd].
      eexists. eexists. exists last, ep', el'.
      split; [reflexivity|]. split; [cbn [length]; rewrite Lo; reflexivity|].
      split.
      { cbn [length] in Hlast |- *.
        replace (S (S (length rest')) - 1) with (S (S (length rest') - 1)) by lia.
        exact Hlast. }
      split.
      { rewrite Hget, A1, A2, int32_add_l.
        cbn [map sum_list fold_right length].
        fold (sum_list (map (fun v => nth i (Wrappers.rews_of v) 0%R) rest')).
        f_equal; f_equal; first [lra | f_equal; lia]. }
      split; [apply int32_in_range|].
      repeat (split; [assumption|]). assumption.
Qed.

End EpisodeStatistics.

Lemma episode_info_sums_the_rewards_witness :
  exists self' outs last ep' el',
    Wrappers.VecMonitor_run (Wrappers.VecMonitor_reset Wrappers.VecMonitor_init 2)
      [(tt, [1; 5]%R, [false; true], [[]; []]);
       (tt, [2; 7]%R, [true; false], [[]; []])] (fun _ => 0%R)
    = inr (self', outs) /\
    length outs = 2 /\
    nth_error outs (2 - 1) = Some last /\
    Wrappers.dict_get (nth 0 (Wrappers.infos_of last) []) "episode"
    = Some (Wrappers.Episode unit
              (nth 0 (repeat 0%R 2) 0
               + sum_list (map (fun v => nth 0 (Wrappers.rews_of v) 0%R)
                    [(tt, [1; 5]%R, [false; true],
                      [[]; []] : list (Wrappers.info unit));
                     (tt, [2; 7]%R, [true; false], [[]; []])]))%R
              (Wrappers.int32 (nth 0 (repeat 0%Z 2) 0%Z + Z.of_nat 2)) 0%R) /\
    ((- 2 ^ 31 <= nth 0 (repeat 0%Z 2) 0 + Z.of_nat 2 < 2 ^ 31)%Z ->
     Wrappers.int32 (nth 0 (repeat 0%Z 2) 0%Z + Z.of_nat 2)
     = (nth 0 (repeat 0%Z 2) 0 + Z.of_nat 2)%Z) /\
    Wrappers.eprets self' = Some ep' /\ nth 0 ep' 0%R = 0%R /\
    Wrappers.eplens self' = Some el' /\ nth 0 el' 0%Z = 0%Z.
Proof.
  apply (@episode_info_sums_the_rewards unit unit
           (Wrappers.VecMonitor_reset Wrappers.VecMonitor_init 2)
           [(tt, [1; 5]%R, [false; true], [[]; []]);
            (tt, [2; 7]%R, [true; false], [[]; []])]
           (fun _ => 0%R) 2 0 (repeat 0%R 2) (repeat 0%Z 2));
    try reflexivity; try lia.
  repeat constructor.
Defined.

Section Arrays.

Lemma nth_error_zip_map {A B C : Type} (f : A * B -> C) (a : list A) (b : list B)
    (i : nat) :
  nth_error (map f (combine a b)) i
  = match nth_error a i, nth_error b i with
    | Some x, Some y => Some (f (x, y))
    | _, _ => None
    end.
Proof.
  revert b i; induction a as [|x a IH]; intros [|y b] [|i]; simpl; try reflexivity.
  - destruct (nth_error a i); reflexivity.
  - apply IH.
Qed.

Lemma mapE_seq {B : Type} (f : nat -> Wrappers.error + B) (g : nat -> B) (n : nat) :
  forall s, (forall k, s <= k < s + n -> f k = inr (g k)) ->
  Wrappers.mapE f (seq s n) = inr (map g (seq s n)).
Proof.
  induction n as [|n IH]; intros s H; [reflexivity|].
  cbn [seq Wrappers.mapE map]. rewrite (H s) by lia. cbn [Wrappers.and_then].
  rewrite (IH (S s)) by (intros k Hk; apply H; lia). reflexivity.
Qed.

(** An entry of [np.concatenate([obs, planes], axis=-1)]. *)
Lemma at3_concatenate (obs : Wrappers.ndarray) (extra : nat)
    (planes : list (list (list (list R)))) (b i j : nat) :
  Wrappers.at3 (Wrappers.items (Wrappers.concatenate obs extra planes)) b i j
  = match Wrappers.at3 (Wrappers.items obs) b i j, Wrappers.at3 planes b i j with
    | Some cell, Some p => Some (cell ++ p)
    | _, _ => None
    end.
Proof.
  unfold Wrappers.concatenate. destruct (Wrappers.shape obs) as [[[B h] w] c].
  cbn [Wrappers.items]. unfold Wrappers.at3.
  rewrite nth_error_zip_map.
  destruct (nth_error (Wrappers.items obs) b) as [img|];
    destruct (nth_error planes b) as [pimg|]; try reflexivity.
  - cbn [fst snd]. rewrite nth_error_zip_map.
    destruct (nth_error img i) as [row|];
      destruct (nth_error pimg i) as [prow|]; try reflexivity.
    + cbn [fst snd]. rewrite nth_error_zip_map.
      destruct (nth_error row j); destruct (nth_error prow j); reflexivity.
    + destruct (nth_error row j); reflexivity.
  - destruct (nth_error img i) as [row|]; [|reflexivity].
    destruct (nth_error row j); reflexivity.
Qed.

Lemma shape_concatenate (obs : Wrappers.ndarray) (extra : nat)
    (planes : list (list (list (list R)))) (B h w c : nat) :
  Wrappers.shape obs = (B, h, w, c) ->
  Wrappers.shape (Wrappers.concatenate obs extra planes) = (B, h, w, c + extra).
Proof. intros E. unfold Wrappers.concatenate. rewrite E. reflexivity. Qed.

(** The indices of an entry of a well-shaped array are within its shape. *)
Lemma at3_in_shape (obs : Wrappers.ndarray) (B h w c b i j : nat) (cell : list R) :
  Wrappers.shape obs = (B, h, w, c) -> Wrappers.well_shaped obs ->
  Wrappers.at3 (Wrappers.items obs) b i j = Some cell ->
  b < B /\ i < h /\ j < w /\ length cell = c.
Proof.
  intros E W H. unfold Wrappers.well_shaped in W. rewrite E in W.
  destruct W as [LB W]. rewrite Forall_forall in W.
  unfold Wrappers.at3 in H.
  destruct (nth_error (Wrappers.items obs) b) as [img|] eqn:Eb; [|discriminate].
  destruct (nth_error img i) as [row|] eqn:Ei; [|discriminate].
  assert (Hb : b < length (Wrappers.items obs))
    by (apply nth_error_Some; rewrite Eb; discriminate).
  destruct (W img (nth_error_In _ _ Eb)) as [Lh Wimg]. rewrite Forall_forall in Wimg.
  assert (Hi : i < length img) by (apply nth_error_Some; rewrite Ei; discriminate).
  destruct (Wimg row (nth_error_In _ _ Ei)) as [Lw Wrow]. rewrite Forall_forall in Wrow.
  assert (Hj : j < length row) by (apply nth_error_Some; rewrite H; discriminate).
  pose proof (Wrow cell (nth_error_In _ _ H)) as Lc. cbv beta in Lc.
  repeat split; lia.
Qed.

(** *** The boundary map *)

Lemma nth_list_set {A : Type} (l : list A) (k i : nat) (v d : A) :
  nth i (Wrappers.list_set l k v) d
  = if (Nat.eqb k i && Nat.ltb i (length l))%bool then v else nth i l d.
Proof.
  destruct (Nat.eqb_spec k i) as [->|N]; cbn [andb].
  - destruct (Nat.ltb_spec i (length l)) as [L|L].
    + apply nth_list_set_same. exact L.
    + rewrite !nth_overflow; [reflexivity | exact L | rewrite length_list_set; exact L].
  - apply nth_list_set_other. exact N.
Qed.

Lemma nth_set_col (bm : list (list R)) (c : nat) (v : R) (i j : nat) :
  nth j (nth i (Wrappers.set_col bm c v) []) 0%R
  = nth j (Wrappers.list_set (nth i bm []) c v) 0%R.
Proof.
  unfold Wrappers.set_col.
  rewrite <- (map_nth (fun row => Wrappers.list_set row c v) bm [] i).
  reflexivity.
Qed.

Lemma length_set_col (bm : list (list R)) (c : nat) (v : R) :
  length (Wrappers.set_col bm c v) = length bm.
Proof. apply length_map. Qed.

Lemma length_set_row (bm : list (list R)) (r : nat) (v : R) :
  length (Wrappers.set_row bm r v) = length bm.
Proof. apply length_list_set. Qed.

Lemma length_row_set_col (bm : list (list R)) (c : nat) (v : R) (i : nat) :
  length (nth i (Wrappers.set_col bm c v) []) = length (nth i bm []).
Proof.
  rewrite <- (length_list_set (nth i bm []) c v).
  unfold Wrappers.set_col.
  rewrite <- (map_nth (fun row => Wrappers.list_set row c v) bm [] i).
  reflexivity.
Qed.

Lemma nth_set_row (bm : list (list R)) (r : nat) (v : R) (i : nat) :
  nth i (Wrappers.set_row bm r v) []
  = if (Nat.eqb r i && Nat.ltb i (length bm))%bool
    then map (fun _ => v) (nth r bm []) else nth i bm [].
Proof. unfold Wrappers.set_row. apply nth_list_set. Qed.

(** The boundary map of a shape without an empty axis, entry by entry. *)
Lemma new_boundary_map_closed (h w : nat) :
  1 <= h -> 1 <= w ->
  exists bm,
    Wrappers.new_boundary_map h w = inr bm /\
    length bm = h /\
    (forall i, i < h -> length (nth i bm []) = w) /\
    forall i j, i < h -> j < w ->
      nth j (nth i bm []) 0%R
      = if (Nat.eqb i 0 || Nat.eqb i (h - 1) || Nat.eqb j 0 || Nat.eqb j (w - 1))%bool
        then 1%R else 0%R.
Proof.
  intros Hh Hw. unfold Wrappers.new_boundary_map.
  replace (Nat.eqb h 0) with false by (symmetry; apply Nat.eqb_neq; lia).
  replace (Nat.eqb w 0) with false by (symmetry; apply Nat.eqb_neq; lia).
  eexists. split; [reflexivity|].
  set (z := repeat (repeat 0%R w) h).
  assert (Lz : length z = h) by apply repeat_length.
  assert (Rz : forall i, i < h -> nth i z [] = repeat 0%R w)
    by (intros i Hi; apply nth_repeat_lt; exact Hi).
  set (r1 := Wrappers.set_row z 0 1).
  assert (L1 : length r1 = h) by (unfold r1; rewrite length_set_row; exact Lz).
  assert (R1 : forall i, i < h ->
            nth i r1 [] = if Nat.eqb i 0 then repeat 1%R w else repeat 0%R w).
  { intros i Hi. unfold r1. rewrite nth_set_row, Lz, (Rz 0) by lia.
    replace (Nat.ltb i h) with true by (symmetry; apply Nat.ltb_lt; lia).
    rewrite andb_true_r, Nat.eqb_sym.
    destruct (Nat.eqb i 0); [|apply Rz; exact Hi].
    rewrite map_repeat. reflexivity. }
  set (r2 := Wrappers.set_row r1 (h - 1) 1).
  assert (L2 : length r2 = h) by (unfold r2; rewrite length_set_row; exact L1).
  assert (R2 : forall i, i < h ->
            nth i r2 [] = if (Nat.eqb i 0 || Nat.eqb i (h - 1))%bool
                          then repeat 1%R w else repeat 0%R w).
  { intros i Hi. unfold r2. rewrite nth_set_row, L1.
    replace (Nat.ltb i h) with true by (symmetry; apply Nat.ltb_lt; lia).
    rewrite andb_true_r, (Nat.eqb_sym (h - 1) i).
    destruct (Nat.eqb_spec i (h - 1)) as [E|N].
    - rewrite (R1 (h - 1)) by lia. rewrite orb_true_r.
      destruct (Nat.eqb (h - 1) 0); rewrite map_repeat; reflexivity.
    - rewrite orb_false_r. apply R1. exact Hi. }
  assert (W2 : forall i, i < h -> length (nth i r2 []) = w).
  { intros i Hi. rewrite (R2 i Hi).
    destruct (Nat.eqb i 0 || Nat.eqb i (h - 1))%bool; apply repeat_length. }
  split; [rewrite !length_set_col; exact L2|]. split.
  - intros i Hi. rewrite !length_row_set_col. apply W2. exact Hi.
  - intros i j Hi Hj.
    rewrite nth_set_col, nth_list_set, length_row_set_col, (W2 i Hi).
    rewrite nth_set_col, nth_list_set, (W2 i Hi).
    replace (Nat.ltb j w) with true by (symmetry; apply Nat.ltb_lt; lia).
    rewrite !andb_true_r, (Nat.eqb_sym (w - 1) j), (Nat.eqb_sym 0 j).
    rewrite (R2 i Hi).
    destruct (Nat.eqb i 0 || Nat.eqb i (h - 1))%bool eqn:Ei; cbn [orb].
    + destruct (Nat.eqb j (w - 1)); [reflexivity|].
      destruct (Nat.eqb j 0); [reflexivity|].
      apply nth_repeat_lt. exact Hj.
    + destruct (Nat.eqb j (w - 1)); [rewrite orb_true_r; reflexivity|].
      destruct (Nat.eqb j 0); [reflexivity|].
      cbn [orb]. apply nth_repeat_lt. exact Hj.
Qed.

Lemma new_boundary_map_shape (h w : nat) (bm : list (list R)) :
  Wrappers.new_boundary_map h w = inr bm ->
  1 <= h /\ 1 <= w /\ Wrappers.shape2 bm = (h, w).
Proof.
  intros E. unfold Wrappers.new_boundary_map in E.
  destruct (Nat.eqb_spec h 0) as [|Hh]; [discriminate|].
  destruct (Nat.eqb_spec w 0) as [|Hw]; [discriminate|].
  destruct (@new_boundary_map_closed h w ltac:(lia) ltac:(lia))
    as (bm' & E' & L & Wd & _).
  unfold Wrappers.new_boundary_map in E'.
  replace (Nat.eqb h 0) with false in E' by (symmetry; apply Nat.eqb_neq; lia).
  replace (Nat.eqb w 0) with false in E' by (symmetry; apply Nat.eqb_neq; lia).
  rewrite E in E'. injection E' as <-.
  split; [lia|]. split; [lia|]. unfold Wrappers.shape2. rewrite L. f_equal.
  specialize (Wd 0 ltac:(lia)). destruct bm; [simpl in L; lia | exact Wd].
Qed.

End Arrays.

Section ExtraPlanes.

Lemma at3_repeat_plane (bm : list (list R)) (B h w b i j : nat) :
  length bm = h -> (forall i, i < h -> length (nth i bm []) = w) ->
  b < B -> i < h -> j < w ->
  Wrappers.at3 (repeat (map (map (fun x : R => [x])) bm) B) b i j
  = Some [nth j (nth i bm []) 0%R].
Proof.
  intros L W Hb Hi Hj. unfold Wrappers.at3.
  rewrite (nth_error_repeat _ Hb), nth_error_map.
  rewrite (nth_error_nth' bm []) by lia. cbn [option_map].
  rewrite nth_error_map, (nth_error_nth' (nth i bm []) 0%R) by (rewrite W; lia).
  reflexivity.
Qed.

(** The map that [_add_boundary] uses is the one of the current shape,
    whether it comes from the cache or not. *)
Lemma boundary_map_choice (boundary_map : option (list (list R))) (h w : nat) :
  (boundary_map = None \/
   exists h0 w0 bm0,
     boundary_map = Some bm0 /\ Wrappers.new_boundary_map h0 w0 = inr bm0) ->
  (if match boundary_map with
      | None => true
      | Some bm =>
          negb (Nat.eqb (fst (Wrappers.shape2 bm)) h
                && Nat.eqb (snd (Wrappers.shape2 bm)) w)
      end
   then Wrappers.new_boundary_map h w
   else match boundary_map with
        | Some bm => inr bm
        | None => inl Wrappers.TypeError
        end) = Wrappers.new_boundary_map h w.
Proof.
  intros Hc.
  destruct Hc as [->|(h0 & w0 & bm0 & -> & E0)]; [reflexivity|].
  destruct (new_boundary_map_shape _ _ E0) as (H0 & W0 & S0).
  rewrite S0. cbn [fst snd].
  destruct (Nat.eqb_spec h0 h) as [->|Nh]; [|reflexivity].
  destruct (Nat.eqb_spec w0 w) as [->|Nw]; [|reflexivity].
  cbn [andb negb]. symmetry. exact E0.
Qed.

Lemma add_boundary_returns (boundary_map : option (list (list R)))
    (obs : Wrappers.ndarray) (B h w c : nat) :
  Wrappers.shape obs = (B, h, w, c) -> 1 <= h -> 1 <= w ->
  (boundary_map = None \/
   exists h0 w0 bm0,
     boundary_map = Some bm0 /\ Wrappers.new_boundary_map h0 w0 = inr bm0) ->
  exists bm out,
    Wrappers._add_boundary boundary_map obs = inr (Some bm, out) /\
    Wrappers.shape out = (B, h, w, c + 1).
Proof.
  intros Es Hh Hw Hc.
  destruct (new_boundary_map_closed Hh Hw) as (bm & E & _).
  exists bm. eexists. unfold Wrappers._add_boundary.
  rewrite Es, (boundary_map_choice h w Hc), E. cbn [Wrappers.and_then].
  split; [reflexivity|]. apply shape_concatenate. exact Es.
Qed.

(** X29. [_add_boundary] appends one plane to every observation: 1 on
    the first and last row and the first and last column of the map, 0
    inside, the original channels being kept in front.  The cached map is
    only reused for the shape it was built for, so the plane is the one of
    the current shape whatever the wrapper has seen before.  A map with an
    empty axis makes the call fail with [IndexError]. *)
Theorem boundary_plane_marks_the_border (boundary_map : option (list (list R)))
    (obs : Wrappers.ndarray) (B h w c : nat) :
  Wrappers.shape obs = (B, h, w, c) ->
  Wrappers.well_shaped obs ->
  (boundary_map = None \/
   exists h0 w0 bm0,
     boundary_map = Some bm0 /\ Wrappers.new_boundary_map h0 w0 = inr bm0) ->
  (h = 0 \/ w = 0 ->
   Wrappers._add_boundary boundary_map obs = inl Wrappers.IndexError) /\
  (1 <= h -> 1 <= w ->
   exists bm out,
     Wrappers._add_boundary boundary_map obs = inr (Some bm, out) /\
     Wrappers.new_boundary_map h w = inr bm /\
     Wrappers.shape out = (B, h, w, c + 1) /\
     forall b i j cell,
       Wrappers.at3 (Wrappers.items obs) b i j = Some cell ->
       Wrappers.at3 (Wrappers.items out) b i j
       = Some (cell ++ [if (Nat.eqb i 0 || Nat.eqb i (h - 1)
                            || Nat.eqb j 0 || Nat.eqb j (w - 1))%bool
                        then 1%R else 0%R])).
Proof.
  intros Es W Hc.
  pose proof (boundary_map_choice h w Hc) as Er.
  split.
  - intros Hz. unfold Wrappers._add_boundary. rewrite Es, Er.
    unfold Wrappers.new_boundary_map.
    destruct (Nat.eqb_spec h 0) as [|Nh]; [reflexivity|].
    destruct (Nat.eqb_spec w 0) as [|Nw]; [reflexivity|]. lia.
  - intros Hh Hw.
    destruct (new_boundary_map_closed Hh Hw) as (bm & E & L & Wd & Hval).
    exists bm. eexists. unfold Wrappers._add_boundary.
    rewrite Es, Er, E. cbn [Wrappers.and_then].
    split; [reflexivity|]. split; [reflexivity|].
    split; [apply shape_concatenate; exact Es|].
    intros b i j cell Hcell.
    destruct (@at3_in_shape obs B h w c b i j cell Es W Hcell) as (Hb & Hi & Hj & _).
    rewrite at3_concatenate, Hcell.
    rewrite (@at3_repeat_plane bm B h w b i j L Wd Hb Hi Hj).
    rewrite (Hval i j Hi Hj). reflexivity.
Qed.

Lemma boundary_plane_marks_the_border_witness :
  (2 = 0 \/ 2 = 0 ->
   Wrappers._add_boundary None
     {| Wrappers.shape := (1, 2, 2, 1);
        Wrappers.items := [[[[5]; [6]]; [[7]; [8]]]]%R |}
   = inl Wrappers.IndexError) /\
  (1 <= 2 -> 1 <= 2 ->
   exists bm out,
     Wrappers._add_boundary None
       {| Wrappers.shape := (1, 2, 2, 1);
          Wrappers.items := [[[[5]; [6]]; [[7]; [8]]]]%R |}
     = inr (Some bm, out) /\
     Wrappers.new_boundary_map 2 2 = inr bm /\
     Wrappers.shape out = (1, 2, 2, 1 + 1) /\
     forall b i j cell,
       Wrappers.at3 [[[[5]; [6]]; [[7]; [8]]]]%R b i j = Some cell ->
       Wrappers.at3 (Wrappers.items out) b i j
       = Some (cell ++ [if (Nat.eqb i 0 || Nat.eqb i (2 - 1)
                            || Nat.eqb j 0 || Nat.eqb j (2 - 1))%bool
                        then 1%R else 0%R])).
Proof.
  apply (@boundary_plane_marks_the_border None
           {| Wrappers.shape := (1, 2, 2, 1);
              Wrappers.items := [[[[5]; [6]]; [[7]; [8]]]]%R |} 1 2 2 1).
  - reflexivity.
  - unfold Wrappers.well_shaped. cbn. repeat constructor.
  - left. reflexivity.
Defined.

(** *** Attack-power bins *)

Lemma first_bin_some (damage : Z) (bins : list Z) :
  forall k0 k, Wrappers.first_bin damage k0 bins = Some k ->
    k0 <= k < k0 + length bins /\
    (damage <= nth (k - k0) bins 0)%Z /\
    forall k', k0 <= k' < k -> (nth (k' - k0) bins 0 < damage)%Z.
Proof.
  induction bins as [|t bins IH]; intros k0 k H; cbn [Wrappers.first_bin] in H;
    [discriminate|].
  destruct (Z.leb_spec damage t) as [Hle|Hgt].
  - injection H as <-. rewrite Nat.sub_diag. cbn [nth length].
    repeat split; try lia.
  - destruct (IH (S k0) k H) as (Hk & Hd & Hlt). cbn [length].
    split; [lia|]. split.
    + replace (k - k0) with (S (k - S k0)) by lia. exact Hd.
    + intros k' Hk'. destruct (Nat.eq_dec k' k0) as [->|Hne].
      * rewrite Nat.sub_diag. exact Hgt.
      * replace (k' - k0) with (S (k' - S k0)) by lia. apply Hlt. lia.
Qed.

Lemma first_bin_none (damage : Z) (bins : list Z) :
  forall k0, Wrappers.first_bin damage k0 bins = None <->
             Forall (fun t => (t < damage)%Z) bins.
Proof.
  induction bins as [|t bins IH]; intros k0; cbn [Wrappers.first_bin].
  - split; [constructor | reflexivity].
  - destruct (Z.leb_spec damage t) as [Hle|Hgt]; split; intros H.
    + discriminate.
    + inversion H; subst. lia.
    + constructor; [exact Hgt | apply (IH (S k0)); exact H].
    + inversion H; subst. apply (IH (S k0)). assumption.
Qed.

Lemma bin_idx_lt (damage : Z) (bins : list Z) :
  bins <> [] -> Wrappers.bin_idx damage bins < length bins.
Proof.
  intros Hne. unfold Wrappers.bin_idx.
  destruct (Wrappers.first_bin damage 0 bins) as [k|] eqn:E.
  - destruct (first_bin_some _ _ _ E) as (Hk & _). lia.
  - destruct bins; [contradiction | simpl; lia].
Qed.

Lemma onehot_cell_closed (self : Wrappers.AttackPowerOneHotWrapper) (utype : Z) :
  Wrappers.damage_bins self <> [] ->
  Wrappers.onehot_cell self utype
  = inr (if Z.ltb utype 0 then repeat 0%R (Wrappers.num_bins self)
         else Wrappers.list_set (repeat 0%R (Wrappers.num_bins self))
                (Wrappers.bin_idx
                   (Wrappers.get (Wrappers.id_to_damage self) utype 0)
                   (Wrappers.damage_bins self)) 1%R).
Proof.
  intros Hne. unfold Wrappers.onehot_cell.
  destruct (Z.ltb utype 0); [reflexivity|].
  replace (Nat.ltb _ (Wrappers.num_bins self)) with true; [reflexivity|].
  symmetry. apply Nat.ltb_lt. apply bin_idx_lt. exact Hne.
Qed.

Lemma onehot_map_closed (self : Wrappers.AttackPowerOneHotWrapper)
    (unit_type_map : list (list (list Z))) (B h w : nat) :
  Wrappers.damage_bins self <> [] ->
  (forall b i j, b < B -> i < h -> j < w ->
     Wrappers.at3 unit_type_map b i j <> None) ->
  Wrappers.mapE (fun b =>
    Wrappers.mapE (fun i =>
      Wrappers.mapE (fun j =>
        match Wrappers.at3 unit_type_map b i j with
        | Some utype => Wrappers.onehot_cell self utype
        | None => inl Wrappers.IndexError
        end) (seq 0 w)) (seq 0 h)) (seq 0 B)
  = inr (map (fun b =>
               map (fun i =>
                      map (fun j => Wrappers.onehot_or_nil self unit_type_map b i j)
                          (seq 0 w))
                   (seq 0 h)) (seq 0 B)).
Proof.
  intros Hne Hcover.
  apply mapE_seq. intros b Hb. apply mapE_seq. intros i Hi.
  apply mapE_seq. intros j Hj. unfold Wrappers.onehot_or_nil.
  specialize (Hcover b i j ltac:(lia) ltac:(lia) ltac:(lia)).
  destruct (Wrappers.at3 unit_type_map b i j) as [u|]; [|contradiction].
  apply onehot_cell_closed. exact Hne.
Qed.

Lemma add_attack_onehot_returns (self : Wrappers.AttackPowerOneHotWrapper)
    (unit_type_map : list (list (list Z))) (obs : Wrappers.ndarray)
    (B h w c : nat) :
  Wrappers.damage_bins self <> [] ->
  Wrappers.shape obs = (B, h, w, c) ->
  (forall b i j, b < B -> i < h -> j < w ->
     Wrappers.at3 unit_type_map b i j <> None) ->
  exists out, Wrappers._add_attack_onehot self unit_type_map obs = inr out.
Proof.
  intros Hne Es Hcover. eexists. unfold Wrappers._add_attack_onehot.
  rewrite Es, (@onehot_map_closed self unit_type_map B h w Hne Hcover).
  reflexivity.
Qed.

(** X28. [_add_attack_onehot] appends [num_bins] planes to every
    observation and keeps the original channels in front.  A cell without
    a unit (negative type) gets zeros; a cell with a unit gets exactly one
    1, in the bin of the first threshold that is not below the damage of
    its type, where a type that is not in the table counts as damage 0 -
    and a damage above every threshold falls into bin 0, like the smallest
    damages.  The list of thresholds is not empty and the unit types cover
    the observation. *)
Theorem attack_planes_are_one_hot (self : Wrappers.AttackPowerOneHotWrapper)
    (unit_type_map : list (list (list Z))) (obs : Wrappers.ndarray)
    (B h w c : nat) :
  Wrappers.damage_bins self <> [] ->
  Wrappers.shape obs = (B, h, w, c) ->
  Wrappers.well_shaped obs ->
  (forall b i j, b < B -> i < h -> j < w ->
     Wrappers.at3 unit_type_map b i j <> None) ->
  (exists out,
     Wrappers._add_attack_onehot self unit_type_map obs = inr out /\
     Wrappers.shape out = (B, h, w, c + Wrappers.num_bins self) /\
     forall b i j cell utype,
       Wrappers.at3 (Wrappers.items obs) b i j = Some cell ->
       Wrappers.at3 unit_type_map b i j = Some utype ->
       exists oh,
         Wrappers.at3 (Wrappers.items out) b i j = Some (cell ++ oh) /\
         length oh = Wrappers.num_bins self /\
         ((utype < 0)%Z -> oh = repeat 0%R (Wrappers.num_bins self)) /\
         ((0 <= utype)%Z ->
          let k := Wrappers.bin_idx
                     (Wrappers.get (Wrappers.id_to_damage self) utype 0)
                     (Wrappers.damage_bins self) in
          nth k oh 0%R = 1%R /\ forall k', k' <> k -> nth k' oh 0%R = 0%R)) /\
  (forall damage,
     let k := Wrappers.bin_idx damage (Wrappers.damage_bins self) in
     k < Wrappers.num_bins self /\
     (Exists (fun t => (damage <= t)%Z) (Wrappers.damage_bins self) ->
      (damage <= nth k (Wrappers.damage_bins self) 0)%Z /\
      forall k', k' < k -> (nth k' (Wrappers.damage_bins self) 0 < damage)%Z) /\
     (Forall (fun t => (t < damage)%Z) (Wrappers.damage_bins self) -> k = 0)).
Proof.
  intros Hne Es W Hcover. split.
  - set (g := Wrappers.onehot_or_nil self unit_type_map).
    pose proof (@onehot_map_closed self unit_type_map B h w Hne Hcover) as E.
    fold g in E.
    eexists. unfold Wrappers._add_attack_onehot. rewrite Es, E.
    cbn [Wrappers.and_then].
    split; [reflexivity|]. split; [apply shape_concatenate; exact Es|].
    intros b i j cell utype Hcell Hu.
    destruct (@at3_in_shape obs B h w c b i j cell Es W Hcell) as (Hb & Hi & Hj & _).
    rewrite at3_concatenate, Hcell.
    assert (Eg : Wrappers.at3
                   (map (fun b => map (fun i => map (fun j => g b i j) (seq 0 w))
                                      (seq 0 h)) (seq 0 B)) b i j
                 = Some (g b i j)).
    { unfold Wrappers.at3.
      rewrite (nth_error_map_seq _ Hb), (nth_error_map_seq _ Hi),
              (nth_error_map_seq _ Hj). reflexivity. }
    rewrite Eg. exists (g b i j). split; [reflexivity|].
    unfold g, Wrappers.onehot_or_nil. rewrite Hu.
    pose proof (@bin_idx_lt (Wrappers.get (Wrappers.id_to_damage self) utype 0)
                  (Wrappers.damage_bins self) Hne) as Hk.
    fold (Wrappers.num_bins self) in Hk.
    destruct (Z.ltb_spec utype 0) as [Hneg|Hpos].
    + split; [apply repeat_length|]. split; [reflexivity|]. intros; lia.
    + split; [rewrite length_list_set; apply repeat_length|].
      split; [intros; lia|]. intros _. cbv zeta. split.
      * apply nth_list_set_same. rewrite repeat_length. exact Hk.
      * intros k' Hk'. rewrite nth_list_set_other by (intro; apply Hk'; symmetry; assumption).
        apply nth_repeat.
  - intros damage k.
    split; [apply bin_idx_lt; exact Hne|]. split.
    + intros Hex. unfold k, Wrappers.bin_idx.
      destruct (Wrappers.first_bin damage 0 (Wrappers.damage_bins self)) as [k1|] eqn:E.
      * destruct (first_bin_some _ _ _ E) as (_ & Hd & Hlt).
        rewrite Nat.sub_0_r in Hd. split; [exact Hd|].
        intros k' Hk'. specialize (Hlt k' ltac:(lia)).
        rewrite Nat.sub_0_r in Hlt. exact Hlt.
      * apply first_bin_none in E. apply Exists_exists in Hex.
        destruct Hex as (t & Hin & Ht). rewrite Forall_forall in E.
        specialize (E t Hin). lia.
    + intros Hall. unfold k, Wrappers.bin_idx.
      rewrite (proj2 (first_bin_none damage (Wrappers.damage_bins self) 0) Hall).
      reflexivity.
Qed.

End ExtraPlanes.

Lemma attack_planes_are_one_hot_witness :
  (exists out,
     Wrappers._add_attack_onehot
       {| Wrappers.id_to_damage := [(0, 1); (1, 5)]%Z;
          Wrappers.damage_bins := [0; 1; 2; 4; 999]%Z |}
       [[[1; -1]]]%Z
       {| Wrappers.shape := (1, 1, 2, 1);
          Wrappers.items := [[[[5]; [6]]]]%R |} = inr out /\
     Wrappers.shape out
     = (1, 1, 2,
        1 + Wrappers.num_bins
              {| Wrappers.id_to_damage := [(0, 1); (1, 5)]%Z;
                 Wrappers.damage_bins := [0; 1; 2; 4; 999]%Z |}) /\
     forall b i j cell utype,
       Wrappers.at3 [[[[5]; [6]]]]%R b i j = Some cell ->
       Wrappers.at3 [[[1; -1]]]%Z b i j = Some utype ->
       exists oh,
         Wrappers.at3 (Wrappers.items out) b i j = Some (cell ++ oh) /\
         length oh = 5 /\
         ((utype < 0)%Z -> oh = repeat 0%R 5) /\
         ((0 <= utype)%Z ->
          let k := Wrappers.bin_idx (Wrappers.get [(0, 1); (1, 5)]%Z utype 0)
                     [0; 1; 2; 4; 999]%Z in
          nth k oh 0%R = 1%R /\ forall k', k' <> k -> nth k' oh 0%R = 0%R)) /\
  (forall damage,
     let k := Wrappers.bin_idx damage [0; 1; 2; 4; 999]%Z in
     k < 5 /\
     (Exists (fun t => (damage <= t)%Z) [0; 1; 2; 4; 999]%Z ->
      (damage <= nth k [0; 1; 2; 4; 999]%Z 0)%Z /\
      forall k', k' < k -> (nth k' [0; 1; 2; 4; 999]%Z 0 < damage)%Z) /\
     (Forall (fun t => (t < damage)%Z) [0; 1; 2; 4; 999]%Z -> k = 0)).
Proof.
  apply (@attack_planes_are_one_hot
           {| Wrappers.id_to_damage := [(0, 1); (1, 5)]%Z;
              Wrappers.damage_bins := [0; 1; 2; 4; 999]%Z |}
           [[[1; -1]]]%Z
           {| Wrappers.shape := (1, 1, 2, 1);
              Wrappers.items := [[[[5]; [6]]]]%R |} 1 1 2 1).
  - discriminate.
  - reflexivity.
  - unfold Wrappers.well_shaped. cbn. repeat constructor.
  - intros b i j Hb Hi Hj.
    assert (b = 0) by lia. assert (i = 0) by lia.
    assert (j = 0 \/ j = 1) as [-> | ->] by lia; subst; discriminate.
Defined.

Section Chain.

Variable X : Type.

(** X30. In [ppo_maxcho_v2.py], [VecMonitor.step_wait] returns the infos
    third and the done flags fourth, and the wrappers above it pass both
    on by position: the tuple that the chain up to [VecPyTorch] returns
    has, as its third component, the list of info dictionaries that
    [VecMonitor.step_wait] of the other two files returns fourth, and, as
    its fourth, the done flags of the game.  The monitor has been reset
    for as many environments as the game reports, the map has no empty
    axis, the thresholds are not empty and the unit types cover the
    map. *)
Theorem v2_step_wait_returns_infos_before_dones
    (monitor : Wrappers.VecMonitor) (boundary_map : option (list (list R)))
    (attack : Wrappers.AttackPowerOneHotWrapper)
    (unit_type_map : list (list (list Z)))
    (venv : Wrappers.ndarray * list R * list bool * list (Wrappers.info X))
    (elapsed : nat -> R) (ep : list R) (el : list Z) (n B h w c : nat) :
  Wrappers.eprets monitor = Some ep -> Wrappers.eplens monitor = Some el ->
  length ep = n -> length el = n ->
  length (Wrappers.rews_of venv) = n ->
  length (Wrappers.dones_of venv) = n ->
  length (Wrappers.infos_of venv) = n ->
  Wrappers.shape (Wrappers.obs_of venv) = (B, h, w, c) ->
  1 <= h -> 1 <= w ->
  (boundary_map = None \/
   exists h0 w0 bm0,
     boundary_map = Some bm0 /\ Wrappers.new_boundary_map h0 w0 = inr bm0) ->
  Wrappers.damage_bins attack <> [] ->
  (forall b i j, b < B -> i < h -> j < w ->
     Wrappers.at3 unit_type_map b i j <> None) ->
  exists monitor' boundary_map' obs' newinfos,
    Wrappers.v2_step_wait monitor boundary_map attack unit_type_map venv elapsed
    = inr (monitor', boundary_map',
           (obs', map (fun x => [x]) (Wrappers.rews_of venv), newinfos,
            Wrappers.dones_of venv)) /\
    Wrappers.VecMonitor_step_wait monitor venv elapsed
    = inr (monitor', (Wrappers.obs_of venv, Wrappers.rews_of venv,
                      Wrappers.dones_of venv, newinfos)).
Proof.
  intros Eep Eel Lep Lel Lr Ld Li Es Hh Hw Hc Hne Hcover.
  destruct (@step_wait_closed X Wrappers.ndarray monitor venv elapsed ep el n
              Eep Eel Lep Lel Lr Ld Li)
    as (m' & ep' & el' & ni' & E & _).
  destruct venv as [[[obs rews] dones] infos].
  unfold Wrappers.obs_of, Wrappers.rews_of, Wrappers.dones_of, Wrappers.infos_of in *.
  cbn [fst snd] in *.
  assert (Em : Wrappers.monitor_step monitor rews dones infos elapsed = inr (m', ni')).
  { unfold Wrappers.VecMonitor_step_wait in E.
    destruct (Wrappers.monitor_step monitor rews dones infos elapsed) as [e|[m1 n1]];
      cbn [Wrappers.and_then fst snd] in E; [discriminate|].
    injection E as -> ->. reflexivity. }
  destruct (@add_boundary_returns boundary_map obs B h w c Es Hh Hw Hc)
    as (bm & out1 & E1 & S1).
  destruct (@add_attack_onehot_returns attack unit_type_map out1 B h w (c + 1)
              Hne S1 Hcover) as (out2 & E2).
  exists m', (Some bm), out2, ni'. split; [|exact E].
  unfold Wrappers.v2_step_wait, Wrappers.VecMonitor_step_wait_v2.
  rewrite Em. cbn [Wrappers.and_then fst snd].
  unfold Wrappers.BoundaryWrapper_step_wait. rewrite E1.
  cbn [Wrappers.and_then fst snd].
  unfold Wrappers.AttackPowerOneHotWrapper_step_wait. rewrite E2.
  cbn [Wrappers.and_then fst snd]. reflexivity.
Qed.

End Chain.

Lemma v2_step_wait_returns_infos_before_dones_witness :
  exists monitor' boundary_map' obs' newinfos,
    Wrappers.v2_step_wait (Wrappers.VecMonitor_reset Wrappers.VecMonitor_init 1)
      None
      {| Wrappers.id_to_damage := [(0, 1); (1, 5)]%Z;
         Wrappers.damage_bins := [0; 1; 2; 4; 999]%Z |}
      [[[1; -1]]]%Z
      ({| Wrappers.shape := (1, 1, 2, 1);
          Wrappers.items := [[[[5]; [6]]]]%R |}, [3]%R, [true],
       [[]] : list (Wrappers.info unit))
      (fun _ => 0%R)
    = inr (monitor', boundary_map',
           (obs', map (fun x => [x]) [3]%R, newinfos, [true])) /\
    Wrappers.VecMonitor_step_wait
      (Wrappers.VecMonitor_reset Wrappers.VecMonitor_init 1)
      ({| Wrappers.shape := (1, 1, 2, 1);
          Wrappers.items := [[[[5]; [6]]]]%R |}, [3]%R, [true],
       [[]] : list (Wrappers.info unit))
      (fun _ => 0%R)
    = inr (monitor',
           ({| Wrappers.shape := (1, 1, 2, 1);
               Wrappers.items := [[[[5]; [6]]]]%R |}, [3]%R, [true], newinfos)).
Proof.
  apply (@v2_step_wait_returns_infos_before_dones unit
           (Wrappers.VecMonitor_reset Wrappers.VecMonitor_init 1) None
           {| Wrappers.id_to_damage := [(0, 1); (1, 5)]%Z;
              Wrappers.damage_bins := [0; 1; 2; 4; 999]%Z |}
           [[[1; -1]]]%Z
           ({| Wrappers.shape := (1, 1, 2, 1);
               Wrappers.items := [[[[5]; [6]]]]%R |}, [3]%R, [true], [[]])
           (fun _ => 0%R) (repeat 0%R 1) (repeat 0%Z 1) 1 1 1 2 1);
    try reflexivity; try lia.
  - left. reflexivity.
  - discriminate.
  - intros b i j Hb Hi Hj.
    assert (b = 0) by lia. assert (i = 0) by lia.
    assert (j = 0 \/ j = 1) as [-> | ->] by lia; subst; discriminate.
Defined.
